(** * The Octave grammar of [octave-parser/src/grammar.pest]

    The repository's parser is the PEG grammar [grammar.pest], compiled by the
    pest parser generator.  This development embeds the grammar rule by rule
    as executable parsers built from the operations of pest's parser state
    ([match_string], [match_range], [sequence]/[and_then], [or_else],
    [optional], [repeat], [lookahead], [rule], [atomic] and the implicit
    whitespace [skip]), and proves properties of the resulting parser.

    Input text is a list of Unicode scalar values (one [N] per [char] of the
    UTF-8 source).  A parser returns the pairs (rule-tagged tokens with the
    text they span and their inner pairs) it produced together with the
    unconsumed input, or fails, or does not terminate. *)

From Stdlib Require Import String Ascii List NArith Arith Bool Lia.
Import ListNotations.

Local Open Scope N_scope.

(** ** Characters and text *)

Definition input := list N.

(** The code points of an ASCII string literal. *)
Definition codes (s : String.string) : input :=
  map N_of_ascii (list_ascii_of_string s).

Definition TAB : input := [9].
Definition LF : input := [10].
Definition CR : input := [13].
Definition DQUOTE : input := [34].
Definition SQUOTE : input := [39].
Definition BACKSLASH : input := [92].

(** ** Pairs, results and parsers *)

Module Rule.

(** One constructor per rule of the grammar that can produce a pair (silent
    rules produce none), plus pest's built-in [EOI]. *)
Inductive t :=
| EOI
| toplevel | statement_semi | assignment
| expr | binary
| add | sub | mul | div | pow | access
| call | matrix | single_value | line
| identifier | string | char_double | char_simple | number.

End Rule.

(** pest's [Atomicity]: whether implicit whitespace is skipped and whether
    inner rules produce pairs. *)
Inductive Atomicity := Atomic | CompoundAtomic | NonAtomic.

(** A pair: the rule that matched, the text of its span, its inner pairs. *)
#[warnings="-register-all"]
Inductive Pair := Node (rule : Rule.t) (text : input) (inner : list Pair).

Inductive ParseResult :=
| Ok (tokens : list Pair) (rest : input)
| Err
| Diverge.

Definition parser := Atomicity -> input -> ParseResult.

(** ** The syntax tree *)

Module Ast.

(** Modelled from the spec: the literal forms of section 3 (the code that
    builds a syntax tree from the pairs is not among the sources).  A
    number and an identifier keep their text, a string its decoded text. *)
Inductive Literal :=
| LNumber (text : input)
| LString (decoded : input)
| LIdentifier (text : input).

(** Modelled from the spec: the operators [+ - * / ^ .] of a binary
    chain. *)
Inductive Operator := OpAdd | OpSub | OpMul | OpDiv | OpPow | OpAccess.

(** Modelled from the spec: the expression variants of section 3. *)
#[warnings="-register-all"]
Inductive Expression :=
| ELiteral (l : Literal)
| EIdentifier (name : input)
| BinaryChain (first : Expression) (ops : list (Operator * Expression))
| Call (callee : input) (args : list Expression)
| Matrix (rows : list (list Literal))
| Range (parts : list Expression).

(** Modelled from the spec: the statement variants of section 3. *)
Inductive Statement :=
| Assignment (target : input) (value : Expression)
| ExpressionStatement (value : Expression) (suppressed : bool).

(** Modelled from the spec: a program is an ordered sequence of
    statements. *)
Definition Program := list Statement.
End Ast.

(** The text consumed between input [s] and its remainder [rest]. *)
Definition consumed (s rest : input) : input :=
  firstn (length s - length rest) s.

(** ** Operations of the parser state *)

Fixpoint strip_prefix (p s : input) : option input :=
  match p, s with
  | [], _ => Some s
  | c :: p', d :: s' => if c =? d then strip_prefix p' s' else None
  | _ :: _, [] => None
  end.

Definition match_string (str : input) : parser := fun _ s =>
  match strip_prefix str s with
  | Some r => Ok [] r
  | None => Err
  end.

Definition lit (str : String.string) : parser := match_string (codes str).

Definition ascii_lowercase (c : N) : N :=
  if (65 <=? c) && (c <=? 90) then c + 32 else c.

Fixpoint strip_prefix_insensitive (p s : input) : option input :=
  match p, s with
  | [], _ => Some s
  | c :: p', d :: s' =>
      if ascii_lowercase c =? ascii_lowercase d
      then strip_prefix_insensitive p' s' else None
  | _ :: _, [] => None
  end.

Definition match_insensitive (str : input) : parser := fun _ s =>
  match strip_prefix_insensitive str s with
  | Some r => Ok [] r
  | None => Err
  end.

Definition match_char_by (f : N -> bool) : parser := fun _ s =>
  match s with
  | c :: r => if f c then Ok [] r else Err
  | [] => Err
  end.

Definition in_range (lo hi c : N) : bool := (lo <=? c) && (c <=? hi).

Definition match_range (lo hi : N) : parser := match_char_by (in_range lo hi).

(** [ANY]: one character, whatever it is. *)
Definition ANY : parser := match_char_by (fun _ => true).

(** [SOI]: the rule [toplevel] is referenced by no other rule and is entered
    at offset 0 only, where the start-of-input test holds. *)
Definition SOI : parser := fun _ s => Ok [] s.

Definition end_of_input : parser := fun _ s =>
  match s with
  | [] => Ok [] []
  | _ :: _ => Err
  end.

Definition diverge : parser := fun _ _ => Diverge.

Definition and_then (p q : parser) : parser := fun a s =>
  match p a s with
  | Ok o1 r1 =>
      match q a r1 with
      | Ok o2 r2 => Ok (o1 ++ o2) r2
      | Err => Err
      | Diverge => Diverge
      end
  | Err => Err
  | Diverge => Diverge
  end.

Definition or_else (p q : parser) : parser := fun a s =>
  match p a s with
  | Ok o r => Ok o r
  | Err => q a s
  | Diverge => Diverge
  end.

Definition optional (p : parser) : parser := fun a s =>
  match p a s with
  | Ok o r => Ok o r
  | Err => Ok [] s
  | Diverge => Diverge
  end.

(** [repeat] applies [p] until it fails.  The loop counter starts at the
    length of the input: it runs out only when [p] succeeded without
    consuming anything, where the loop of pest never ends. *)
Fixpoint repeat_loop (p : parser) (n : nat) (a : Atomicity) (s : input)
  : ParseResult :=
  match p a s with
  | Err => Ok [] s
  | Diverge => Diverge
  | Ok o r =>
      match n with
      | O => Diverge
      | S n' =>
          match repeat_loop p n' a r with
          | Ok o' r' => Ok (o ++ o') r'
          | Err => Err
          | Diverge => Diverge
          end
      end
  end.

Definition repeat (p : parser) : parser := fun a s =>
  repeat_loop p (length s) a s.

(** Negative lookahead [!p]: succeeds, consuming nothing and producing no
    pair, exactly when [p] fails. *)
Definition lookahead_not (p : parser) : parser := fun a s =>
  match p a s with
  | Ok _ _ => Err
  | Err => Ok [] s
  | Diverge => Diverge
  end.

(** [rule r p]: on success the tokens of [p] become the inner pairs of one
    pair for [r], unless the state is atomic, where no pair is produced. *)
Definition rule (r : Rule.t) (p : parser) : parser := fun a s =>
  match p a s with
  | Ok inner rest =>
      match a with
      | Atomic => Ok inner rest
      | _ => Ok [Node r (consumed s rest) inner] rest
      end
  | Err => Err
  | Diverge => Diverge
  end.

(** [atomic a p] runs [p] with atomicity [a] and restores the caller's. *)
Definition atomic (a : Atomicity) (p : parser) : parser := fun _ s => p a s.

Declare Scope peg_scope.
Delimit Scope peg_scope with peg.
Bind Scope peg_scope with parser.
Notation "p ~> q" := (and_then p q) (at level 61, right associativity) : peg_scope.
Notation "p <|> q" := (or_else p q) (at level 62, right associativity) : peg_scope.
Local Open Scope peg_scope.

(** ** Built-in rules *)

Definition ASCII_DIGIT : parser := match_range 48 57.
Definition ASCII_NONZERO_DIGIT : parser := match_range 49 57.
Definition ASCII_HEX_DIGIT : parser :=
  match_range 48 57 <|> match_range 97 102 <|> match_range 65 70.

Definition ascii_alphabetic (c : N) : bool :=
  in_range 65 90 c || in_range 97 122 c.

Definition EOI : parser := rule Rule.EOI end_of_input.

Section Grammar.

(** The Unicode property [Alphabetic] on the code points above ASCII.  Its
    table belongs to pest's Unicode support, not to this repository; within
    ASCII the property holds of the letters A-Z and a-z only. *)
Variable alphabetic_high : N -> bool.

Definition alphabetic (c : N) : bool :=
  if c <? 128 then ascii_alphabetic c else alphabetic_high c.

Definition ALPHABETIC : parser := match_char_by alphabetic.

(** ** Implicit whitespace *)

(** WHITESPACE = _{ " " | "\t" | "\r" | "\n" } *)
Definition WHITESPACE : parser :=
  atomic Atomic (lit " " <|> match_string TAB <|> match_string CR <|> match_string LF).

(** The grammar defines no [COMMENT] rule (its line is commented out), so
    the hidden [skip] rule repeats [WHITESPACE] alone, and only in a
    non-atomic state. *)
Definition skip : parser := fun a s =>
  match a with
  | NonAtomic => repeat WHITESPACE a s
  | _ => Ok [] s
  end.

(** Sequence and repetition as generated for the body of a normal or silent
    rule: [skip] runs between the parts. *)
Definition seq_ws (p q : parser) : parser := p ~> skip ~> q.
Notation "p ~~ q" := (seq_ws p q) (at level 61, right associativity) : peg_scope.

Definition rep (p : parser) : parser :=
  optional (p ~> repeat (skip ~> p)).

(** ** Literals *)

(** identifier = @{ (ALPHABETIC | "_") ~ (ALPHABETIC | ASCII_DIGIT | "_")* } *)
Definition identifier : parser :=
  rule Rule.identifier (atomic Atomic
    ((ALPHABETIC <|> lit "_")
     ~> repeat (ALPHABETIC <|> ASCII_DIGIT <|> lit "_"))).

(** "u" ~ ASCII_HEX_DIGIT{4}, the last alternative of both character rules. *)
Definition escape_u : parser :=
  lit "u" ~> ASCII_HEX_DIGIT ~> ASCII_HEX_DIGIT ~> ASCII_HEX_DIGIT ~> ASCII_HEX_DIGIT.

(** char_double (atomic): a character that is neither the double quote nor
    the backslash; or a backslash and one of the double quote, the
    backslash, [/ b f n r t]; or a backslash and [u] with four hexadecimal
    digits.  The lookahead is the choice of the two characters. *)
Definition char_double : parser :=
  rule Rule.char_double (atomic Atomic
    ((lookahead_not (match_string DQUOTE <|> match_string BACKSLASH) ~> ANY)
     <|> (match_string BACKSLASH
          ~> (match_string DQUOTE <|> match_string BACKSLASH <|> lit "/" <|> lit "b"
              <|> lit "f" <|> lit "n" <|> lit "r" <|> lit "t"))
     <|> (match_string BACKSLASH ~> escape_u))).

(** char_simple (atomic): as [char_double] with the single quote for the
    double quote, but the grammar writes its lookahead as the sequence of
    the single quote and then the backslash, where [char_double] has the
    choice of the two. *)
Definition char_simple : parser :=
  rule Rule.char_simple (atomic Atomic
    ((lookahead_not (match_string SQUOTE ~> match_string BACKSLASH) ~> ANY)
     <|> (match_string BACKSLASH
          ~> (match_string SQUOTE <|> match_string BACKSLASH <|> lit "/" <|> lit "b"
              <|> lit "f" <|> lit "n" <|> lit "r" <|> lit "t"))
     <|> (match_string BACKSLASH ~> escape_u))).

(** string (compound-atomic): a double quote, char_double*, a double quote;
    or a single quote, char_simple*, a single quote. *)
Definition string : parser :=
  atomic CompoundAtomic (rule Rule.string
    ((match_string DQUOTE ~> repeat char_double ~> match_string DQUOTE)
     <|> (match_string SQUOTE ~> repeat char_simple ~> match_string SQUOTE))).

(** number = @{ "-"? ~ ("0" | ASCII_NONZERO_DIGIT ~ ASCII_DIGIT* )
                ~ ("." ~ ASCII_DIGIT* )? ~ (^"e" ~ ("+" | "-")? ~ ASCII_DIGIT+)? } *)
Definition number : parser :=
  rule Rule.number (atomic Atomic
    (optional (lit "-")
     ~> (lit "0" <|> (ASCII_NONZERO_DIGIT ~> repeat ASCII_DIGIT))
     ~> optional (lit "." ~> repeat ASCII_DIGIT)
     ~> optional (match_insensitive (codes "e")
                  ~> optional (lit "+" <|> lit "-")
                  ~> (ASCII_DIGIT ~> repeat ASCII_DIGIT)))).

(** literal = _{ string | number | identifier } *)
Definition literal : parser := string <|> number <|> identifier.

(** ** Values *)

(** single_value = ${ literal } *)
Definition single_value : parser :=
  atomic CompoundAtomic (rule Rule.single_value literal).

(** The separator inside [line]:
    (WHITESPACE* ~ "," ~ WHITESPACE* ) | WHITESPACE+ *)
Definition line_separator : parser :=
  (repeat WHITESPACE ~> lit "," ~> repeat WHITESPACE)
  <|> (WHITESPACE ~> repeat WHITESPACE).

(** line = ${ (literal ~ (separator ~ literal)* )? } *)
Definition line : parser :=
  atomic CompoundAtomic (rule Rule.line
    (optional (literal ~> repeat (line_separator ~> literal)))).

(** matrix = { "[" ~ (line ~ (";" ~ line)* )? ~ "]" } *)
Definition matrix : parser :=
  rule Rule.matrix
    (lit "[" ~~ optional (line ~~ rep (lit ";" ~~ line)) ~~ lit "]").

(** value = _{ matrix | single_value } *)
Definition value : parser := matrix <|> single_value.

(** ** Expressions *)

(** add = {"+"}, sub = {"-"}, mul = {"*"}, div = {"/"}, pow = {"^"}, access = {"."} *)
Definition add : parser := rule Rule.add (lit "+").
Definition sub : parser := rule Rule.sub (lit "-").
Definition mul : parser := rule Rule.mul (lit "*").
Definition div : parser := rule Rule.div (lit "/").
Definition pow : parser := rule Rule.pow (lit "^").
Definition access : parser := rule Rule.access (lit ".").

(** op = _{ add | sub | mul | div | pow | access } *)
Definition op : parser := add <|> sub <|> mul <|> div <|> pow <|> access.

(** The rules [call], [atom], [binary], [range_operand] and [expr] are
    mutually recursive through [expr]; [self] is the parser that a reference
    to [expr] runs.

    call = { identifier ~ "(" ~ (expr ~ ("," ~ expr)* )? ~ ")" } *)
Definition call (self : parser) : parser :=
  rule Rule.call
    (identifier ~~ lit "(" ~~ optional (self ~~ rep (lit "," ~~ self)) ~~ lit ")").

(** atom = _{ call | value } *)
Definition atom (self : parser) : parser := call self <|> value.

(** binary = { atom ~ (op ~ atom)* } *)
Definition binary (self : parser) : parser :=
  rule Rule.binary (atom self ~~ rep (op ~~ atom self)).

(** range_operand = _{ binary | value } *)
Definition range_operand (self : parser) : parser := binary self <|> value.

(** expr = { range_operand ~ (":" ~ range_operand ~ (":" ~ range_operand)?)? } *)
Definition expr_body (self : parser) : parser :=
  rule Rule.expr
    (range_operand self
     ~~ optional (lit ":" ~~ range_operand self
                  ~~ optional (lit ":" ~~ range_operand self))).

(** [expr] with a bound on the depth of nested references to itself. *)
Fixpoint expr (depth : nat) : parser :=
  match depth with
  | O => diverge
  | S d => expr_body (expr d)
  end.

(** ** Statements and the whole document *)

(** assignment = { identifier ~ "=" ~ expr } *)
Definition assignment (e : parser) : parser :=
  rule Rule.assignment (identifier ~~ lit "=" ~~ e).

(** statement = _{ assignment | expr } *)
Definition statement (e : parser) : parser := assignment e <|> e.

(** statement_semi = { statement ~ ";" } *)
Definition statement_semi (e : parser) : parser :=
  rule Rule.statement_semi (statement e ~~ lit ";").

(** statements = _{ (statement_semi | statement)* } *)
Definition statements (e : parser) : parser :=
  rep (statement_semi e <|> statement e).

(** toplevel = { SOI ~ statements? ~ EOI } *)
Definition toplevel (e : parser) : parser :=
  rule Rule.toplevel (SOI ~~ optional (statements e) ~~ EOI).

(** Modelled from the spec: [parse(text)] of section 6 runs the
    whole-document rule [toplevel] on the text, in the initial, non-atomic
    state of the generated parser (the Rust entry point that calls it is not
    among the sources).  Every reference to [expr] consumes at least one
    character before the next nested one, so a depth above the length of the
    text is never reached. *)
Definition parse (s : input) : ParseResult :=
  toplevel (expr (S (length s))) NonAtomic s.

(** ** Reading pairs as a syntax tree *)

(** Modelled from the spec: the value of a hexadecimal digit of a [\u]
    escape. *)
Definition hex_value (c : N) : N :=
  if in_range 48 57 c then c - 48
  else if in_range 97 102 c then c - 87
  else c - 55.

(** Modelled from the spec: the character that the text of one
    [char_double] or [char_simple] pair stands for (section 4.1): a plain
    character passes through, [\b \f \n \r \t] are the control characters,
    the other single-character escapes stand for themselves, and [\u] with
    four hexadecimal digits is that scalar value. *)
Definition decode_char (text : input) : option N :=
  match text with
  | [c] => Some c
  | [_; e] =>
      Some (if e =? 98 then 8 else if e =? 102 then 12 else if e =? 110 then 10
            else if e =? 114 then 13 else if e =? 116 then 9 else e)
  | [_; _; h3; h2; h1; h0] =>
      Some (hex_value h3 * 4096 + hex_value h2 * 256 + hex_value h1 * 16 + hex_value h0)
  | _ => None
  end.

(** Modelled from the spec: the decoded text of a string literal, from the
    character pairs inside it. *)
Fixpoint decode (chars : list Pair) : option input :=
  match chars with
  | [] => Some []
  | Node _ t _ :: more =>
      match decode_char t, decode more with
      | Some c, Some cs => Some (c :: cs)
      | _, _ => None
      end
  end.

(** Modelled from the spec: the literal that a [string], [number] or
    [identifier] pair denotes. *)
Definition lower_literal (p : Pair) : option Ast.Literal :=
  match p with
  | Node Rule.number t _ => Some (Ast.LNumber t)
  | Node Rule.identifier t _ => Some (Ast.LIdentifier t)
  | Node Rule.string _ chars => option_map Ast.LString (decode chars)
  | _ => None
  end.

(** Modelled from the spec: a row of a matrix is the sequence of its
    literals. *)
Fixpoint lower_row (literals : list Pair) : option (list Ast.Literal) :=
  match literals with
  | [] => Some []
  | p :: more =>
      match lower_literal p, lower_row more with
      | Some l, Some ls => Some (l :: ls)
      | _, _ => None
      end
  end.

(** Modelled from the spec: the rows of a matrix, one per [line] pair. *)
Fixpoint lower_rows (lines : list Pair) : option (list (list Ast.Literal)) :=
  match lines with
  | [] => Some []
  | Node Rule.line _ literals :: more =>
      match lower_row literals, lower_rows more with
      | Some r, Some rs => Some (r :: rs)
      | _, _ => None
      end
  | _ :: _ => None
  end.

(** Modelled from the spec: the operator that an operator pair denotes. *)
Definition lower_operator (r : Rule.t) : option Ast.Operator :=
  match r with
  | Rule.add => Some Ast.OpAdd
  | Rule.sub => Some Ast.OpSub
  | Rule.mul => Some Ast.OpMul
  | Rule.div => Some Ast.OpDiv
  | Rule.pow => Some Ast.OpPow
  | Rule.access => Some Ast.OpAccess
  | _ => None
  end.

(** Modelled from the spec: the expression that a pair denotes (sections 3
    and 4.3).  An [expr] pair with one operand is that operand, with two or
    three a [Range]; a [binary] pair with no operator is its atom (a
    [BinaryChain] has at least one operator), otherwise the chain of its
    operators and atoms in the order of the text; a [single_value] pair is
    the [Identifier] or [Literal] it holds. *)
Fixpoint lower_expr (p : Pair) : option Ast.Expression :=
  let lower_all :=
    fix all (l : list Pair) : option (list Ast.Expression) :=
      match l with
      | [] => Some []
      | x :: l' =>
          match lower_expr x, all l' with
          | Some e, Some es => Some (e :: es)
          | _, _ => None
          end
      end in
  let lower_ops :=
    fix ops (l : list Pair) : option (list (Ast.Operator * Ast.Expression)) :=
      match l with
      | [] => Some []
      | Node r _ _ :: x :: l' =>
          match lower_operator r, lower_expr x, ops l' with
          | Some o, Some e, Some more => Some ((o, e) :: more)
          | _, _, _ => None
          end
      | _ :: [] => None
      end in
  match p with
  | Node Rule.expr _ operands =>
      match lower_all operands with
      | Some [e] => Some e
      | Some [e1; e2] => Some (Ast.Range [e1; e2])
      | Some [e1; e2; e3] => Some (Ast.Range [e1; e2; e3])
      | _ => None
      end
  | Node Rule.binary _ (first :: more) =>
      match lower_expr first, lower_ops more with
      | Some e, Some [] => Some e
      | Some e, Some (o :: os) => Some (Ast.BinaryChain e (o :: os))
      | _, _ => None
      end
  | Node Rule.call _ (Node Rule.identifier f _ :: args) =>
      option_map (Ast.Call f) (lower_all args)
  | Node Rule.matrix _ lines => option_map Ast.Matrix (lower_rows lines)
  | Node Rule.single_value _ [l] =>
      match lower_literal l with
      | Some (Ast.LIdentifier x) => Some (Ast.EIdentifier x)
      | Some other => Some (Ast.ELiteral other)
      | None => None
      end
  | _ => None
  end.

(** Modelled from the spec: the statement that an [assignment] or [expr]
    pair denotes (section 4.4); [suppressed] tells whether a [;] ended it. *)
Definition lower_statement (suppressed : bool) (p : Pair) : option Ast.Statement :=
  match p with
  | Node Rule.assignment _ [Node Rule.identifier x _; e] =>
      option_map (Ast.Assignment x) (lower_expr e)
  | Node Rule.expr _ _ =>
      option_map (fun e => Ast.ExpressionStatement e suppressed) (lower_expr p)
  | _ => None
  end.

(** Modelled from the spec: the statements of a document, from the inner
    pairs of [toplevel]: a [statement_semi] pair is a statement ended by
    [;], and the [EOI] pair closes the sequence. *)
Fixpoint lower_statements (items : list Pair) : option Ast.Program :=
  match items with
  | [] => None
  | [Node Rule.EOI _ _] => Some []
  | p :: more =>
      let st :=
        match p with
        | Node Rule.statement_semi _ [q] => lower_statement true q
        | _ => lower_statement false p
        end in
      match st, lower_statements more with
      | Some s, Some ss => Some (s :: ss)
      | _, _ => None
      end
  end.

(** Modelled from the spec: the [Program] that a successful parse returns
    (section 6); [None] when the parse did not succeed. *)
Definition program_of (result : ParseResult) : option Ast.Program :=
  match result with
  | Ok [Node Rule.toplevel _ items] [] => lower_statements items
  | _ => None
  end.

(** ** Character classes and text shapes used in the statements *)

Definition is_whitespace (c : N) : bool :=
  (c =? 32) || (c =? 9) || (c =? 13) || (c =? 10).

Definition is_digit (c : N) : bool := in_range 48 57 c.

(** The identifiers [[A-Za-z_][A-Za-z0-9_]*]. *)
Definition is_identifier_start (c : N) : bool := ascii_alphabetic c || (c =? 95).
Definition is_identifier_char (c : N) : bool := is_identifier_start c || is_digit c.

Definition ascii_identifier (x : input) : bool :=
  match x with
  | c :: cs => is_identifier_start c && forallb is_identifier_char cs
  | [] => false
  end.

(** The number literals as section 4.1 of the specification words them: an
    optional [-], an integer part, an optional fraction, an optional
    exponent. *)
Definition spec_sign (t : input) : Prop := t = [] \/ t = codes "-".

Definition spec_integer_part (t : input) : Prop :=
  t = codes "0"
  \/ exists d ds, t = d :: ds /\ in_range 49 57 d = true /\ forallb is_digit ds = true.

Definition spec_fraction (t : input) : Prop :=
  t = [] \/ exists ds, t = codes "." ++ ds /\ forallb is_digit ds = true.

Definition spec_exponent (t : input) : Prop :=
  t = []
  \/ exists e sg ds,
       t = e :: sg ++ ds
       /\ (e = 101 \/ e = 69)
       /\ (sg = [] \/ sg = codes "+" \/ sg = codes "-")
       /\ ds <> [] /\ forallb is_digit ds = true.

Definition spec_number (t : input) : Prop :=
  exists sign int frac exp,
    t = sign ++ int ++ frac ++ exp
    /\ spec_sign sign /\ spec_integer_part int
    /\ spec_fraction frac /\ spec_exponent exp.

(** A character after which a number literal cannot go on. *)
Definition ends_number (rest : input) : Prop :=
  match rest with
  | [] => True
  | c :: _ => is_digit c = false /\ c <> 46 /\ c <> 101 /\ c <> 69
  end.

(** The characters that the rule [identifier] takes first and after the
    first. *)
Definition identifier_head (c : N) : bool := alphabetic c || (95 =? c).
Definition identifier_tail (c : N) : bool :=
  alphabetic c || (is_digit c || (95 =? c)).

(** The first character of the remaining input, if any, fails the test
    [f]. *)
Definition stops (f : N -> bool) (rest : input) : Prop :=
  match rest with
  | [] => True
  | c :: _ => f c = false
  end.

(** The first character of the remaining input is none of [cs]. *)
Definition not_next (cs : list N) (rest : input) : Prop :=
  match rest with
  | [] => True
  | c :: _ => ~ In c cs
  end.

(** *** Shapes of pairs *)

Definition is_literal_pair (p : Pair) : bool :=
  match p with
  | Node Rule.string _ _ | Node Rule.number _ _ | Node Rule.identifier _ _ => true
  | _ => false
  end.

Definition is_operator_pair (p : Pair) : bool :=
  match p with
  | Node r _ [] => match lower_operator r with Some _ => true | None => false end
  | _ => false
  end.

Definition is_atom_pair (p : Pair) : bool :=
  match p with
  | Node Rule.call _ _ | Node Rule.matrix _ _ | Node Rule.single_value _ _ => true
  | _ => false
  end.

(** Operator and atom pairs in alternation. *)
Fixpoint chain_tail (l : list Pair) : bool :=
  match l with
  | [] => true
  | o :: a :: l' => is_operator_pair o && is_atom_pair a && chain_tail l'
  | _ :: [] => false
  end.

(** A [binary] pair whose inner pairs are one atom and then operators and
    atoms in alternation: no inner pair groups a part of the chain. *)
Definition flat_chain (p : Pair) : bool :=
  match p with
  | Node Rule.binary _ (first :: more) => is_atom_pair first && chain_tail more
  | _ => false
  end.

(** An operand of a range: a flat chain, or an atom. *)
Definition is_operand_pair (p : Pair) : bool := flat_chain p || is_atom_pair p.

(** *** Three numbers joined by [+] and then [*] *)

Definition three_numbers_text (n1 n2 n3 : input) : input :=
  n1 ++ codes "+" ++ n2 ++ codes "*" ++ n3.

Definition three_numbers_chain (n1 n2 n3 : input) : Pair :=
  Node Rule.binary (three_numbers_text n1 n2 n3)
    [Node Rule.single_value n1 [Node Rule.number n1 []];
     Node Rule.add (codes "+") [];
     Node Rule.single_value n2 [Node Rule.number n2 []];
     Node Rule.mul (codes "*") [];
     Node Rule.single_value n3 [Node Rule.number n3 []]].

(** The number [t] as an expression of the syntax tree. *)
Definition number_expression (t : input) : Ast.Expression :=
  Ast.ELiteral (Ast.LNumber t).

(** The chain of three numbers in the order of the text. *)
Definition three_numbers_expression (n1 n2 n3 : input) : Ast.Expression :=
  Ast.BinaryChain (number_expression n1)
    [(Ast.OpAdd, number_expression n2); (Ast.OpMul, number_expression n3)].

(** The same three numbers grouped by the usual precedence of [*] over
    [+]. *)
Definition three_numbers_by_precedence (n1 n2 n3 : input) : Ast.Expression :=
  Ast.BinaryChain (number_expression n1)
    [(Ast.OpAdd,
      Ast.BinaryChain (number_expression n2) [(Ast.OpMul, number_expression n3)])].

(** *** Rows of a matrix *)

(** The two separators of a row: a comma with optional whitespace around
    it, or whitespace alone. *)
Inductive Separator :=
| Comma (before after : input)
| Blank (spaces : input).

Definition separator_text (sep : Separator) : input :=
  match sep with
  | Comma before after => before ++ codes "," ++ after
  | Blank spaces => spaces
  end.

Definition separator_ok (sep : Separator) : bool :=
  match sep with
  | Comma before after => forallb is_whitespace before && forallb is_whitespace after
  | Blank spaces =>
      match spaces with [] => false | _ :: _ => forallb is_whitespace spaces end
  end.

(** A literal of a row: its text and the pair that stands for it. *)
Definition RowLiteral : Type := (input * Pair)%type.

(** The text of a row: a first literal, then separators and literals. *)
Fixpoint row_text (first : RowLiteral) (more : list (Separator * RowLiteral)) : input :=
  match more with
  | [] => fst first
  | (sep, l) :: more' => fst first ++ separator_text sep ++ row_text l more'
  end.

(** The pairs of the literals of a row, in order. *)
Definition row_pairs (first : RowLiteral) (more : list (Separator * RowLiteral))
  : list Pair :=
  snd first :: map (fun item => snd (snd item)) more.

(** What may follow a row inside a matrix: [;], [[]] or the end. *)
Definition ends_row (rest : input) : Prop :=
  match rest with
  | [] => True
  | c :: _ => c = 59 \/ c = 93
  end.

(** What may follow a literal of a row. *)
Definition follows_literal (rest : input) : Prop :=
  match rest with
  | [] => True
  | c :: _ => is_whitespace c = true \/ c = 44 \/ c = 59 \/ c = 93
  end.

(** The rule [literal] reads the text of [l] as the pair of [l] wherever
    the text stands in a row. *)
Definition delimited (l : RowLiteral) : Prop :=
  forall rest,
    follows_literal rest -> literal CompoundAtomic (fst l ++ rest) = Ok [snd l] rest.

(** A row of literals that the grammar reads, with well-formed
    separators. *)
Definition row_ok (first : RowLiteral) (more : list (Separator * RowLiteral)) : Prop :=
  delimited first
  /\ Forall (fun item => separator_ok (fst item) = true /\ delimited (snd item)) more.

(** *** Comments *)

(** The characters [%] and [#] that start a comment in Octave (the
    characters of the grammar's disabled [COMMENT] rule). *)
Definition is_comment_start (c : N) : bool := (c =? 37) || (c =? 35).

(** A character that neither starts a comment, nor opens a string, nor
    escapes a character of a string. *)
Definition is_plain (c : N) : bool :=
  negb (is_comment_start c) && negb (c =? 34) && negb (c =? 39) && negb (c =? 92).

(** Whether a [%] or [#] occurs outside the string literals of the text,
    reading from the left: where the rule [string] matches, the literal is
    stepped over as a whole.  [n] bounds the number of steps. *)
Fixpoint comment_scan (n : nat) (s : input) : bool :=
  match n with
  | O => false
  | S n' =>
      match s with
      | [] => false
      | c :: s' =>
          match string CompoundAtomic s with
          | Ok _ rest => comment_scan n' rest
          | _ => is_comment_start c || comment_scan n' s'
          end
      end
  end.

Definition comment_outside_string (s : input) : bool :=
  comment_scan (length s) s.

(** ** Properties of parsers *)

(** A relation between the input of a parser and what it leaves that holds
    of doing nothing and of doing one thing after another. *)
Record Invariant := {
  holds :> input -> input -> Prop;
  holds_refl : forall s, holds s s;
  holds_trans : forall s r t, holds s r -> holds r t -> holds s t
}.

Definition Respects (I : Invariant) (p : parser) : Prop :=
  forall a s o r, p a s = Ok o r -> I s r.

(** A parser never leaves more than it was given. *)
Definition shrinking : Invariant := {|
  holds := fun s r => (length r <= length s)%nat;
  holds_refl := fun s => Nat.le_refl (length s);
  holds_trans := fun s r t H1 H2 => Nat.le_trans _ _ _ H2 H1
|}.

(** A text that starts with a single quote or a backslash. *)
Definition quote_first (s : input) : Prop :=
  match s with
  | [] => False
  | c :: _ => c = 39 \/ c = 92
  end.

(** A parser leaves a single quote or a backslash first where it found
    one. *)
Definition quote_stuck : Invariant := {|
  holds := fun s r => quote_first s -> quote_first r;
  holds_refl := fun s H => H;
  holds_trans := fun s r t H1 H2 H => H2 (H1 H)
|}.

(** A parser does not change whether a comment character is outside the
    string literals of what remains. *)
Definition comment_preserving : Invariant := {|
  holds := fun s r => comment_outside_string s = comment_outside_string r;
  holds_refl := fun s => eq_refl;
  holds_trans := fun s r t H1 H2 => eq_trans H1 H2
|}.

(** A successful parser consumes at least one character. *)
Definition Progress (p : parser) : Prop :=
  forall a s o r, p a s = Ok o r -> (length r < length s)%nat.

(** A parser terminates on every input shorter than [n]. *)
Definition Total (n : nat) (p : parser) : Prop :=
  forall a s, (length s < n)%nat -> p a s <> Diverge.

(** A table of [Alphabetic] with no letter above ASCII, for examples over
    ASCII text. *)
Definition ascii_only : N -> bool := fun _ => false.


(** ** Further properties of parsers *)

(** [q] behaves as [p] wherever [p] terminates. *)
Definition Refines (p q : parser) : Prop :=
  forall a s, p a s <> Diverge -> q a s = p a s.


(** *** Shapes of the pairs of a document *)

Definition is_expr_pair (p : Pair) : bool :=
  match p with
  | Node Rule.expr _ _ => true
  | _ => false
  end.

(** An [expr] pair, or an [assignment] pair of an identifier and an [expr]
    pair. *)
Definition is_statement_pair (p : Pair) : bool :=
  match p with
  | Node Rule.expr _ _ => true
  | Node Rule.assignment _ [Node Rule.identifier _ []; q] => is_expr_pair q
  | _ => false
  end.

(** A statement pair, alone or as the one inner pair of a [statement_semi]
    pair. *)
Definition is_item_pair (p : Pair) : bool :=
  match p with
  | Node Rule.statement_semi _ [q] => is_statement_pair q
  | _ => is_statement_pair p
  end.

(** *** Texts of identifiers and of the characters of a string *)

(** The texts that the rule [identifier] matches. *)
Definition grammar_identifier (x : input) : bool :=
  match x with
  | c :: cs => identifier_head c && forallb identifier_tail cs
  | [] => false
  end.

(** The characters after a backslash in the second alternative of
    [char_double]: the double quote, the backslash and [/ b f n r t]. *)
Definition is_simple_escape (c : N) : bool :=
  (34 =? c) || ((92 =? c) || ((47 =? c) || ((98 =? c) || ((102 =? c)
  || ((110 =? c) || ((114 =? c) || (116 =? c))))))).

Definition is_hex_digit (c : N) : bool :=
  in_range 48 57 c || (in_range 97 102 c || in_range 65 70 c).

(** The three forms of the text of a [char_double] pair. *)
Definition char_double_text (t : input) : bool :=
  match t with
  | [c] => negb (c =? 34) && negb (c =? 92)
  | [b; e] => (b =? 92) && is_simple_escape e
  | [b; u; h1; h2; h3; h4] =>
      (b =? 92) && (u =? 117)
      && is_hex_digit h1 && is_hex_digit h2 && is_hex_digit h3 && is_hex_digit h4
  | _ => false
  end.

(** A character written inside double quotes: the double quote and the
    backslash after a backslash, any other character as it is. *)
Definition escape_char (c : N) : input :=
  if (c =? 34) || (c =? 92) then [92; c] else [c].

Definition escaped (body : input) : input := flat_map escape_char body.

Definition char_double_pairs (body : input) : list Pair :=
  map (fun c => Node Rule.char_double (escape_char c) []) body.


(** *** Chains of numbers of any length *)

(** The rule of the pair of an operator character. *)
Definition operator_rule (k : N) : option Rule.t :=
  if k =? 43 then Some Rule.add
  else if k =? 45 then Some Rule.sub
  else if k =? 42 then Some Rule.mul
  else if k =? 47 then Some Rule.div
  else if k =? 94 then Some Rule.pow
  else if k =? 46 then Some Rule.access
  else None.

Definition is_operator (k : N) : bool :=
  match operator_rule k with Some _ => true | None => false end.

(** One more operand of a chain: whitespace, an operator character,
    whitespace and a number. *)
Record Link := {
  link_before : input;
  link_operator : N;
  link_after : input;
  link_number : input
}.

Definition link_text (l : Link) : input :=
  link_before l ++ [link_operator l] ++ link_after l ++ link_number l.

(** A [.] directly after a number is the point of that number, so the
    operator [.] needs whitespace before it. *)
Definition link_ok (l : Link) : Prop :=
  forallb is_whitespace (link_before l) = true
  /\ forallb is_whitespace (link_after l) = true
  /\ is_operator (link_operator l) = true
  /\ (link_operator l = 46 -> link_before l <> [])
  /\ spec_number (link_number l).

Definition number_value (t : input) : Pair :=
  Node Rule.single_value t [Node Rule.number t []].

Definition link_pairs (l : Link) : list Pair :=
  match operator_rule (link_operator l) with
  | Some R => [Node R [link_operator l] []; number_value (link_number l)]
  | None => []
  end.

Definition chain_text (first : input) (links : list Link) : input :=
  first ++ flat_map link_text links.

(** The [binary] pair of a chain: the pairs of its numbers and operators in
    the order of the text. *)
Definition chain_pair (first : input) (links : list Link) : Pair :=
  Node Rule.binary (chain_text first links)
    (number_value first :: flat_map link_pairs links).

(** What may follow a chain: the end of the text, or a character that is
    neither whitespace, nor an operator, nor a part of a number. *)
Definition ends_chain (rest : input) : Prop :=
  stops is_whitespace rest /\ stops is_operator rest /\ ends_number rest.


(** *** Nested calls *)

(** The number [t] inside [n] calls of [f], each with one argument. *)
Fixpoint nested_text (f t : input) (n : nat) : input :=
  match n with
  | O => t
  | S n' => f ++ codes "(" ++ nested_text f t n' ++ codes ")"
  end.

Definition expr_of (t : input) (p : Pair) : Pair :=
  Node Rule.expr t [Node Rule.binary t [p]].

Fixpoint nested_pair (f t : input) (n : nat) : Pair :=
  match n with
  | O => expr_of t (number_value t)
  | S n' =>
      expr_of (nested_text f t n)
        (Node Rule.call (nested_text f t n)
           [Node Rule.identifier f []; nested_pair f t n'])
  end.

(** What may follow an argument of a call: the end of the text, a comma or
    the closing parenthesis. *)
Definition ends_argument (rest : input) : Prop :=
  match rest with
  | [] => True
  | c :: _ => c = 44 \/ c = 41
  end.

(** * Properties *)

(** ** Running the operations of the parser state *)

Ltac compute_codes :=
  repeat match goal with
  | |- context [codes ?s] =>
      let v := eval vm_compute in (codes s) in change (codes s) with v
  | H : context [codes ?s] |- _ =>
      let v := eval vm_compute in (codes s) in change (codes s) with v in H
  end.

Ltac bool_arith :=
  repeat match goal with
  | |- context [N.eqb ?a ?b] => destruct (N.eqb_spec a b)
  | |- context [N.leb ?a ?b] => destruct (N.leb_spec a b)
  | |- context [N.ltb ?a ?b] => destruct (N.ltb_spec a b)
  end; simpl; intros; try reflexivity; try discriminate; try lia.

Lemma consumed_app (x rest : input) : consumed (x ++ rest) rest = x.
Proof.
  unfold consumed. rewrite length_app.
  replace (length x + length rest - length rest)%nat with (length x) by lia.
  rewrite firstn_app, Nat.sub_diag, firstn_all. simpl. apply app_nil_r.
Qed.

Lemma consumed_all (s : input) : consumed s [] = s.
Proof.
  rewrite <- (app_nil_r s) at 1. apply consumed_app.
Qed.

Lemma strip_prefix_inv (p s r : input) :
  strip_prefix p s = Some r -> s = p ++ r.
Proof.
  revert s. induction p as [|c p IH]; intros [|d s]; simpl; try discriminate.
  - now intros [= <-].
  - now intros [= <-].
  - destruct (N.eqb_spec c d); [|discriminate].
    intros H. apply IH in H. now subst.
Qed.

Lemma strip_prefix_app (p r : input) : strip_prefix p (p ++ r) = Some r.
Proof.
  induction p as [|c p IH]; simpl; [now destruct r|].
  now rewrite N.eqb_refl.
Qed.

Lemma match_string_inv str a s o r :
  match_string str a s = Ok o r -> s = str ++ r /\ o = [].
Proof.
  unfold match_string. destruct (strip_prefix str s) eqn:E; [|discriminate].
  intros [= <- <-]. split; [now apply strip_prefix_inv|reflexivity].
Qed.

Lemma lit_inv str a s o r : lit str a s = Ok o r -> s = codes str ++ r /\ o = [].
Proof.
  exact (match_string_inv (codes str) a s o r).
Qed.

Lemma match_string_app str a r : match_string str a (str ++ r) = Ok [] r.
Proof.
  unfold match_string. now rewrite strip_prefix_app.
Qed.

Lemma match_string_char k a s :
  match_string [k] a s = match_char_by (N.eqb k) a s.
Proof.
  unfold match_string, match_char_by. destruct s as [|c s]; simpl; [reflexivity|].
  now destruct (k =? c).
Qed.

Lemma match_string_not_next k a s :
  not_next [k] s -> match_string [k] a s = Err.
Proof.
  rewrite match_string_char. destruct s as [|c s]; simpl; [reflexivity|].
  intros H. destruct (N.eqb_spec k c); [|reflexivity].
  exfalso. apply H. now left.
Qed.

Lemma match_char_by_inv f a s o r :
  match_char_by f a s = Ok o r -> exists c, s = c :: r /\ f c = true /\ o = [].
Proof.
  unfold match_char_by. destruct s as [|c s]; [discriminate|].
  destruct (f c) eqn:E; [|discriminate]. intros [= <- <-]. eauto.
Qed.

Lemma and_then_inv (p q : parser) a s o r :
  (p ~> q) a s = Ok o r ->
  exists o1 r1 o2, p a s = Ok o1 r1 /\ q a r1 = Ok o2 r /\ o = o1 ++ o2.
Proof.
  unfold and_then. destruct (p a s) as [o1 r1| |]; try discriminate.
  destruct (q a r1) as [o2 r2| |] eqn:E2; try discriminate.
  intros [= <- <-]. exists o1, r1, o2. auto.
Qed.

Lemma and_then_ok (p q : parser) a s o1 r1 o2 r2 :
  p a s = Ok o1 r1 -> q a r1 = Ok o2 r2 -> (p ~> q) a s = Ok (o1 ++ o2) r2.
Proof.
  unfold and_then. now intros -> ->.
Qed.

Lemma and_then_err_l (p q : parser) a s : p a s = Err -> (p ~> q) a s = Err.
Proof.
  unfold and_then. now intros ->.
Qed.

Lemma and_then_err_r (p q : parser) a s o1 r1 :
  p a s = Ok o1 r1 -> q a r1 = Err -> (p ~> q) a s = Err.
Proof.
  unfold and_then. now intros -> ->.
Qed.

Lemma or_else_inv (p q : parser) a s o r :
  (p <|> q) a s = Ok o r -> p a s = Ok o r \/ (p a s = Err /\ q a s = Ok o r).
Proof.
  unfold or_else. destruct (p a s); try discriminate; auto.
Qed.

Lemma or_else_l (p q : parser) a s o r :
  p a s = Ok o r -> (p <|> q) a s = Ok o r.
Proof.
  unfold or_else. now intros ->.
Qed.

Lemma or_else_r (p q : parser) a s : p a s = Err -> (p <|> q) a s = q a s.
Proof.
  unfold or_else. now intros ->.
Qed.

Lemma optional_inv (p : parser) a s o r :
  optional p a s = Ok o r -> p a s = Ok o r \/ (p a s = Err /\ o = [] /\ r = s).
Proof.
  unfold optional. destruct (p a s); try discriminate; auto.
  intros [= <- <-]. auto.
Qed.

Lemma optional_ok (p : parser) a s o r : p a s = Ok o r -> optional p a s = Ok o r.
Proof.
  unfold optional. now intros ->.
Qed.

Lemma optional_err (p : parser) a s : p a s = Err -> optional p a s = Ok [] s.
Proof.
  unfold optional. now intros ->.
Qed.

Lemma lookahead_not_inv (p : parser) a s o r :
  lookahead_not p a s = Ok o r -> p a s = Err /\ o = [] /\ r = s.
Proof.
  unfold lookahead_not. destruct (p a s); try discriminate.
  intros [= <- <-]. auto.
Qed.

Lemma rule_inv R (p : parser) a s o r :
  rule R p a s = Ok o r ->
  exists inner, p a s = Ok inner r
    /\ o = match a with Atomic => inner | _ => [Node R (consumed s r) inner] end.
Proof.
  unfold rule. destruct (p a s) as [inner rest| |]; try discriminate.
  destruct a; intros [= <- <-]; eauto.
Qed.

Lemma rule_ok R (p : parser) a x rest inner :
  a <> Atomic -> p a (x ++ rest) = Ok inner rest ->
  rule R p a (x ++ rest) = Ok [Node R x inner] rest.
Proof.
  unfold rule. intros Ha ->. rewrite consumed_app. now destruct a.
Qed.

Lemma rule_err R (p : parser) a s : p a s = Err -> rule R p a s = Err.
Proof.
  unfold rule. now intros ->.
Qed.

(** *** Repetition *)

Lemma repeat_loop_mono (p : parser) a n m s o r :
  (n <= m)%nat -> repeat_loop p n a s = Ok o r -> repeat_loop p m a s = Ok o r.
Proof.
  revert m s o r. induction n as [|n IH]; intros m s o r Hle; simpl.
  - destruct (p a s) eqn:E; try discriminate.
    intros [= <- <-]. destruct m; simpl; now rewrite E.
  - destruct (p a s) as [o1 r1| |] eqn:E; try discriminate.
    + destruct (repeat_loop p n a r1) as [o2 r2| |] eqn:E2; try discriminate.
      intros [= <- <-]. destruct m as [|m]; [lia|]. simpl. rewrite E.
      now rewrite (IH m r1 o2 r2) by (lia || assumption).
    + intros [= <- <-]. destruct m; simpl; now rewrite E.
Qed.

Lemma repeat_loop_inv (p : parser) a (P : input -> list Pair -> input -> Prop) :
  (forall s, p a s = Err -> P s [] s) ->
  (forall s o1 r1 o2 r2, p a s = Ok o1 r1 -> P r1 o2 r2 -> P s (o1 ++ o2) r2) ->
  forall n s o r, repeat_loop p n a s = Ok o r -> P s o r.
Proof.
  intros Hstop Hstep. induction n as [|n IH]; intros s o r; simpl.
  - destruct (p a s) eqn:E; try discriminate. intros [= <- <-]. auto.
  - destruct (p a s) as [o1 r1| |] eqn:E; try discriminate.
    + destruct (repeat_loop p n a r1) as [o2 r2| |] eqn:E2; try discriminate.
      intros [= <- <-]. eauto.
    + intros [= <- <-]. auto.
Qed.

Lemma repeat_inv (p : parser) a (P : input -> list Pair -> input -> Prop) :
  (forall s, p a s = Err -> P s [] s) ->
  (forall s o1 r1 o2 r2, p a s = Ok o1 r1 -> P r1 o2 r2 -> P s (o1 ++ o2) r2) ->
  forall s o r, repeat p a s = Ok o r -> P s o r.
Proof.
  intros Hstop Hstep s o r. unfold repeat. now apply repeat_loop_inv.
Qed.

Lemma repeat_stop (p : parser) a s : p a s = Err -> repeat p a s = Ok [] s.
Proof.
  unfold repeat. intros E. destruct (length s); simpl; now rewrite E.
Qed.

Lemma repeat_step (p : parser) a s o1 r1 o2 r2 :
  p a s = Ok o1 r1 -> (length r1 < length s)%nat ->
  repeat p a r1 = Ok o2 r2 -> repeat p a s = Ok (o1 ++ o2) r2.
Proof.
  unfold repeat. intros E Hlt E2.
  destruct (length s) as [|n] eqn:El; [lia|]. simpl. rewrite E.
  assert (Hle : (length r1 <= n)%nat) by lia.
  now rewrite (repeat_loop_mono p a _ _ _ _ _ Hle E2).
Qed.

(** Repeating a test of one character consumes the longest prefix of
    characters that pass it. *)
Lemma repeat_class (p : parser) (f : N -> bool) a cs rest :
  (forall s, p a s = match_char_by f a s) ->
  forallb f cs = true ->
  match rest with [] => True | c :: _ => f c = false end ->
  repeat p a (cs ++ rest) = Ok [] rest.
Proof.
  intros Hp. induction cs as [|c cs IH]; simpl; intros Hall Hrest.
  - apply repeat_stop. rewrite Hp. destruct rest as [|c r]; simpl; [reflexivity|].
    now rewrite Hrest.
  - apply andb_prop in Hall as [Hc Hall].
    change (@nil Pair) with (@nil Pair ++ []).
    apply repeat_step with (r1 := cs ++ rest); [|simpl; lia|auto].
    rewrite Hp. simpl. now rewrite Hc.
Qed.

Lemma repeat_class_inv (p : parser) (f : N -> bool) a s o r :
  (forall s, p a s = match_char_by f a s) ->
  repeat p a s = Ok o r ->
  exists cs, s = cs ++ r /\ forallb f cs = true /\ o = []
    /\ match r with [] => True | c :: _ => f c = false end.
Proof.
  intros Hp. revert s o r. apply repeat_inv.
  - intros s E. exists []. repeat split; auto. rewrite Hp in E.
    destruct s as [|c s]; [exact I|]. simpl in E. now destruct (f c).
  - intros s o1 r1 o2 r2 E (cs & -> & Hall & -> & Hr).
    rewrite Hp in E. apply match_char_by_inv in E as (c & -> & Hc & ->).
    exists (c :: cs). simpl. rewrite Hc, Hall. auto.
Qed.

(** ** Invariants of the operations *)

Create HintDb peg discriminated.

Section Respecting.

Variable I : Invariant.

Lemma respects_and_then (p q : parser) :
  Respects I p -> Respects I q -> Respects I (p ~> q).
Proof.
  intros Hp Hq a s o r H.
  apply and_then_inv in H as (o1 & r1 & o2 & H1 & H2 & _).
  eapply holds_trans; eauto.
Qed.

Lemma respects_or_else (p q : parser) :
  Respects I p -> Respects I q -> Respects I (p <|> q).
Proof.
  intros Hp Hq a s o r H. apply or_else_inv in H as [H|[_ H]]; eauto.
Qed.

Lemma respects_optional (p : parser) : Respects I p -> Respects I (optional p).
Proof.
  intros Hp a s o r H. apply optional_inv in H as [H|(_ & _ & ->)]; eauto.
  apply holds_refl.
Qed.

Lemma respects_repeat (p : parser) : Respects I p -> Respects I (repeat p).
Proof.
  intros Hp a s o r H. revert s o r H.
  apply (repeat_inv p a (fun s _ r => I s r)).
  - intros s _. apply holds_refl.
  - intros s o1 r1 o2 r2 H1 H2. eapply holds_trans; eauto.
Qed.

Lemma respects_lookahead_not (p : parser) : Respects I (lookahead_not p).
Proof.
  intros a s o r H. apply lookahead_not_inv in H as (_ & _ & ->). apply holds_refl.
Qed.

Lemma respects_rule R (p : parser) : Respects I p -> Respects I (rule R p).
Proof.
  intros Hp a s o r H. apply rule_inv in H as (inner & H & _). eauto.
Qed.

Lemma respects_atomic a0 (p : parser) : Respects I p -> Respects I (atomic a0 p).
Proof.
  intros Hp a s o r H. unfold atomic in H. eauto.
Qed.

Lemma respects_diverge : Respects I diverge.
Proof.
  intros a s o r H. discriminate.
Qed.

Lemma respects_SOI : Respects I SOI.
Proof.
  intros a s o r [= <- <-]. apply holds_refl.
Qed.

Lemma respects_end_of_input : Respects I end_of_input.
Proof.
  intros a [|c s] o r; simpl; [|discriminate]. intros [= <- <-]. apply holds_refl.
Qed.

Lemma respects_skip : Respects I WHITESPACE -> Respects I skip.
Proof.
  intros Hw a s o r H. unfold skip in H. destruct a.
  - injection H as <- <-. apply holds_refl.
  - injection H as <- <-. apply holds_refl.
  - revert H. now apply respects_repeat.
Qed.

Lemma respects_seq_ws (p q : parser) :
  Respects I WHITESPACE -> Respects I p -> Respects I q -> Respects I (p ~~ q).
Proof.
  intros Hw Hp Hq. unfold seq_ws.
  auto using respects_and_then, respects_skip.
Qed.

Lemma respects_rep (p : parser) :
  Respects I WHITESPACE -> Respects I p -> Respects I (rep p).
Proof.
  intros Hw Hp. unfold rep.
  apply respects_optional, respects_and_then; [assumption|].
  apply respects_repeat, respects_and_then; [|assumption].
  now apply respects_skip.
Qed.

End Respecting.

#[local] Hint Resolve respects_and_then respects_or_else respects_optional
  respects_repeat respects_lookahead_not respects_rule respects_atomic
  respects_diverge respects_SOI respects_end_of_input respects_skip
  respects_seq_ws respects_rep : peg.

(** *** Parsers never give text back *)

Lemma strip_prefix_insensitive_length (p s r : input) :
  strip_prefix_insensitive p s = Some r -> (length s = length p + length r)%nat.
Proof.
  revert s. induction p as [|c p IH]; intros [|d s]; simpl; try discriminate.
  - now intros [= <-].
  - now intros [= <-].
  - destruct (ascii_lowercase c =? ascii_lowercase d); [|discriminate].
    intros H. apply IH in H. lia.
Qed.

Lemma shrinks_match_string str : Respects shrinking (match_string str).
Proof.
  intros a s o r H. apply match_string_inv in H as [-> _]. simpl.
  rewrite length_app. lia.
Qed.

Lemma shrinks_lit str : Respects shrinking (lit str).
Proof.
  apply shrinks_match_string.
Qed.

Lemma shrinks_match_insensitive str : Respects shrinking (match_insensitive str).
Proof.
  intros a s o r H. unfold match_insensitive in H.
  destruct (strip_prefix_insensitive str s) eqn:E; [|discriminate].
  injection H as <- <-. apply strip_prefix_insensitive_length in E. simpl. lia.
Qed.

Lemma shrinks_match_char_by f : Respects shrinking (match_char_by f).
Proof.
  intros a s o r H. apply match_char_by_inv in H as (c & -> & _). simpl. lia.
Qed.

Lemma shrinks_match_range lo hi : Respects shrinking (match_range lo hi).
Proof.
  apply shrinks_match_char_by.
Qed.

#[local] Hint Resolve shrinks_match_string shrinks_lit shrinks_match_insensitive
  shrinks_match_char_by shrinks_match_range : peg.

(** *** Progress *)

Lemma progress_match_char_by f : Progress (match_char_by f).
Proof.
  intros a s o r H. apply match_char_by_inv in H as (c & -> & _). simpl. lia.
Qed.

Lemma progress_match_range lo hi : Progress (match_range lo hi).
Proof.
  apply progress_match_char_by.
Qed.

Lemma progress_match_string c str : Progress (match_string (c :: str)).
Proof.
  intros a s o r H. apply match_string_inv in H as [-> _]. simpl.
  rewrite length_app. lia.
Qed.

Lemma progress_lit c str : Progress (lit (String c str)).
Proof.
  unfold lit, codes. simpl. apply progress_match_string.
Qed.

Lemma progress_and_then_l (p q : parser) :
  Progress p -> Respects shrinking q -> Progress (p ~> q).
Proof.
  intros Hp Hq a s o r H.
  apply and_then_inv in H as (o1 & r1 & o2 & H1 & H2 & _).
  apply Hp in H1. apply Hq in H2. simpl in H2. lia.
Qed.

Lemma progress_and_then_r (p q : parser) :
  Respects shrinking p -> Progress q -> Progress (p ~> q).
Proof.
  intros Hp Hq a s o r H.
  apply and_then_inv in H as (o1 & r1 & o2 & H1 & H2 & _).
  apply Hp in H1. apply Hq in H2. simpl in H1. lia.
Qed.

Lemma progress_or_else (p q : parser) :
  Progress p -> Progress q -> Progress (p <|> q).
Proof.
  intros Hp Hq a s o r H. apply or_else_inv in H as [H|[_ H]]; eauto.
Qed.

Lemma progress_rule R (p : parser) : Progress p -> Progress (rule R p).
Proof.
  intros Hp a s o r H. apply rule_inv in H as (inner & H & _). eauto.
Qed.

Lemma progress_atomic a0 (p : parser) : Progress p -> Progress (atomic a0 p).
Proof.
  intros Hp a s o r H. unfold atomic in H. eauto.
Qed.

Lemma progress_diverge : Progress diverge.
Proof.
  intros a s o r H. discriminate.
Qed.

(** *** Termination *)

Lemma total_run n (p : parser) a s :
  Total n p -> (length s < n)%nat -> p a s <> Diverge.
Proof.
  intros Hp. apply Hp.
Qed.

Lemma total_and_then n (p q : parser) :
  Total n p -> Respects shrinking p -> Total n q -> Total n (p ~> q).
Proof.
  intros Hp Hs Hq a s Hlen. unfold and_then.
  destruct (p a s) as [o1 r1| |] eqn:E1; [|discriminate|now apply Hp in E1].
  apply Hs in E1. simpl in E1.
  destruct (q a r1) eqn:E2; try discriminate.
  apply Hq in E2; [contradiction|lia].
Qed.

(** After a parser that consumes something, the next one runs on a shorter
    input. *)
Lemma total_and_then_less n (p q : parser) :
  Total (S n) p -> Progress p -> Total n q -> Total (S n) (p ~> q).
Proof.
  intros Hp Hs Hq a s Hlen. unfold and_then.
  destruct (p a s) as [o1 r1| |] eqn:E1; [|discriminate|now apply Hp in E1].
  apply Hs in E1.
  destruct (q a r1) eqn:E2; try discriminate.
  apply Hq in E2; [contradiction|lia].
Qed.

Lemma total_or_else n (p q : parser) : Total n p -> Total n q -> Total n (p <|> q).
Proof.
  intros Hp Hq a s Hlen. unfold or_else.
  destruct (p a s) eqn:E1; [discriminate|now apply Hq|now apply Hp in E1].
Qed.

Lemma total_optional n (p : parser) : Total n p -> Total n (optional p).
Proof.
  intros Hp a s Hlen. unfold optional.
  destruct (p a s) eqn:E1; [discriminate|discriminate|now apply Hp in E1].
Qed.

Lemma total_lookahead_not n (p : parser) : Total n p -> Total n (lookahead_not p).
Proof.
  intros Hp a s Hlen. unfold lookahead_not.
  destruct (p a s) eqn:E1; [discriminate|discriminate|now apply Hp in E1].
Qed.

Lemma total_rule n R (p : parser) : Total n p -> Total n (rule R p).
Proof.
  intros Hp a s Hlen. unfold rule.
  destruct (p a s) eqn:E1; [now destruct a|discriminate|now apply Hp in E1].
Qed.

Lemma total_atomic n a0 (p : parser) : Total n p -> Total n (atomic a0 p).
Proof.
  intros Hp a s Hlen. unfold atomic. now apply Hp.
Qed.

Lemma total_repeat n (p : parser) : Total n p -> Progress p -> Total n (repeat p).
Proof.
  intros Hp Hs a s Hlen. unfold repeat.
  assert (H : forall m s, (length s <= m)%nat -> (length s < n)%nat ->
                     repeat_loop p m a s <> Diverge).
  { induction m as [|m IH]; intros s' Hm Hn; simpl.
    - destruct (p a s') as [o1 r1| |] eqn:E1; [|discriminate|now apply Hp in E1].
      apply Hs in E1. lia.
    - destruct (p a s') as [o1 r1| |] eqn:E1; [|discriminate|now apply Hp in E1].
      apply Hs in E1.
      destruct (repeat_loop p m a r1) eqn:E2; try discriminate.
      apply IH in E2; [contradiction|lia|lia]. }
  now apply H.
Qed.

Lemma total_match_string n str : Total n (match_string str).
Proof.
  intros a s _. unfold match_string. now destruct (strip_prefix str s).
Qed.

Lemma total_lit n str : Total n (lit str).
Proof.
  apply total_match_string.
Qed.

Lemma total_match_insensitive n str : Total n (match_insensitive str).
Proof.
  intros a s _. unfold match_insensitive.
  now destruct (strip_prefix_insensitive str s).
Qed.

Lemma total_match_char_by n f : Total n (match_char_by f).
Proof.
  intros a [|c s] _; simpl; [discriminate|]. now destruct (f c).
Qed.

Lemma total_match_range n lo hi : Total n (match_range lo hi).
Proof.
  apply total_match_char_by.
Qed.

Lemma total_SOI n : Total n SOI.
Proof.
  intros a s _. discriminate.
Qed.

Lemma total_end_of_input n : Total n end_of_input.
Proof.
  intros a [|c s] _; discriminate.
Qed.

#[local] Hint Resolve progress_match_char_by progress_match_range
  progress_match_string progress_lit progress_or_else progress_rule progress_atomic
  progress_diverge
  total_or_else total_optional total_lookahead_not total_rule total_atomic
  total_repeat total_match_string total_lit total_match_insensitive
  total_match_char_by total_match_range total_SOI total_end_of_input : peg.
#[local] Hint Resolve progress_and_then_l | 1 : peg.
#[local] Hint Resolve progress_and_then_r | 2 : peg.
#[local] Hint Resolve total_and_then | 1 : peg.
#[local] Hint Resolve total_and_then_less | 2 : peg.

(** *** The rules never give text back, and terminate *)

Lemma WHITESPACE_char a s : WHITESPACE a s = match_char_by is_whitespace a s.
Proof.
  unfold WHITESPACE, atomic, or_else, lit, TAB, CR, LF. compute_codes.
  rewrite !match_string_char. unfold match_char_by, is_whitespace.
  destruct s as [|c s]; [reflexivity|].
  rewrite (N.eqb_sym 32), (N.eqb_sym 9), (N.eqb_sym 13), (N.eqb_sym 10).
  destruct (c =? 32), (c =? 9), (c =? 13), (c =? 10); reflexivity.
Qed.

Lemma shrinks_WHITESPACE : Respects shrinking WHITESPACE.
Proof.
  intros a s o r. rewrite WHITESPACE_char. apply shrinks_match_char_by.
Qed.

Lemma progress_WHITESPACE : Progress WHITESPACE.
Proof.
  intros a s o r. rewrite WHITESPACE_char. apply progress_match_char_by.
Qed.

Lemma total_WHITESPACE n : Total n WHITESPACE.
Proof.
  intros a s Hs. rewrite WHITESPACE_char. eapply total_run; eauto with peg.
Qed.

#[local] Hint Resolve shrinks_WHITESPACE progress_WHITESPACE total_WHITESPACE : peg.

Lemma total_skip n : Total n skip.
Proof.
  intros a s Hs. unfold skip. destruct a; try discriminate.
  eapply total_run; eauto with peg.
Qed.

#[local] Hint Resolve total_skip : peg.

Lemma progress_seq_ws_l (p q : parser) :
  Progress p -> Respects shrinking q -> Progress (p ~~ q).
Proof.
  intros. unfold seq_ws. auto 6 with peg.
Qed.

Lemma progress_seq_ws_r (p q : parser) :
  Respects shrinking p -> Progress q -> Progress (p ~~ q).
Proof.
  intros. unfold seq_ws. auto 6 with peg.
Qed.

Lemma total_seq_ws n (p q : parser) :
  Total n p -> Respects shrinking p -> Total n q -> Total n (p ~~ q).
Proof.
  intros. unfold seq_ws. auto 6 with peg.
Qed.

Lemma total_seq_ws_less n (p q : parser) :
  Total (S n) p -> Progress p -> Total n q -> Total (S n) (p ~~ q).
Proof.
  intros. unfold seq_ws. apply total_and_then_less; auto 6 with peg.
Qed.

Lemma total_rep n (p : parser) :
  Total n p -> Respects shrinking p -> Progress p -> Total n (rep p).
Proof.
  intros. unfold rep. auto 8 with peg.
Qed.

#[local] Hint Resolve total_rep : peg.
#[local] Hint Resolve progress_seq_ws_l | 1 : peg.
#[local] Hint Resolve progress_seq_ws_r | 2 : peg.
#[local] Hint Resolve total_seq_ws | 1 : peg.
#[local] Hint Resolve total_seq_ws_less | 2 : peg.

Ltac solve_peg := eauto 400 with peg.

Lemma shrinks_ASCII_HEX_DIGIT : Respects shrinking ASCII_HEX_DIGIT.
Proof. unfold ASCII_HEX_DIGIT. solve_peg. Qed.

Lemma progress_ASCII_HEX_DIGIT : Progress ASCII_HEX_DIGIT.
Proof. unfold ASCII_HEX_DIGIT. solve_peg. Qed.

Lemma total_ASCII_HEX_DIGIT n : Total n ASCII_HEX_DIGIT.
Proof. unfold ASCII_HEX_DIGIT. solve_peg. Qed.

#[local] Hint Resolve shrinks_ASCII_HEX_DIGIT progress_ASCII_HEX_DIGIT
  total_ASCII_HEX_DIGIT : peg.

Lemma shrinks_identifier : Respects shrinking identifier.
Proof. unfold identifier, ALPHABETIC, ASCII_DIGIT, lit. solve_peg. Qed.

Lemma progress_identifier : Progress identifier.
Proof. unfold identifier, ALPHABETIC, ASCII_DIGIT, lit. compute_codes. solve_peg. Qed.

Lemma total_identifier n : Total n identifier.
Proof. unfold identifier, ALPHABETIC, ASCII_DIGIT, lit. compute_codes. solve_peg. Qed.

Lemma shrinks_escape_u : Respects shrinking escape_u.
Proof. unfold escape_u. solve_peg. Qed.

Lemma total_escape_u n : Total n escape_u.
Proof. unfold escape_u. solve_peg. Qed.

#[local] Hint Resolve shrinks_identifier progress_identifier total_identifier
  shrinks_escape_u total_escape_u : peg.

Lemma shrinks_char_double : Respects shrinking char_double.
Proof. unfold char_double, ANY. solve_peg. Qed.

Lemma progress_char_double : Progress char_double.
Proof. unfold char_double, ANY, DQUOTE, BACKSLASH. solve_peg. Qed.

Lemma total_char_double n : Total n char_double.
Proof. unfold char_double, ANY. solve_peg. Qed.

Lemma shrinks_char_simple : Respects shrinking char_simple.
Proof. unfold char_simple, ANY. solve_peg. Qed.

Lemma progress_char_simple : Progress char_simple.
Proof. unfold char_simple, ANY, SQUOTE, BACKSLASH. solve_peg. Qed.

Lemma total_char_simple n : Total n char_simple.
Proof. unfold char_simple, ANY. solve_peg. Qed.

#[local] Hint Resolve shrinks_char_double progress_char_double total_char_double
  shrinks_char_simple progress_char_simple total_char_simple : peg.

Lemma shrinks_string : Respects shrinking string.
Proof. unfold string. solve_peg. Qed.

Lemma progress_string : Progress string.
Proof. unfold string, DQUOTE, SQUOTE. solve_peg. Qed.

Lemma total_string n : Total n string.
Proof. unfold string. solve_peg. Qed.

Lemma shrinks_number : Respects shrinking number.
Proof. unfold number, ASCII_DIGIT, ASCII_NONZERO_DIGIT. solve_peg. Qed.

Lemma progress_number : Progress number.
Proof.
  unfold number, ASCII_DIGIT, ASCII_NONZERO_DIGIT, lit. compute_codes.
  apply progress_rule, progress_atomic, progress_and_then_r; [solve_peg|].
  apply progress_and_then_l; solve_peg.
Qed.

Lemma total_number n : Total n number.
Proof. unfold number, ASCII_DIGIT, ASCII_NONZERO_DIGIT. solve_peg. Qed.

#[local] Hint Resolve shrinks_string progress_string total_string
  shrinks_number progress_number total_number : peg.

Lemma shrinks_literal : Respects shrinking literal.
Proof. unfold literal. solve_peg. Qed.

Lemma progress_literal : Progress literal.
Proof. unfold literal. solve_peg. Qed.

Lemma total_literal n : Total n literal.
Proof. unfold literal. solve_peg. Qed.

#[local] Hint Resolve shrinks_literal progress_literal total_literal : peg.

Lemma shrinks_single_value : Respects shrinking single_value.
Proof. unfold single_value. solve_peg. Qed.

Lemma progress_single_value : Progress single_value.
Proof. unfold single_value. solve_peg. Qed.

Lemma total_single_value n : Total n single_value.
Proof. unfold single_value. solve_peg. Qed.

Lemma shrinks_line_separator : Respects shrinking line_separator.
Proof. unfold line_separator. solve_peg. Qed.

Lemma total_line_separator n : Total n line_separator.
Proof. unfold line_separator. solve_peg. Qed.

#[local] Hint Resolve shrinks_single_value progress_single_value total_single_value
  shrinks_line_separator total_line_separator : peg.

Lemma shrinks_line : Respects shrinking line.
Proof. unfold line. solve_peg. Qed.

Lemma total_line n : Total n line.
Proof. unfold line. solve_peg. Qed.

#[local] Hint Resolve shrinks_line total_line : peg.

Lemma shrinks_matrix : Respects shrinking matrix.
Proof. unfold matrix. solve_peg. Qed.

Lemma progress_matrix : Progress matrix.
Proof. unfold matrix, lit. compute_codes. solve_peg. Qed.

Lemma total_matrix n : Total n matrix.
Proof. unfold matrix, lit. compute_codes. solve_peg. Qed.

#[local] Hint Resolve shrinks_matrix progress_matrix total_matrix : peg.

Lemma shrinks_value : Respects shrinking value.
Proof. unfold value. solve_peg. Qed.

Lemma progress_value : Progress value.
Proof. unfold value. solve_peg. Qed.

Lemma total_value n : Total n value.
Proof. unfold value. solve_peg. Qed.

Lemma shrinks_op : Respects shrinking op.
Proof. unfold op, add, sub, mul, div, pow, access. solve_peg. Qed.

Lemma progress_op : Progress op.
Proof. unfold op, add, sub, mul, div, pow, access, lit. compute_codes. solve_peg. Qed.

Lemma total_op n : Total n op.
Proof. unfold op, add, sub, mul, div, pow, access. solve_peg. Qed.

#[local] Hint Resolve shrinks_value progress_value total_value
  shrinks_op progress_op total_op : peg.

Section Recursive.

Variable self : parser.
Hypothesis self_shrinks : Respects shrinking self.

Lemma shrinks_call : Respects shrinking (call self).
Proof. unfold call. solve_peg. Qed.

Lemma progress_call : Progress (call self).
Proof. unfold call. solve_peg. Qed.

#[local] Hint Resolve shrinks_call progress_call : peg.

Lemma shrinks_atom : Respects shrinking (atom self).
Proof. unfold atom. solve_peg. Qed.

Lemma progress_atom : Progress (atom self).
Proof. unfold atom. solve_peg. Qed.

#[local] Hint Resolve shrinks_atom progress_atom : peg.

Lemma shrinks_binary : Respects shrinking (binary self).
Proof. unfold binary. solve_peg. Qed.

Lemma progress_binary : Progress (binary self).
Proof. unfold binary. solve_peg. Qed.

#[local] Hint Resolve shrinks_binary progress_binary : peg.

Lemma shrinks_range_operand : Respects shrinking (range_operand self).
Proof. unfold range_operand. solve_peg. Qed.

Lemma progress_range_operand : Progress (range_operand self).
Proof. unfold range_operand. solve_peg. Qed.

#[local] Hint Resolve shrinks_range_operand progress_range_operand : peg.

Lemma shrinks_expr_body : Respects shrinking (expr_body self).
Proof. unfold expr_body. solve_peg. Qed.

Lemma progress_expr_body : Progress (expr_body self).
Proof. unfold expr_body. solve_peg. Qed.

(** Where [self] terminates on inputs shorter than [n], the rules that refer
    to it terminate on inputs one character longer: [call] consumes an
    identifier before it reaches [self]. *)
Variable n : nat.
Hypothesis self_total : Total n self.

Lemma total_call : Total (S n) (call self).
Proof.
  unfold call. apply total_rule, total_seq_ws_less; solve_peg.
Qed.

#[local] Hint Resolve total_call : peg.

Lemma total_atom : Total (S n) (atom self).
Proof. unfold atom. solve_peg. Qed.

#[local] Hint Resolve total_atom : peg.

Lemma total_binary : Total (S n) (binary self).
Proof. unfold binary. solve_peg. Qed.

#[local] Hint Resolve total_binary : peg.

Lemma total_range_operand : Total (S n) (range_operand self).
Proof. unfold range_operand. solve_peg. Qed.

#[local] Hint Resolve total_range_operand : peg.

Lemma total_expr_body : Total (S n) (expr_body self).
Proof. unfold expr_body. solve_peg. Qed.

End Recursive.

Lemma shrinks_expr d : Respects shrinking (expr d).
Proof.
  induction d as [|d IH]; simpl; [apply respects_diverge|].
  now apply shrinks_expr_body.
Qed.

Lemma progress_expr d : Progress (expr d).
Proof.
  destruct d as [|d]; simpl; [apply progress_diverge|].
  apply progress_expr_body, shrinks_expr.
Qed.

Lemma total_expr d : Total d (expr d).
Proof.
  induction d as [|d IH]; simpl.
  - intros a s Hs. lia.
  - apply total_expr_body; [apply shrinks_expr|assumption].
Qed.

#[local] Hint Resolve shrinks_expr progress_expr : peg.

Section Statements.

Variable e : parser.
Hypothesis e_shrinks : Respects shrinking e.
Hypothesis e_progress : Progress e.

Lemma shrinks_assignment : Respects shrinking (assignment e).
Proof. unfold assignment. solve_peg. Qed.

Lemma progress_assignment : Progress (assignment e).
Proof. unfold assignment. solve_peg. Qed.

#[local] Hint Resolve shrinks_assignment progress_assignment : peg.

Lemma shrinks_statement : Respects shrinking (statement e).
Proof. unfold statement. solve_peg. Qed.

Lemma progress_statement : Progress (statement e).
Proof. unfold statement. solve_peg. Qed.

#[local] Hint Resolve shrinks_statement progress_statement : peg.

Lemma shrinks_statement_semi : Respects shrinking (statement_semi e).
Proof. unfold statement_semi. solve_peg. Qed.

Lemma progress_statement_semi : Progress (statement_semi e).
Proof. unfold statement_semi. solve_peg. Qed.

#[local] Hint Resolve shrinks_statement_semi progress_statement_semi : peg.

Lemma shrinks_statements : Respects shrinking (statements e).
Proof. unfold statements. solve_peg. Qed.

#[local] Hint Resolve shrinks_statements : peg.

Variable n : nat.
Hypothesis e_total : Total n e.

Lemma total_assignment : Total n (assignment e).
Proof. unfold assignment. solve_peg. Qed.

#[local] Hint Resolve total_assignment : peg.

Lemma total_statement : Total n (statement e).
Proof. unfold statement. solve_peg. Qed.

#[local] Hint Resolve total_statement : peg.

Lemma total_statement_semi : Total n (statement_semi e).
Proof. unfold statement_semi. solve_peg. Qed.

#[local] Hint Resolve total_statement_semi : peg.

Lemma total_statements : Total n (statements e).
Proof. unfold statements. solve_peg. Qed.

#[local] Hint Resolve total_statements : peg.

Lemma total_toplevel : Total n (toplevel e).
Proof. unfold toplevel, EOI. solve_peg. Qed.

End Statements.

(** The depth that [parse] gives to [expr] is enough: parsing terminates on
    every text. *)
Lemma parse_terminates (s : input) : parse s <> Diverge.
Proof.
  unfold parse. eapply total_run.
  - apply total_toplevel; [apply shrinks_expr|apply progress_expr|apply total_expr].
  - lia.
Qed.

Lemma EOI_inv a s o r : EOI a s = Ok o r -> s = [] /\ r = [].
Proof.
  unfold EOI. intros H. apply rule_inv in H as (inner & H & _).
  destruct s; simpl in H; [|discriminate]. injection H as _ <-. auto.
Qed.

(** A successful parse has consumed the whole text. *)
Lemma parse_ok_all (s : input) o r : parse s = Ok o r -> r = [].
Proof.
  unfold parse, toplevel. intros H.
  apply rule_inv in H as (inner & H & _).
  unfold seq_ws in H.
  apply and_then_inv in H as (o1 & r1 & o1' & _ & H & _).
  apply and_then_inv in H as (o2 & r2 & o2' & _ & H & _).
  apply and_then_inv in H as (o3 & r3 & o3' & _ & H & _).
  apply and_then_inv in H as (o4 & r4 & o4' & _ & H & _).
  now apply EOI_inv in H.
Qed.

(** ** Characters consumed outside string literals *)

Lemma string_first a c s : c <> 34 -> c <> 39 -> string a (c :: s) = Err.
Proof.
  intros H1 H2. unfold string, atomic. apply rule_err.
  rewrite or_else_r; apply and_then_err_l, match_string_not_next; simpl; intuition congruence.
Qed.

Lemma is_plain_cases c :
  is_plain c = true -> c <> 37 /\ c <> 35 /\ c <> 34 /\ c <> 39 /\ c <> 92.
Proof.
  unfold is_plain, is_comment_start. intros H.
  repeat (apply andb_prop in H as [H ?]).
  repeat match goal with
  | H : negb _ = true |- _ => apply negb_true_iff in H
  | H : _ || _ = false |- _ => apply orb_false_elim in H as [? ?]
  | H : (_ =? _) = false |- _ => apply N.eqb_neq in H
  end. auto.
Qed.

Lemma in_range_plain lo hi c :
  39 < lo -> (hi <? 92) || (92 <? lo) = true ->
  in_range lo hi c = true -> is_plain c = true.
Proof.
  unfold in_range, is_plain, is_comment_start. intros Hlo Hhi H.
  apply andb_prop in H as [H1 H2]. apply N.leb_le in H1, H2.
  assert (c <> 92).
  { apply orb_prop in Hhi as [Hhi|Hhi]; apply N.ltb_lt in Hhi; lia. }
  bool_arith.
Qed.

Lemma alphabetic_plain c : alphabetic c = true -> is_plain c = true.
Proof.
  unfold alphabetic, ascii_alphabetic. destruct (N.ltb_spec c 128) as [Hc|Hc].
  - intros H. apply orb_prop in H as [H|H]; revert H; now apply in_range_plain.
  - intros _. unfold is_plain, is_comment_start. bool_arith.
Qed.

Lemma is_whitespace_cases c :
  is_whitespace c = true -> c = 32 \/ c = 9 \/ c = 13 \/ c = 10.
Proof.
  unfold is_whitespace. intros H.
  repeat (apply orb_prop in H as [H|H]); apply N.eqb_eq in H; auto.
Qed.

Lemma match_insensitive_e_inv a s o r :
  match_insensitive (codes "e") a s = Ok o r ->
  exists c, s = c :: r /\ (c = 101 \/ c = 69) /\ o = [].
Proof.
  compute_codes. unfold match_insensitive. destruct s as [|c s]; [discriminate|].
  cbn [strip_prefix_insensitive].
  destruct (N.eqb_spec (ascii_lowercase 101) (ascii_lowercase c)) as [E|E];
    [|discriminate].
  intros [= <- <-]. exists c. repeat split; auto.
  revert E. unfold ascii_lowercase. simpl.
  destruct (65 <=? c) eqn:E1, (c <=? 90) eqn:E2; simpl; intros E; try (left; congruence).
  right. lia.
Qed.

(** An invariant that holds of consuming one plain character and of the
    rule [string] holds of every rule: outside a string literal the grammar
    consumes plain characters only. *)
Section Lexical.

Variable I : Invariant.
Hypothesis I_char : forall c s, is_plain c = true -> I (c :: s) s.
Hypothesis I_string : Respects I string.

Lemma lexical_text x s : forallb is_plain x = true -> I (x ++ s) s.
Proof.
  induction x as [|c x IH]; simpl; [intros _; apply holds_refl|].
  intros H. apply andb_prop in H as [Hc Hx].
  eapply holds_trans; [now apply I_char|auto].
Qed.

Lemma lexical_match_string str :
  forallb is_plain str = true -> Respects I (match_string str).
Proof.
  intros Hp a s o r H. apply match_string_inv in H as [-> _].
  now apply lexical_text.
Qed.

Lemma lexical_lit str :
  forallb is_plain (codes str) = true -> Respects I (lit str).
Proof.
  apply lexical_match_string.
Qed.

Lemma lexical_match_char_by f :
  (forall c, f c = true -> is_plain c = true) -> Respects I (match_char_by f).
Proof.
  intros Hf a s o r H. apply match_char_by_inv in H as (c & -> & Hc & _). auto.
Qed.

Lemma lexical_match_range lo hi :
  39 < lo -> (hi <? 92) || (92 <? lo) = true -> Respects I (match_range lo hi).
Proof.
  intros Hlo Hhi. apply lexical_match_char_by. intros c. now apply in_range_plain.
Qed.

Lemma lexical_ALPHABETIC : Respects I ALPHABETIC.
Proof.
  apply lexical_match_char_by, alphabetic_plain.
Qed.

Lemma lexical_WHITESPACE : Respects I WHITESPACE.
Proof.
  intros a s o r. rewrite WHITESPACE_char. apply lexical_match_char_by.
  intros c H. apply is_whitespace_cases in H as [->|[->|[->| ->]]]; reflexivity.
Qed.

Lemma lexical_match_insensitive_e : Respects I (match_insensitive (codes "e")).
Proof.
  intros a s o r H. apply match_insensitive_e_inv in H as (c & -> & Hc & _).
  apply I_char. now destruct Hc as [-> | ->].
Qed.

#[local] Hint Resolve I_string lexical_match_string lexical_lit
  lexical_match_range lexical_ALPHABETIC lexical_WHITESPACE
  lexical_match_insensitive_e : peg.
#[local] Hint Extern 1 (_ = true) => reflexivity : peg.
#[local] Hint Extern 1 (N.lt _ _) => reflexivity : peg.

Lemma lexical_identifier : Respects I identifier.
Proof. unfold identifier, ASCII_DIGIT. solve_peg. Qed.

Lemma lexical_number : Respects I number.
Proof. unfold number, ASCII_DIGIT, ASCII_NONZERO_DIGIT. solve_peg. Qed.

#[local] Hint Resolve lexical_identifier lexical_number : peg.

Lemma lexical_literal : Respects I literal.
Proof. unfold literal. solve_peg. Qed.

#[local] Hint Resolve lexical_literal : peg.

Lemma lexical_single_value : Respects I single_value.
Proof. unfold single_value. solve_peg. Qed.

Lemma lexical_line_separator : Respects I line_separator.
Proof. unfold line_separator. solve_peg. Qed.

#[local] Hint Resolve lexical_single_value lexical_line_separator : peg.

Lemma lexical_line : Respects I line.
Proof. unfold line. solve_peg. Qed.

#[local] Hint Resolve lexical_line : peg.

Lemma lexical_matrix : Respects I matrix.
Proof. unfold matrix. solve_peg. Qed.

#[local] Hint Resolve lexical_matrix : peg.

Lemma lexical_value : Respects I value.
Proof. unfold value. solve_peg. Qed.

Lemma lexical_op : Respects I op.
Proof. unfold op, add, sub, mul, div, pow, access. solve_peg. Qed.

#[local] Hint Resolve lexical_value lexical_op : peg.

Lemma lexical_call self : Respects I self -> Respects I (call self).
Proof.
  intros H. unfold call. solve_peg.
Qed.

#[local] Hint Resolve lexical_call : peg.

Lemma lexical_binary self : Respects I self -> Respects I (binary self).
Proof.
  intros H. unfold binary, atom. solve_peg.
Qed.

#[local] Hint Resolve lexical_binary : peg.

Lemma lexical_expr_body self : Respects I self -> Respects I (expr_body self).
Proof.
  intros H. unfold expr_body, range_operand. solve_peg.
Qed.

Lemma lexical_expr d : Respects I (expr d).
Proof.
  induction d as [|d IH]; simpl; [apply respects_diverge|].
  now apply lexical_expr_body.
Qed.

#[local] Hint Resolve lexical_expr : peg.

Lemma lexical_statement e : Respects I e -> Respects I (statement e).
Proof.
  intros H. unfold statement, assignment. solve_peg.
Qed.

#[local] Hint Resolve lexical_statement : peg.

Lemma lexical_statements e : Respects I e -> Respects I (statements e).
Proof.
  intros H. unfold statements, statement_semi. solve_peg.
Qed.

#[local] Hint Resolve lexical_statements : peg.

Lemma lexical_toplevel e : Respects I e -> Respects I (toplevel e).
Proof.
  intros H. unfold toplevel, EOI. solve_peg.
Qed.

(** A successful parse relates the whole text to the empty rest. *)
Lemma lexical_parse s o r : parse s = Ok o r -> I s [].
Proof.
  intros H. pose proof (parse_ok_all s o r H) as ->. revert H.
  unfold parse. apply lexical_toplevel, lexical_expr.
Qed.

End Lexical.

(** *** Comment characters *)

Lemma comment_scan_enough n m s :
  (length s <= n)%nat -> (length s <= m)%nat -> comment_scan n s = comment_scan m s.
Proof.
  revert m s. induction n as [|n IH]; intros m s Hn Hm.
  - destruct s; [|simpl in Hn; lia]. now destruct m.
  - destruct m as [|m]; [destruct s; [reflexivity|simpl in Hm; lia]|].
    destruct s as [|c s]; [reflexivity|]. simpl in Hn, Hm.
    cbn [comment_scan].
    destruct (string CompoundAtomic (c :: s)) as [o r| |] eqn:E.
    + apply progress_string in E. simpl in E. apply IH; lia.
    + f_equal. apply IH; lia.
    + f_equal. apply IH; lia.
Qed.

Lemma comment_plain c s :
  is_plain c = true -> comment_preserving (c :: s) s.
Proof.
  intros H. apply is_plain_cases in H as (H37 & H35 & H34 & H39 & _).
  simpl. unfold comment_outside_string.
  cbn [length comment_scan]. rewrite string_first by assumption.
  unfold is_comment_start. apply N.eqb_neq in H37, H35. now rewrite H37, H35.
Qed.

Lemma comment_string : Respects comment_preserving string.
Proof.
  intros a s o r H. simpl. destruct s as [|c s]; [discriminate|].
  unfold comment_outside_string at 1. cbn [length comment_scan].
  change (string CompoundAtomic (c :: s)) with (string a (c :: s)). rewrite H.
  apply progress_string in H. simpl in H. apply comment_scan_enough; lia.
Qed.

(** In a text with no quote at all, every [%] and [#] is outside the string
    literals. *)
Lemma comment_outside_string_no_quote s :
  forallb (fun c => negb (c =? 34) && negb (c =? 39)) s = true ->
  existsb is_comment_start s = true ->
  comment_outside_string s = true.
Proof.
  induction s as [|c s IH]; simpl; [discriminate|].
  intros Hq Hc. apply andb_prop in Hq as [Hq Hs]. apply andb_prop in Hq as [H34 H39].
  apply negb_true_iff in H34, H39. apply N.eqb_neq in H34, H39.
  unfold comment_outside_string. cbn [length comment_scan].
  rewrite string_first by assumption.
  destruct (is_comment_start c); [reflexivity|]. simpl in *. now apply IH.
Qed.

(** *** Single quotes *)

(** After its opening quote, the rule [char_simple] takes every character
    but a quote that a backslash follows. *)
Lemma char_simple_quote a s :
  not_next [92] s -> exists o, char_simple a (39 :: s) = Ok o s.
Proof.
  intros H. unfold char_simple, atomic, rule.
  assert (E : lookahead_not (match_string SQUOTE ~> match_string BACKSLASH) Atomic (39 :: s)
              = Ok [] (39 :: s)).
  { unfold lookahead_not. rewrite and_then_err_r with (o1 := []) (r1 := s).
    - reflexivity.
    - reflexivity.
    - now apply match_string_not_next. }
  unfold or_else, and_then at 1. rewrite E. simpl. destruct a; eauto.
Qed.

(** The rule [string] closes a single-quoted literal only at a quote that a
    backslash follows. *)
Lemma single_quoted_rest a s o r :
  string a (SQUOTE ++ s) = Ok o r -> exists r', r = BACKSLASH ++ r'.
Proof.
  unfold string, atomic. intros H. apply rule_inv in H as (inner & H & _).
  apply or_else_inv in H as [H|[_ H]].
  { apply and_then_inv in H as (? & ? & ? & H & _). discriminate. }
  apply and_then_inv in H as (o1 & r1 & o1' & H1 & H & _).
  apply match_string_inv in H1 as [E _]. injection E as <-.
  apply and_then_inv in H as (o2 & r2 & o2' & H2 & H3 & _).
  apply match_string_inv in H3 as [-> _].
  assert (Hstop : char_simple CompoundAtomic (SQUOTE ++ r) = Err).
  { revert H2. apply (repeat_inv _ CompoundAtomic
                        (fun _ _ r => char_simple CompoundAtomic r = Err)); auto. }
  destruct r as [|c r'].
  - destruct (char_simple_quote CompoundAtomic [] I) as (o3 & E3).
    simpl in Hstop. congruence.
  - destruct (N.eq_dec c 92) as [->|Hc]; [now exists r'|].
    destruct (char_simple_quote CompoundAtomic (c :: r')) as (o3 & E3).
    { simpl. intros [E|[]]. congruence. }
    simpl in Hstop. congruence.
Qed.

(** ** Number literals *)

Lemma ASCII_DIGIT_char a s : ASCII_DIGIT a s = match_char_by is_digit a s.
Proof.
  reflexivity.
Qed.

Lemma is_digit_range c : is_digit c = true -> 48 <= c <= 57.
Proof.
  unfold is_digit, in_range. intros H. apply andb_prop in H as [H1 H2].
  apply N.leb_le in H1, H2. lia.
Qed.

Lemma digits_ok a ds rest :
  forallb is_digit ds = true -> stops is_digit rest ->
  repeat ASCII_DIGIT a (ds ++ rest) = Ok [] rest.
Proof.
  apply repeat_class. intros s. apply ASCII_DIGIT_char.
Qed.

Lemma digits_inv a s o r :
  repeat ASCII_DIGIT a s = Ok o r ->
  exists ds, s = ds ++ r /\ forallb is_digit ds = true /\ o = [] /\ stops is_digit r.
Proof.
  apply repeat_class_inv. intros s'. apply ASCII_DIGIT_char.
Qed.

Lemma not_next_cons cs c rest : ~ In c cs -> not_next cs (c :: rest).
Proof.
  auto.
Qed.

Lemma number_sign_ok a sign rest :
  spec_sign sign -> not_next [45] rest ->
  optional (lit "-") a (sign ++ rest) = Ok [] rest.
Proof.
  unfold lit. compute_codes. intros [-> | ->] Hrest; simpl app.
  - apply optional_err. now apply match_string_not_next.
  - apply optional_ok. apply (match_string_app [45]).
Qed.

Lemma number_integer_ok a int rest :
  spec_integer_part int -> stops is_digit rest ->
  (lit "0" <|> (ASCII_NONZERO_DIGIT ~> repeat ASCII_DIGIT)) a (int ++ rest) = Ok [] rest.
Proof.
  unfold lit. compute_codes. intros [-> | (d & ds & -> & Hd & Hds)] Hrest.
  - apply or_else_l. apply (match_string_app [48]).
  - rewrite or_else_r.
    + change (@nil Pair) with (@nil Pair ++ []).
      apply and_then_ok with (r1 := ds ++ rest).
      * unfold ASCII_NONZERO_DIGIT, match_range. simpl. now rewrite Hd.
      * now apply digits_ok.
    + apply match_string_not_next. simpl. intros [<-|[]]. discriminate.
Qed.

Lemma number_fraction_ok a frac rest :
  spec_fraction frac -> stops is_digit rest -> (frac = [] -> not_next [46] rest) ->
  optional (lit "." ~> repeat ASCII_DIGIT) a (frac ++ rest) = Ok [] rest.
Proof.
  unfold lit. compute_codes. intros [-> | (ds & -> & Hds)] Hrest Hdot.
  - apply optional_err, and_then_err_l, match_string_not_next. auto.
  - apply optional_ok. change (@nil Pair) with (@nil Pair ++ []).
    apply and_then_ok with (r1 := ds ++ rest).
    + apply (match_string_app [46]).
    + now apply digits_ok.
Qed.

Lemma match_insensitive_e_ok a c r :
  c = 101 \/ c = 69 -> match_insensitive (codes "e") a (c :: r) = Ok [] r.
Proof.
  now intros [-> | ->].
Qed.

Lemma match_insensitive_e_err a s :
  not_next [101; 69] s -> match_insensitive (codes "e") a s = Err.
Proof.
  intros H. destruct (match_insensitive (codes "e") a s) as [o r| |] eqn:E; auto.
  - apply match_insensitive_e_inv in E as (c & -> & Hc & _).
    exfalso. apply H. simpl. intuition.
  - apply total_match_insensitive with (n := S (length s)) in E; [contradiction|lia].
Qed.

Lemma number_exponent_ok a exp rest :
  spec_exponent exp -> stops is_digit rest -> (exp = [] -> not_next [101; 69] rest) ->
  optional (match_insensitive (codes "e")
            ~> optional (lit "+" <|> lit "-")
            ~> (ASCII_DIGIT ~> repeat ASCII_DIGIT)) a (exp ++ rest) = Ok [] rest.
Proof.
  intros [-> | (e & sg & ds & -> & He & Hsg & Hne & Hds)] Hrest Hexp.
  - apply optional_err, and_then_err_l, match_insensitive_e_err. auto.
  - apply optional_ok. destruct ds as [|d ds]; [contradiction|].
    simpl in Hds. apply andb_prop in Hds as [Hd Hds].
    assert (Hdigits : (ASCII_DIGIT ~> repeat ASCII_DIGIT) a ((d :: ds) ++ rest) = Ok [] rest).
    { change (@nil Pair) with (@nil Pair ++ []).
      apply and_then_ok with (r1 := ds ++ rest).
      - rewrite ASCII_DIGIT_char. simpl. now rewrite Hd.
      - now apply digits_ok. }
    change (@nil Pair) with (@nil Pair ++ ([] ++ [])).
    apply and_then_ok with (r1 := (sg ++ d :: ds) ++ rest).
    + now apply match_insensitive_e_ok.
    + apply and_then_ok with (r1 := (d :: ds) ++ rest); [|assumption].
      unfold lit. compute_codes. apply is_digit_range in Hd.
      destruct Hsg as [-> | [-> | ->]]; simpl app.
      * apply optional_err. rewrite or_else_r;
          apply match_string_not_next; simpl; intros [E|[]]; lia.
      * apply optional_ok, or_else_l. apply (match_string_app [43]).
      * apply optional_ok. rewrite or_else_r by reflexivity.
        apply (match_string_app [45]).
Qed.

Lemma spec_integer_part_first int rest :
  spec_integer_part int -> exists c r, int ++ rest = c :: r /\ is_digit c = true.
Proof.
  intros [-> | (d & ds & -> & Hd & _)].
  - now exists 48, rest.
  - exists d, (ds ++ rest). split; [reflexivity|].
    unfold is_digit, in_range in *. apply andb_prop in Hd as [H1 H2].
    apply N.leb_le in H1, H2. apply andb_true_intro. split; apply N.leb_le; lia.
Qed.

(** The rule [number] matches every number of the specification, whatever
    follows it that cannot extend it. *)
Lemma number_ok a t rest :
  a <> Atomic -> spec_number t -> ends_number rest ->
  number a (t ++ rest) = Ok [Node Rule.number t []] rest.
Proof.
  intros Ha (sign & int & frac & exp & -> & Hsign & Hi & Hfrac & Hexp) Hrest.
  unfold number. apply rule_ok; [assumption|]. unfold atomic.
  assert (Hstop : stops is_digit rest /\ not_next [46] rest /\ not_next [101; 69] rest).
  { destruct rest as [|c rest]; simpl; [auto|]. simpl in Hrest. intuition. }
  destruct Hstop as (Hs1 & Hs2 & Hs3).
  assert (Hexp_first : stops is_digit (exp ++ rest)).
  { destruct Hexp as [-> | (e & sg & ds & -> & [-> | ->] & _)]; simpl; auto. }
  assert (Hfrac_first : stops is_digit (frac ++ exp ++ rest)).
  { destruct Hfrac as [-> | (ds & -> & _)]; simpl; auto. }
  repeat rewrite <- app_assoc.
  change (@nil Pair) with (@nil Pair ++ ([] ++ ([] ++ []))).
  apply and_then_ok with (r1 := int ++ frac ++ exp ++ rest).
  { apply number_sign_ok; [assumption|].
    destruct (spec_integer_part_first int (frac ++ exp ++ rest) Hi) as (c & r & -> & Hc).
    simpl. intros [<-|[]]. discriminate. }
  apply and_then_ok with (r1 := frac ++ exp ++ rest).
  { now apply number_integer_ok. }
  apply and_then_ok with (r1 := exp ++ rest).
  { apply number_fraction_ok; auto. intros ->.
    destruct Hexp as [-> | (e & sg & ds & -> & [-> | ->] & _)]; simpl; auto;
      intros [E|[]]; discriminate. }
  apply number_exponent_ok; auto.
Qed.

Lemma number_sign_inv a s o r :
  optional (lit "-") a s = Ok o r ->
  exists sign, s = sign ++ r /\ spec_sign sign /\ o = [].
Proof.
  intros H. apply optional_inv in H as [H|(_ & -> & ->)].
  - apply lit_inv in H as [-> ->]. exists (codes "-").
    repeat split. now right.
  - exists []. repeat split. now left.
Qed.

Lemma number_integer_inv a s o r :
  (lit "0" <|> (ASCII_NONZERO_DIGIT ~> repeat ASCII_DIGIT)) a s = Ok o r ->
  exists int, s = int ++ r /\ spec_integer_part int /\ o = [].
Proof.
  intros H. apply or_else_inv in H as [H|[_ H]].
  - apply lit_inv in H as [-> ->]. exists (codes "0").
    repeat split. now left.
  - apply and_then_inv in H as (o1 & r1 & o2 & H1 & H2 & ->).
    apply match_char_by_inv in H1 as (d & -> & Hd & ->).
    apply digits_inv in H2 as (ds & -> & Hds & -> & _).
    exists (d :: ds). repeat split. right. eauto.
Qed.

Lemma number_fraction_inv a s o r :
  optional (lit "." ~> repeat ASCII_DIGIT) a s = Ok o r ->
  exists frac, s = frac ++ r /\ spec_fraction frac /\ o = [].
Proof.
  intros H. apply optional_inv in H as [H|(_ & -> & ->)].
  - apply and_then_inv in H as (o1 & r1 & o2 & H1 & H2 & ->).
    apply lit_inv in H1 as [-> ->].
    apply digits_inv in H2 as (ds & -> & Hds & -> & _).
    exists (codes "." ++ ds). rewrite <- app_assoc. repeat split. right. eauto.
  - exists []. repeat split. now left.
Qed.

Lemma number_exponent_inv a s o r :
  optional (match_insensitive (codes "e")
            ~> optional (lit "+" <|> lit "-")
            ~> (ASCII_DIGIT ~> repeat ASCII_DIGIT)) a s = Ok o r ->
  exists exp, s = exp ++ r /\ spec_exponent exp /\ o = [].
Proof.
  intros H. apply optional_inv in H as [H|(_ & -> & ->)].
  - apply and_then_inv in H as (o1 & r1 & o2 & H1 & H2 & ->).
    apply match_insensitive_e_inv in H1 as (e & -> & He & ->).
    apply and_then_inv in H2 as (o3 & r3 & o4 & H3 & H4 & ->).
    apply and_then_inv in H4 as (o5 & r5 & o6 & H5 & H6 & ->).
    rewrite ASCII_DIGIT_char in H5.
    apply match_char_by_inv in H5 as (d & -> & Hd & ->).
    apply digits_inv in H6 as (ds & -> & Hds & -> & _).
    assert (Hsg : exists sg, r1 = sg ++ d :: ds ++ r
                        /\ (sg = [] \/ sg = codes "+" \/ sg = codes "-") /\ o3 = []).
    { apply optional_inv in H3 as [H3|(_ & -> & ->)].
      - apply or_else_inv in H3 as [H3|[_ H3]];
          apply lit_inv in H3 as [-> ->]; eexists; eauto.
      - exists []. auto. }
    destruct Hsg as (sg & -> & Hsg & ->).
    exists (e :: sg ++ d :: ds). split.
    { simpl. now rewrite <- app_assoc. }
    split; [|reflexivity]. right. exists e, sg, (d :: ds).
    repeat split; auto; [discriminate|]. simpl. now rewrite Hd.
  - exists []. repeat split. now left.
Qed.

(** Whatever the rule [number] matches is a number of the specification. *)
Lemma number_inv a s o r :
  number a s = Ok o r ->
  exists t, s = t ++ r /\ spec_number t
    /\ o = match a with Atomic => [] | _ => [Node Rule.number t []] end.
Proof.
  unfold number. intros H. apply rule_inv in H as (inner & H & ->). unfold atomic in H.
  apply and_then_inv in H as (o1 & r1 & o1' & H1 & H & ->).
  apply and_then_inv in H as (o2 & r2 & o2' & H2 & H & ->).
  apply and_then_inv in H as (o3 & r3 & o3' & H3 & H4 & ->).
  apply number_sign_inv in H1 as (sign & -> & Hsign & ->).
  apply number_integer_inv in H2 as (int & -> & Hi & ->).
  apply number_fraction_inv in H3 as (frac & -> & Hfrac & ->).
  apply number_exponent_inv in H4 as (exp & -> & Hexp & ->).
  exists (sign ++ int ++ frac ++ exp). split.
  { now rewrite <- !app_assoc. }
  split.
  { exists sign, int, frac, exp. auto. }
  replace (sign ++ int ++ frac ++ exp ++ r) with ((sign ++ int ++ frac ++ exp) ++ r)
    by now rewrite <- !app_assoc.
  now rewrite consumed_app.
Qed.

(** ** Identifiers *)

Lemma identifier_head_char a s :
  (ALPHABETIC <|> lit "_") a s = match_char_by identifier_head a s.
Proof.
  unfold or_else, ALPHABETIC, lit. compute_codes. rewrite match_string_char.
  destruct s as [|c s]; [reflexivity|]. unfold match_char_by, identifier_head.
  now destruct (alphabetic c), (95 =? c).
Qed.

Lemma identifier_tail_char a s :
  (ALPHABETIC <|> ASCII_DIGIT <|> lit "_") a s = match_char_by identifier_tail a s.
Proof.
  unfold or_else, ALPHABETIC, lit. compute_codes.
  rewrite match_string_char, ASCII_DIGIT_char.
  destruct s as [|c s]; [reflexivity|]. unfold match_char_by, identifier_tail.
  now destruct (alphabetic c), (is_digit c), (95 =? c).
Qed.

Lemma rule_ok_whole R (p : parser) a s inner r :
  a <> Atomic -> p a s = Ok inner r ->
  rule R p a s = Ok [Node R (consumed s r) inner] r.
Proof.
  unfold rule. intros Ha ->. now destruct a.
Qed.

Lemma identifier_ok a c cs rest :
  a <> Atomic ->
  identifier_head c = true -> forallb identifier_tail cs = true ->
  stops identifier_tail rest ->
  identifier a ((c :: cs) ++ rest) = Ok [Node Rule.identifier (c :: cs) []] rest.
Proof.
  intros Ha Hc Hcs Hrest. unfold identifier. apply rule_ok; [assumption|].
  unfold atomic. change (@nil Pair) with (@nil Pair ++ []).
  apply and_then_ok with (r1 := cs ++ rest).
  - rewrite identifier_head_char. simpl. now rewrite Hc.
  - apply repeat_class with (f := identifier_tail); auto.
    intros s. apply identifier_tail_char.
Qed.

Lemma identifier_inv a s o r :
  identifier a s = Ok o r ->
  exists c cs, s = (c :: cs) ++ r
    /\ identifier_head c = true /\ forallb identifier_tail cs = true
    /\ stops identifier_tail r
    /\ o = match a with Atomic => [] | _ => [Node Rule.identifier (c :: cs) []] end.
Proof.
  unfold identifier. intros H. apply rule_inv in H as (inner & H & ->).
  unfold atomic in H. apply and_then_inv in H as (o1 & r1 & o2 & H1 & H2 & ->).
  rewrite identifier_head_char in H1.
  apply match_char_by_inv in H1 as (c & -> & Hc & ->).
  apply repeat_class_inv with (f := identifier_tail) in H2
    as (cs & -> & Hcs & -> & Hr); [|intros s'; apply identifier_tail_char].
  exists c, cs. repeat split; auto.
  change (c :: cs ++ r) with ((c :: cs) ++ r). now rewrite consumed_app.
Qed.

(** A parser that terminates and does not succeed fails. *)
Lemma err_of_not_ok (p : parser) a s :
  Total (S (length s)) p -> (forall o r, p a s <> Ok o r) -> p a s = Err.
Proof.
  intros Ht Hn. destruct (p a s) as [o r| |] eqn:E.
  - now destruct (Hn o r).
  - reflexivity.
  - apply Ht in E; [contradiction|lia].
Qed.

Lemma identifier_err a s : stops identifier_head s -> identifier a s = Err.
Proof.
  intros Hs. apply err_of_not_ok; [apply total_identifier|].
  intros o r H. apply identifier_inv in H as (c & cs & -> & Hc & _).
  simpl in Hs. congruence.
Qed.

Lemma spec_number_first t :
  spec_number t -> exists c r, t = c :: r /\ (is_digit c = true \/ c = 45).
Proof.
  intros (sign & int & frac & exp & -> & Hsign & Hi & _).
  destruct Hsign as [-> | ->].
  - destruct (spec_integer_part_first int (frac ++ exp) Hi) as (c & r & E & Hc).
    exists c, r. simpl. auto.
  - compute_codes. simpl. eauto.
Qed.

Lemma number_err a s :
  stops (fun c => is_digit c || (c =? 45)) s -> number a s = Err.
Proof.
  intros Hs. apply err_of_not_ok; [apply total_number|].
  intros o r H. apply number_inv in H as (t & -> & Ht & _).
  apply spec_number_first in Ht as (c & t' & -> & Hc). simpl in Hs.
  destruct Hc as [Hc | ->]; [rewrite Hc in Hs|]; discriminate.
Qed.

Lemma string_err a s : not_next [34; 39] s -> string a s = Err.
Proof.
  destruct s as [|c s]; [reflexivity|]. simpl. intros H.
  apply string_first; intros ->; apply H; simpl; auto.
Qed.

Lemma matrix_err a s : not_next [91] s -> matrix a s = Err.
Proof.
  intros H. unfold matrix, seq_ws. apply rule_err, and_then_err_l.
  unfold lit. compute_codes. now apply match_string_not_next.
Qed.

(** *** Implicit whitespace *)

Lemma skip_none a s : stops is_whitespace s -> skip a s = Ok [] s.
Proof.
  intros H. unfold skip. destruct a; try reflexivity.
  apply repeat_stop. rewrite WHITESPACE_char.
  destruct s as [|c s]; simpl in *; [reflexivity|]. now rewrite H.
Qed.

Lemma skip_whitespace ws rest :
  forallb is_whitespace ws = true -> stops is_whitespace rest ->
  skip NonAtomic (ws ++ rest) = Ok [] rest.
Proof.
  intros Hws Hrest. unfold skip.
  apply repeat_class with (f := is_whitespace); auto. intros s. apply WHITESPACE_char.
Qed.

(** ** Facts about characters *)

Lemma identifier_head_cases c :
  identifier_head c = true -> 65 <= c <= 90 \/ 97 <= c <= 122 \/ c = 95 \/ 128 <= c.
Proof.
  unfold identifier_head, alphabetic, ascii_alphabetic, in_range.
  destruct (N.ltb_spec c 128); [|lia].
  destruct (N.eqb_spec 95 c); [lia|]. rewrite orb_false_r.
  destruct (N.leb_spec 65 c), (N.leb_spec c 90), (N.leb_spec 97 c), (N.leb_spec c 122);
    simpl; intros Hyp; try discriminate; lia.
Qed.

Lemma ascii_identifier_head c : is_identifier_start c = true -> identifier_head c = true.
Proof.
  unfold is_identifier_start, identifier_head, alphabetic, ascii_alphabetic, in_range.
  rewrite (N.eqb_sym c 95). bool_arith.
Qed.

Lemma ascii_identifier_tail c : is_identifier_char c = true -> identifier_tail c = true.
Proof.
  unfold is_identifier_char, is_identifier_start, identifier_tail, alphabetic,
    ascii_alphabetic, is_digit, in_range.
  rewrite (N.eqb_sym c 95). bool_arith.
Qed.

Lemma ascii_identifier_tails cs :
  forallb is_identifier_char cs = true -> forallb identifier_tail cs = true.
Proof.
  induction cs as [|c cs IH]; simpl; [reflexivity|].
  intros H. apply andb_prop in H as [Hc Hcs].
  now rewrite ascii_identifier_tail, IH.
Qed.

Lemma identifier_head_not_whitespace c :
  identifier_head c = true -> is_whitespace c = false.
Proof.
  intros H. apply identifier_head_cases in H. unfold is_whitespace. bool_arith.
Qed.

Lemma identifier_head_not_number c :
  identifier_head c = true -> is_digit c || (c =? 45) = false.
Proof.
  intros H. apply identifier_head_cases in H. unfold is_digit, in_range. bool_arith.
Qed.

Lemma identifier_head_not_in c cs :
  identifier_head c = true ->
  forallb (fun k => (k <? 128) && negb (ascii_alphabetic k) && negb (k =? 95)) cs = true ->
  ~ In c cs.
Proof.
  intros H Hcs Hin. rewrite forallb_forall in Hcs. apply Hcs in Hin.
  apply andb_prop in Hin as [Hin H95]. apply andb_prop in Hin as [H128 Hal].
  apply negb_true_iff in H95, Hal. apply N.ltb_lt in H128. apply N.eqb_neq in H95.
  apply identifier_head_cases in H.
  revert Hal. unfold ascii_alphabetic, in_range. bool_arith.
Qed.

Lemma number_first_not_whitespace c :
  is_digit c = true \/ c = 45 -> is_whitespace c = false.
Proof.
  unfold is_digit, in_range, is_whitespace. intros [H | ->]; [|reflexivity].
  apply andb_prop in H as [H1 H2]. apply N.leb_le in H1, H2. bool_arith.
Qed.

Lemma number_first_not_identifier c :
  is_digit c = true \/ c = 45 -> identifier_head c = false.
Proof.
  unfold is_digit, in_range, identifier_head, alphabetic, ascii_alphabetic, in_range.
  intros [H | ->]; [|reflexivity].
  apply andb_prop in H as [H1 H2]. apply N.leb_le in H1, H2. bool_arith.
Qed.

Lemma number_first_not_in c cs :
  is_digit c = true \/ c = 45 ->
  forallb (fun k => negb (in_range 48 57 k) && negb (k =? 45)) cs = true -> ~ In c cs.
Proof.
  intros H Hcs Hin. rewrite forallb_forall in Hcs. apply Hcs in Hin.
  apply andb_prop in Hin as [H1 H2]. apply negb_true_iff in H1, H2.
  destruct H as [H | ->]; [|discriminate]. unfold is_digit in H. congruence.
Qed.

(** ** Literals and atoms *)

Lemma literal_number a t rest :
  a <> Atomic -> spec_number t -> ends_number rest ->
  literal a (t ++ rest) = Ok [Node Rule.number t []] rest.
Proof.
  intros Ha Ht Hrest. unfold literal. rewrite or_else_r.
  - apply or_else_l. now apply number_ok.
  - apply spec_number_first in Ht as (c & r & -> & Hc). apply string_err.
    apply number_first_not_in; auto.
Qed.

Lemma literal_identifier a c cs rest :
  a <> Atomic ->
  identifier_head c = true -> forallb identifier_tail cs = true ->
  stops identifier_tail rest ->
  literal a ((c :: cs) ++ rest) = Ok [Node Rule.identifier (c :: cs) []] rest.
Proof.
  intros Ha Hc Hcs Hrest. unfold literal. rewrite or_else_r.
  - rewrite or_else_r; [now apply identifier_ok|].
    apply number_err. simpl. now apply identifier_head_not_number.
  - apply string_err. apply identifier_head_not_in; auto.
Qed.

Lemma single_value_ok a t rest p :
  literal CompoundAtomic (t ++ rest) = Ok [p] rest ->
  single_value a (t ++ rest) = Ok [Node Rule.single_value t [p]] rest.
Proof.
  intros H. unfold single_value, atomic. apply rule_ok; [discriminate|assumption].
Qed.

Lemma call_err_identifier self a s :
  identifier a s = Err -> call self a s = Err.
Proof.
  intros H. unfold call, seq_ws. now apply rule_err, and_then_err_l.
Qed.

Lemma call_err_paren self a s o r r' :
  identifier a s = Ok o r -> skip a r = Ok [] r' -> not_next [40] r' ->
  call self a s = Err.
Proof.
  intros H1 H2 H3. unfold call, seq_ws. apply rule_err.
  eapply and_then_err_r; [eassumption|].
  eapply and_then_err_r; [eassumption|].
  apply and_then_err_l. unfold lit. compute_codes. now apply match_string_not_next.
Qed.

Lemma atom_single_value self a s o r :
  call self a s = Err -> matrix a s = Err -> single_value a s = Ok o r ->
  atom self a s = Ok o r.
Proof.
  intros H1 H2 H3. unfold atom, value. now rewrite !or_else_r.
Qed.

Lemma atom_number self t rest :
  spec_number t -> ends_number rest ->
  atom self NonAtomic (t ++ rest)
  = Ok [Node Rule.single_value t [Node Rule.number t []]] rest.
Proof.
  intros Ht Hrest. destruct (spec_number_first t Ht) as (c & r & E & Hc).
  apply atom_single_value.
  - apply call_err_identifier, identifier_err. rewrite E. simpl.
    now apply number_first_not_identifier.
  - apply matrix_err. rewrite E. apply not_next_cons, number_first_not_in; auto.
  - apply single_value_ok, literal_number; auto. discriminate.
Qed.

(** An identifier is an atom when no [(] follows it. *)
Lemma atom_identifier self c cs ws rest :
  identifier_head c = true -> forallb identifier_tail cs = true ->
  stops identifier_tail (ws ++ rest) ->
  forallb is_whitespace ws = true -> stops is_whitespace rest -> not_next [40] rest ->
  atom self NonAtomic ((c :: cs) ++ ws ++ rest)
  = Ok [Node Rule.single_value (c :: cs) [Node Rule.identifier (c :: cs) []]] (ws ++ rest).
Proof.
  intros Hc Hcs Hstop Hws Hrest Hparen. apply atom_single_value.
  - apply call_err_paren with (o := [Node Rule.identifier (c :: cs) []])
      (r := ws ++ rest) (r' := rest).
    + apply identifier_ok; auto. discriminate.
    + now apply skip_whitespace.
    + assumption.
  - apply matrix_err. apply identifier_head_not_in; auto.
  - apply single_value_ok, literal_identifier; auto. discriminate.
Qed.

(** ** Expressions and statements at the end of the text *)

Lemma binary_of_atom_at_end self s p :
  atom self NonAtomic s = Ok [p] [] ->
  binary self NonAtomic s = Ok [Node Rule.binary s [p]] [].
Proof.
  intros H. unfold binary. rewrite <- (consumed_all s) at 2.
  apply rule_ok_whole; [discriminate|]. unfold seq_ws.
  change [p] with ([p] ++ [] ++ []).
  eapply and_then_ok; [eassumption|]. reflexivity.
Qed.

Lemma expr_of_binary_at_end self s p :
  binary self NonAtomic s = Ok [p] [] ->
  expr_body self NonAtomic s = Ok [Node Rule.expr s [p]] [].
Proof.
  intros H. unfold expr_body. rewrite <- (consumed_all s) at 2.
  apply rule_ok_whole; [discriminate|]. unfold seq_ws, range_operand.
  change [p] with ([p] ++ [] ++ []).
  eapply and_then_ok; [apply or_else_l; eassumption|]. reflexivity.
Qed.

Lemma expr_nil d : expr (S d) NonAtomic [] = Err.
Proof.
  reflexivity.
Qed.

Lemma statement_expression e s :
  assignment e NonAtomic s = Err -> statement e NonAtomic s = e NonAtomic s.
Proof.
  intros H. unfold statement. now apply or_else_r.
Qed.

(** A text that is one statement, with no [;] after it. *)
Lemma toplevel_one_statement e s p :
  stops is_whitespace s ->
  statement e NonAtomic s = Ok [p] [] -> e NonAtomic [] = Err ->
  toplevel e NonAtomic s = Ok [Node Rule.toplevel s [p; Node Rule.EOI [] []]] [].
Proof.
  intros Hs Hst He. unfold toplevel. rewrite <- (consumed_all s) at 2.
  apply rule_ok_whole; [discriminate|]. unfold seq_ws.
  assert (Hnil : (statement_semi e <|> statement e) NonAtomic [] = Err).
  { unfold statement_semi, statement, or_else, rule, seq_ws, and_then.
    change (assignment e NonAtomic []) with Err. now rewrite He. }
  assert (Hsemi : statement_semi e NonAtomic s = Err).
  { unfold statement_semi, seq_ws. apply rule_err.
    eapply and_then_err_r; [eassumption|]. reflexivity. }
  assert (Hsts : statements e NonAtomic s = Ok [p] []).
  { unfold statements, rep. apply optional_ok.
    change [p] with ([p] ++ []).
    eapply and_then_ok.
    - rewrite or_else_r by assumption. eassumption.
    - apply repeat_stop. eapply and_then_err_r; [reflexivity|assumption]. }
  change [p; Node Rule.EOI [] []] with ([] ++ [] ++ [p] ++ [] ++ [Node Rule.EOI [] []]).
  eapply and_then_ok; [reflexivity|].
  eapply and_then_ok; [now apply skip_none|].
  eapply and_then_ok; [apply optional_ok; eassumption|].
  reflexivity.
Qed.

Lemma assignment_err_identifier e a s :
  identifier a s = Err -> assignment e a s = Err.
Proof.
  intros H. unfold assignment, seq_ws. now apply rule_err, and_then_err_l.
Qed.

Lemma assignment_err_equals e a s o r r' :
  identifier a s = Ok o r -> skip a r = Ok [] r' -> not_next [61] r' ->
  assignment e a s = Err.
Proof.
  intros H1 H2 H3. unfold assignment, seq_ws. apply rule_err.
  eapply and_then_err_r; [eassumption|].
  eapply and_then_err_r; [eassumption|].
  apply and_then_err_l. unfold lit. compute_codes. now apply match_string_not_next.
Qed.

Lemma whitespace_not_identifier_tail c :
  is_whitespace c = true -> identifier_tail c = false.
Proof.
  intros H. apply is_whitespace_cases in H as [->|[->|[->| ->]]]; reflexivity.
Qed.

Lemma stops_whitespace_then f ws rest :
  (forall c, is_whitespace c = true -> f c = false) ->
  forallb is_whitespace ws = true -> stops f rest -> stops f (ws ++ rest).
Proof.
  intros Hf Hws Hrest. destruct ws as [|c ws]; [assumption|].
  simpl in *. apply andb_prop in Hws as [Hc _]. auto.
Qed.

(** An identifier with no [=] after it is not an assignment. *)
Lemma assignment_err_no_equals e c cs ws rest :
  identifier_head c = true -> forallb identifier_tail cs = true ->
  forallb is_whitespace ws = true ->
  stops is_whitespace rest -> stops identifier_tail rest -> not_next [61] rest ->
  assignment e NonAtomic ((c :: cs) ++ ws ++ rest) = Err.
Proof.
  intros Hc Hcs Hws Hrest Htail Heq.
  apply assignment_err_equals with (o := [Node Rule.identifier (c :: cs) []])
    (r := ws ++ rest) (r' := rest); auto.
  - apply identifier_ok; auto; [discriminate|].
    apply stops_whitespace_then; auto using whitespace_not_identifier_tail.
  - now apply skip_whitespace.
Qed.

Lemma skip_all ws :
  forallb is_whitespace ws = true -> skip NonAtomic ws = Ok [] [].
Proof.
  intros H. rewrite <- (app_nil_r ws) at 1. apply skip_whitespace; [assumption|exact I].
Qed.

Lemma atom_identifier_alone self c cs :
  identifier_head c = true -> forallb identifier_tail cs = true ->
  atom self NonAtomic (c :: cs)
  = Ok [Node Rule.single_value (c :: cs) [Node Rule.identifier (c :: cs) []]] [].
Proof.
  intros Hc Hcs.
  pose proof (atom_identifier self c cs [] [] Hc Hcs I eq_refl I I) as H.
  cbn [app] in H. now rewrite app_nil_r in H.
Qed.

Lemma assignment_err_alone e c cs :
  identifier_head c = true -> forallb identifier_tail cs = true ->
  assignment e NonAtomic (c :: cs) = Err.
Proof.
  intros Hc Hcs.
  pose proof (assignment_err_no_equals e c cs [] [] Hc Hcs eq_refl I I I) as H.
  cbn [app] in H. now rewrite app_nil_r in H.
Qed.

(** ** Assignments *)

Lemma statement_assignment e c cs ws1 ws2 rest v rest' :
  identifier_head c = true -> forallb identifier_tail cs = true ->
  forallb is_whitespace ws1 = true -> forallb is_whitespace ws2 = true ->
  stops is_whitespace rest ->
  e NonAtomic rest = Ok [v] rest' ->
  statement e NonAtomic ((c :: cs) ++ ws1 ++ codes "=" ++ ws2 ++ rest)
  = Ok [Node Rule.assignment
          (consumed ((c :: cs) ++ ws1 ++ codes "=" ++ ws2 ++ rest) rest')
          [Node Rule.identifier (c :: cs) []; v]] rest'.
Proof.
  intros Hc Hcs Hws1 Hws2 Hrest He. unfold statement. apply or_else_l.
  unfold assignment. apply rule_ok_whole; [discriminate|]. unfold seq_ws. compute_codes.
  change [Node Rule.identifier (c :: cs) []; v]
    with ([Node Rule.identifier (c :: cs) []] ++ [] ++ [] ++ [] ++ [v]).
  apply and_then_ok with (r1 := ws1 ++ [61] ++ ws2 ++ rest).
  { apply identifier_ok; auto; [discriminate|].
    apply stops_whitespace_then;
      [apply whitespace_not_identifier_tail|assumption|reflexivity]. }
  apply and_then_ok with (r1 := [61] ++ ws2 ++ rest).
  { apply skip_whitespace; [assumption|reflexivity]. }
  apply and_then_ok with (r1 := ws2 ++ rest).
  { unfold lit. compute_codes. apply match_string_app. }
  apply and_then_ok with (r1 := rest); [|assumption].
  now apply skip_whitespace.
Qed.

(** ** The shape of a binary chain *)

Lemma skip_tokens a s o r : skip a s = Ok o r -> o = [].
Proof.
  unfold skip. destruct a; try (now intros [= <- _]).
  intros H. apply repeat_class_inv with (f := is_whitespace) in H as (_ & _ & _ & -> & _);
    [reflexivity|]. intros s'. apply WHITESPACE_char.
Qed.

Lemma atom_shape self s o r :
  atom self NonAtomic s = Ok o r -> exists p, o = [p] /\ is_atom_pair p = true.
Proof.
  unfold atom, value, single_value, atomic. intros H.
  apply or_else_inv in H as [H|[_ H]]; [|apply or_else_inv in H as [H|[_ H]]];
    apply rule_inv in H as (inner & _ & ->); eauto.
Qed.

Lemma op_shape s o r :
  op NonAtomic s = Ok o r -> exists p, o = [p] /\ is_operator_pair p = true.
Proof.
  unfold op, add, sub, mul, div, pow, access. intros H.
  repeat (apply or_else_inv in H as [H|[_ H]]);
    apply rule_inv in H as (inner & H & ->); apply lit_inv in H as [_ ->]; eauto.
Qed.

Lemma chain_step_shape self s o r :
  (op ~~ atom self) NonAtomic s = Ok o r ->
  exists po pa, o = [po; pa] /\ is_operator_pair po = true /\ is_atom_pair pa = true.
Proof.
  unfold seq_ws. intros H.
  apply and_then_inv in H as (o1 & r1 & o1' & H1 & H & ->).
  apply and_then_inv in H as (o2 & r2 & o2' & H2 & H3 & ->).
  apply op_shape in H1 as (po & -> & Hpo). apply skip_tokens in H2 as ->.
  apply atom_shape in H3 as (pa & -> & Hpa). exists po, pa. auto.
Qed.

(** Every pair of the rule [binary] is a flat chain. *)
Lemma binary_shape self s o r :
  binary self NonAtomic s = Ok o r -> exists p, o = [p] /\ flat_chain p = true.
Proof.
  unfold binary, seq_ws. intros H. apply rule_inv in H as (inner & H & ->).
  apply and_then_inv in H as (o1 & r1 & o1' & H1 & H & ->).
  apply and_then_inv in H as (o2 & r2 & o2' & H2 & H3 & ->).
  apply atom_shape in H1 as (p & -> & Hp). apply skip_tokens in H2 as ->.
  eexists. split; [reflexivity|]. simpl. rewrite Hp. simpl.
  unfold rep in H3. apply optional_inv in H3 as [H3|(_ & -> & _)]; [|reflexivity].
  apply and_then_inv in H3 as (o3 & r3 & o3' & H3 & H4 & ->).
  apply chain_step_shape in H3 as (po & pa & -> & Hpo & Hpa).
  simpl. rewrite Hpo, Hpa. simpl.
  revert H4. apply (repeat_inv _ NonAtomic (fun _ o _ => chain_tail o = true)).
  - reflexivity.
  - intros s' o4 r4 o5 r5 H4 IH.
    apply and_then_inv in H4 as (o6 & r6 & o6' & H6 & H7 & ->).
    apply skip_tokens in H6 as ->.
    apply chain_step_shape in H7 as (po' & pa' & -> & Hpo' & Hpa').
    simpl. now rewrite Hpo', Hpa', IH.
Qed.

(** ** Chains of numbers *)

Lemma op_add r : op NonAtomic ([43] ++ r) = Ok [Node Rule.add [43] []] r.
Proof.
  unfold op. apply or_else_l. unfold add. apply rule_ok; [discriminate|].
  apply match_string_app.
Qed.

Lemma op_mul r : op NonAtomic ([42] ++ r) = Ok [Node Rule.mul [42] []] r.
Proof.
  unfold op. do 2 (rewrite or_else_r by reflexivity). apply or_else_l.
  unfold mul. apply rule_ok; [discriminate|]. apply match_string_app.
Qed.

Lemma spec_number_not_whitespace t rest :
  spec_number t -> stops is_whitespace (t ++ rest).
Proof.
  intros Ht. apply spec_number_first in Ht as (c & r & -> & Hc).
  simpl. now apply number_first_not_whitespace.
Qed.

(** One operator and one number after it. *)
Lemma chain_step_number self k po t rest :
  op NonAtomic ([k] ++ t ++ rest) = Ok [po] (t ++ rest) ->
  spec_number t -> ends_number rest ->
  (op ~~ atom self) NonAtomic ([k] ++ t ++ rest)
  = Ok [po; Node Rule.single_value t [Node Rule.number t []]] rest.
Proof.
  intros Hop Ht Hrest. unfold seq_ws.
  change [po; Node Rule.single_value t [Node Rule.number t []]]
    with ([po] ++ [] ++ [Node Rule.single_value t [Node Rule.number t []]]).
  eapply and_then_ok; [eassumption|].
  eapply and_then_ok; [apply skip_none; now apply spec_number_not_whitespace|].
  now apply atom_number.
Qed.

Lemma binary_three_numbers self n1 n2 n3 :
  spec_number n1 -> spec_number n2 -> spec_number n3 ->
  binary self NonAtomic (three_numbers_text n1 n2 n3)
  = Ok [three_numbers_chain n1 n2 n3] [].
Proof.
  intros H1 H2 H3. unfold three_numbers_chain, three_numbers_text, binary.
  compute_codes. rewrite <- (consumed_all (n1 ++ [43] ++ n2 ++ [42] ++ n3)) at 2.
  apply rule_ok_whole; [discriminate|]. unfold seq_ws.
  match goal with |- _ = Ok (?a :: ?l) _ => change (a :: l) with ([a] ++ [] ++ l) end.
  apply and_then_ok with (r1 := [43] ++ n2 ++ [42] ++ n3).
  { apply atom_number; [assumption|]. simpl. repeat split; discriminate. }
  apply and_then_ok with (r1 := [43] ++ n2 ++ [42] ++ n3).
  { now apply skip_none. }
  unfold rep. apply optional_ok.
  match goal with |- _ = Ok (?a :: ?b :: ?l) _ => change (a :: b :: l) with ([a; b] ++ l) end.
  apply and_then_ok with (r1 := [42] ++ n3).
  { apply chain_step_number; [apply op_add|assumption|].
    simpl. repeat split; discriminate. }
  match goal with |- _ = Ok ?l _ => change l with (l ++ []) end.
  apply repeat_step with (r1 := []).
  - match goal with |- _ = Ok ?l _ => change l with ([] ++ l) end.
    apply and_then_ok with (r1 := [42] ++ n3); [now apply skip_none|].
    pose proof (chain_step_number self 42 (Node Rule.mul [42] []) n3 []) as H.
    rewrite app_nil_r in H. apply H; [apply op_mul|assumption|exact I].
  - simpl. lia.
  - now apply repeat_stop.
Qed.

(** ** The shape of a range and of a row *)

Lemma range_operand_shape self s o r :
  range_operand self NonAtomic s = Ok o r ->
  exists p, o = [p] /\ is_operand_pair p = true.
Proof.
  unfold range_operand, is_operand_pair. intros H. apply or_else_inv in H as [H|[_ H]].
  - apply binary_shape in H as (p & -> & Hp). exists p. now rewrite Hp.
  - unfold value, single_value, atomic in H.
    apply or_else_inv in H as [H|[_ H]]; apply rule_inv in H as (inner & _ & ->);
      eexists; split; reflexivity.
Qed.

(** Every pair of the rule [expr] has one, two or three operands. *)
Lemma expr_body_shape self s o r :
  expr_body self NonAtomic s = Ok o r ->
  exists t operands,
    o = [Node Rule.expr t operands]
    /\ (1 <= length operands <= 3)%nat
    /\ forallb is_operand_pair operands = true.
Proof.
  unfold expr_body, seq_ws. intros H. apply rule_inv in H as (inner & H & ->).
  apply and_then_inv in H as (o1 & r1 & o1' & H1 & H & ->).
  apply and_then_inv in H as (o2 & r2 & o2' & H2 & H3 & ->).
  apply range_operand_shape in H1 as (p1 & -> & Hp1). apply skip_tokens in H2 as ->.
  eexists. eexists. split; [reflexivity|].
  apply optional_inv in H3 as [H3|(_ & -> & _)]; [|simpl; rewrite Hp1; split; [lia|auto]].
  apply and_then_inv in H3 as (o3 & r3 & o3' & H3 & H & ->).
  apply and_then_inv in H as (o4 & r4 & o4' & H4 & H & ->).
  apply and_then_inv in H as (o5 & r5 & o5' & H5 & H & ->).
  apply and_then_inv in H as (o6 & r6 & o6' & H6 & H7 & ->).
  apply lit_inv in H3 as [_ ->]. apply skip_tokens in H4 as ->.
  apply range_operand_shape in H5 as (p2 & -> & Hp2). apply skip_tokens in H6 as ->.
  apply optional_inv in H7 as [H7|(_ & -> & _)];
    [|simpl; rewrite Hp1, Hp2; split; [lia|auto]].
  apply and_then_inv in H7 as (o7 & r7 & o7' & H7 & H & ->).
  apply and_then_inv in H as (o8 & r8 & o8' & H8 & H9 & ->).
  apply lit_inv in H7 as [_ ->]. apply skip_tokens in H8 as ->.
  apply range_operand_shape in H9 as (p3 & -> & Hp3).
  simpl. rewrite Hp1, Hp2, Hp3. split; [lia|auto].
Qed.

(** An atom is not read as a range, nor is a flat chain. *)
Lemma atom_not_range p parts :
  is_atom_pair p = true -> lower_expr p <> Some (Ast.Range parts).
Proof.
  destruct p as [[] t inner]; try discriminate; intros _; simpl.
  - destruct inner as [|[[] f fi] args]; try discriminate.
    match goal with |- option_map _ ?x <> _ => destruct x end; discriminate.
  - destruct (lower_rows inner); discriminate.
  - destruct inner as [|l [|l' inner]]; try discriminate.
    destruct (lower_literal l) as [[]|]; discriminate.
Qed.

Lemma operand_not_range p parts :
  is_operand_pair p = true -> lower_expr p <> Some (Ast.Range parts).
Proof.
  unfold is_operand_pair. intros H. apply orb_prop in H as [H|H];
    [|now apply atom_not_range].
  destruct p as [[] t [|first more]]; try discriminate.
  simpl in H. apply andb_prop in H as [Hfirst _].
  pose proof (atom_not_range first parts Hfirst) as Hn.
  cbn [lower_expr]. destruct (lower_expr first) as [e|]; [|discriminate].
  match goal with |- match ?x with _ => _ end <> _ => destruct x as [[|]|] end;
    try discriminate. exact Hn.
Qed.

(** The expression read from a pair of the rule [expr] is a range only with
    two or three parts. *)
Lemma expr_range_parts d s p r parts :
  expr d NonAtomic s = Ok [p] r ->
  lower_expr p = Some (Ast.Range parts) ->
  length parts = 2%nat \/ length parts = 3%nat.
Proof.
  destruct d as [|d]; [discriminate|]. cbn [expr]. intros H.
  apply expr_body_shape in H as (t & operands & E & Hlen & Hop). injection E as ->.
  destruct operands as [|p1 [|p2 [|p3 [|p4 more]]]]; simpl in Hlen; try lia.
  - simpl in Hop. rewrite andb_true_r in Hop. cbn [lower_expr].
    pose proof (operand_not_range p1 parts Hop) as Hn.
    destruct (lower_expr p1); [|discriminate]. intros E. now destruct Hn.
  - cbn [lower_expr].
    destruct (lower_expr p1); [|discriminate].
    destruct (lower_expr p2); [|discriminate]. intros [= <-]. now left.
  - cbn [lower_expr].
    destruct (lower_expr p1); [|discriminate].
    destruct (lower_expr p2); [|discriminate].
    destruct (lower_expr p3); [|discriminate]. intros [= <-]. now right.
Qed.

Lemma literal_shape s o r :
  literal CompoundAtomic s = Ok o r -> exists p, o = [p] /\ is_literal_pair p = true.
Proof.
  unfold literal, string, number, identifier, atomic. intros H.
  apply or_else_inv in H as [H|[_ H]]; [|apply or_else_inv in H as [H|[_ H]]];
    apply rule_inv in H as (inner & _ & ->); eauto.
Qed.

Lemma WHITESPACE_tokens a s o r : WHITESPACE a s = Ok o r -> o = [].
Proof.
  rewrite WHITESPACE_char. intros H. now apply match_char_by_inv in H as (_ & _ & _ & ->).
Qed.

Lemma repeat_WHITESPACE_tokens a s o r : repeat WHITESPACE a s = Ok o r -> o = [].
Proof.
  intros H. apply repeat_class_inv with (f := is_whitespace) in H as (_ & _ & _ & -> & _);
    [reflexivity|]. intros s'. apply WHITESPACE_char.
Qed.

Lemma line_separator_tokens a s o r : line_separator a s = Ok o r -> o = [].
Proof.
  unfold line_separator. intros H. apply or_else_inv in H as [H|[_ H]].
  - apply and_then_inv in H as (o1 & r1 & o1' & H1 & H & ->).
    apply and_then_inv in H as (o2 & r2 & o2' & H2 & H3 & ->).
    apply repeat_WHITESPACE_tokens in H1 as ->. apply lit_inv in H2 as [_ ->].
    now apply repeat_WHITESPACE_tokens in H3 as ->.
  - apply and_then_inv in H as (o1 & r1 & o1' & H1 & H2 & ->).
    apply WHITESPACE_tokens in H1 as ->.
    now apply repeat_WHITESPACE_tokens in H2 as ->.
Qed.

(** Every inner pair of a [line] pair is a string, a number or an
    identifier. *)
Lemma line_shape a s o r :
  line a s = Ok o r ->
  exists t literals,
    o = [Node Rule.line t literals] /\ forallb is_literal_pair literals = true.
Proof.
  unfold line, atomic. intros H. apply rule_inv in H as (inner & H & ->).
  eexists. eexists. split; [reflexivity|].
  apply optional_inv in H as [H|(_ & -> & _)]; [|reflexivity].
  apply and_then_inv in H as (o1 & r1 & o1' & H1 & H2 & ->).
  apply literal_shape in H1 as (p & -> & Hp). simpl. rewrite Hp. simpl.
  revert H2.
  apply (repeat_inv _ CompoundAtomic (fun _ o _ => forallb is_literal_pair o = true)).
  - reflexivity.
  - intros s' o2 r2 o3 r3 H2 IH.
    apply and_then_inv in H2 as (o4 & r4 & o4' & H4 & H5 & ->).
    apply line_separator_tokens in H4 as ->.
    apply literal_shape in H5 as (p' & -> & Hp'). simpl. now rewrite Hp', IH.
Qed.

(** ** Rows of literals *)

Lemma literal_nil a : literal a [] = Err.
Proof.
  reflexivity.
Qed.

Lemma literal_err_separator a c s :
  is_whitespace c = true \/ c = 44 -> literal a (c :: s) = Err.
Proof.
  intros Hc.
  assert (c = 32 \/ c = 9 \/ c = 13 \/ c = 10 \/ c = 44) as H.
  { destruct Hc as [Hc|Hc]; [apply is_whitespace_cases in Hc|]; intuition. }
  unfold literal.
  rewrite or_else_r, or_else_r.
  - apply identifier_err. destruct H as [->|[->|[->|[->| ->]]]]; reflexivity.
  - apply number_err. destruct H as [->|[->|[->|[->| ->]]]]; reflexivity.
  - apply string_first; destruct H as [->|[->|[->|[->| ->]]]]; discriminate.
Qed.

Lemma delimited_first l :
  delimited l ->
  exists c t, fst l = c :: t /\ is_whitespace c = false /\ c <> 44.
Proof.
  intros H. specialize (H [] I). rewrite app_nil_r in H.
  destruct (fst l) as [|c t]; [now rewrite literal_nil in H|].
  exists c, t. split; [reflexivity|].
  destruct (is_whitespace c) eqn:Ew.
  - rewrite literal_err_separator in H by auto. discriminate.
  - split; [reflexivity|]. intros ->. rewrite literal_err_separator in H by auto.
    discriminate.
Qed.

Lemma whitespace_run a ws rest :
  forallb is_whitespace ws = true -> stops is_whitespace rest ->
  repeat WHITESPACE a (ws ++ rest) = Ok [] rest.
Proof.
  apply repeat_class. intros s. apply WHITESPACE_char.
Qed.

(** Either separator is read as a whole before a literal. *)
Lemma line_separator_ok a sep next :
  separator_ok sep = true -> stops is_whitespace next -> not_next [44] next ->
  line_separator a (separator_text sep ++ next) = Ok [] next.
Proof.
  intros Hsep Hnext Hcomma. unfold line_separator. destruct sep as [before after|spaces].
  - simpl in Hsep. apply andb_prop in Hsep as [Hb Ha]. apply or_else_l.
    unfold separator_text. compute_codes. rewrite <- !app_assoc.
    change (@nil Pair) with (@nil Pair ++ [] ++ []).
    apply and_then_ok with (r1 := [44] ++ after ++ next).
    { apply whitespace_run; [assumption|reflexivity]. }
    apply and_then_ok with (r1 := after ++ next).
    { unfold lit. compute_codes. apply match_string_app. }
    now apply whitespace_run.
  - simpl in Hsep. destruct spaces as [|c spaces]; [discriminate|].
    simpl in Hsep. apply andb_prop in Hsep as [Hc Hs]. rewrite or_else_r.
    + unfold separator_text. change (@nil Pair) with (@nil Pair ++ []).
      apply and_then_ok with (r1 := spaces ++ next).
      * rewrite WHITESPACE_char. simpl. now rewrite Hc.
      * now apply whitespace_run.
    + unfold separator_text. apply and_then_err_r with (o1 := []) (r1 := next).
      * apply whitespace_run; [|assumption]. simpl. now rewrite Hc, Hs.
      * apply and_then_err_l. unfold lit. compute_codes.
        now apply match_string_not_next.
Qed.

Lemma line_separator_err a rest : ends_row rest -> line_separator a rest = Err.
Proof.
  intros H. unfold line_separator.
  assert (Hs : stops is_whitespace rest).
  { destruct rest as [|c rest]; [exact I|]. simpl in *. now destruct H as [-> | ->]. }
  rewrite or_else_r.
  - apply and_then_err_l. rewrite WHITESPACE_char.
    destruct rest as [|c rest]; [reflexivity|]. simpl in *. now rewrite Hs.
  - apply and_then_err_r with (o1 := []) (r1 := rest).
    + apply (whitespace_run a [] rest); [reflexivity|assumption].
    + apply and_then_err_l. unfold lit. compute_codes. apply match_string_not_next.
      destruct rest as [|c rest]; [exact I|]. simpl in *.
      intros [E|[]]. destruct H as [-> | ->]; discriminate.
Qed.

Lemma ends_row_follows rest : ends_row rest -> follows_literal rest.
Proof.
  destruct rest as [|c rest]; simpl; intuition.
Qed.

Lemma separator_follows sep next :
  separator_ok sep = true -> follows_literal (separator_text sep ++ next).
Proof.
  destruct sep as [[|c before] after|[|c spaces]]; simpl; try discriminate; auto.
  - intros H. apply andb_prop in H as [H _]. apply andb_prop in H as [H _]. auto.
  - intros H. apply andb_prop in H as [H _]. auto.
Qed.

(** The literals of a row are read one after the other, through either
    separator. *)
Lemma row_loop more : forall first rest,
  row_ok first more -> ends_row rest ->
  (literal ~> repeat (line_separator ~> literal)) CompoundAtomic
    (row_text first more ++ rest)
  = Ok (row_pairs first more) rest.
Proof.
  induction more as [|[sep l] more IH]; intros first rest [Hfirst Hmore] Hrest.
  - unfold row_pairs. cbn [row_text map]. change [snd first] with ([snd first] ++ []).
    apply and_then_ok with (r1 := rest).
    + apply Hfirst. now apply ends_row_follows.
    + apply repeat_stop, and_then_err_l. now apply line_separator_err.
  - apply Forall_cons_iff in Hmore as [[Hsep Hl] Hmore]. simpl in Hsep, Hl.
    assert (Hrow : row_ok l more) by (split; assumption).
    pose proof (IH l rest Hrow Hrest) as Hnext.
    apply and_then_inv in Hnext as (o1 & r1 & o2 & H1 & H2 & E).
    destruct (delimited_first l Hl) as (c & t & Et & Hc & Hcomma).
    assert (Hhead : exists tail, row_text l more ++ rest = c :: tail).
    { destruct more as [|[sep' l'] more']; simpl; rewrite Et; simpl; eauto. }
    destruct Hhead as (tail & Etail).
    cbn [row_text]. rewrite <- !app_assoc.
    unfold row_pairs. cbn [map fst snd]. fold (row_pairs l more). rewrite E.
    change (snd first :: o1 ++ o2) with ([snd first] ++ ([] ++ o1) ++ o2).
    apply and_then_ok with (r1 := separator_text sep ++ row_text l more ++ rest).
    + apply Hfirst. now apply separator_follows.
    + apply repeat_step with (r1 := r1); [| |assumption].
      * apply and_then_ok with (r1 := row_text l more ++ rest); [|assumption].
        apply line_separator_ok; [assumption| |]; rewrite Etail; simpl; auto.
        intros [E'|[]]. congruence.
      * apply progress_literal in H1. rewrite !length_app in *. lia.
Qed.

Lemma line_row a first more rest :
  row_ok first more -> ends_row rest ->
  line a (row_text first more ++ rest)
  = Ok [Node Rule.line (row_text first more) (row_pairs first more)] rest.
Proof.
  intros Hrow Hrest. unfold line, atomic. apply rule_ok; [discriminate|].
  apply optional_ok. now apply row_loop.
Qed.

Lemma number_delimited t : spec_number t -> delimited (t, Node Rule.number t []).
Proof.
  intros Ht rest Hrest. simpl. apply literal_number; [discriminate|assumption|].
  destruct rest as [|c rest]; [exact I|]. simpl in *.
  destruct Hrest as [H|[->|[->| ->]]]; [|repeat split; discriminate..].
  apply is_whitespace_cases in H as [->|[->|[->| ->]]]; repeat split; discriminate.
Qed.

Lemma identifier_delimited c cs :
  identifier_head c = true -> forallb identifier_tail cs = true ->
  delimited (c :: cs, Node Rule.identifier (c :: cs) []).
Proof.
  intros Hc Hcs rest Hrest. cbn [fst snd].
  apply literal_identifier; [discriminate|assumption|assumption|].
  destruct rest as [|k rest]; [exact I|]. simpl in *.
  destruct Hrest as [H|[->|[->| ->]]]; [|reflexivity..].
  now apply whitespace_not_identifier_tail.
Qed.

Lemma spec_number_digits d ds :
  in_range 49 57 d = true -> forallb is_digit ds = true -> spec_number (d :: ds).
Proof.
  intros Hd Hds. exists [], (d :: ds), [], []. rewrite !app_nil_r.
  repeat split; try (now left). right. eauto.
Qed.

(** * The claims *)

(** C9: parsing the empty text, or a text of spaces, tabs, carriage returns
    and newlines only, succeeds with a [toplevel] pair that holds no
    statement (only the end-of-input pair): the program is the empty
    sequence of statements. *)
Theorem empty_document_parses (s : input) :
  forallb is_whitespace s = true ->
  parse s = Ok [Node Rule.toplevel s [Node Rule.EOI [] []]] []
  /\ program_of (parse s) = Some [].
Proof.
  intros Hs.
  assert (H : parse s = Ok [Node Rule.toplevel s [Node Rule.EOI [] []]] []).
  { unfold parse, toplevel. rewrite <- (consumed_all s) at 3.
    apply rule_ok_whole; [discriminate|]. unfold seq_ws.
    change [Node Rule.EOI [] []] with ([] ++ [] ++ [] ++ [] ++ [Node Rule.EOI [] []]).
    eapply and_then_ok; [reflexivity|].
    eapply and_then_ok; [now apply skip_all|].
    reflexivity. }
  split; [assumption|]. now rewrite H.
Qed.

(** C8: for every identifier [x] of the form [[A-Za-z_][A-Za-z0-9_]*] given
    alone as the whole text, the parse succeeds; the document holds one
    [expr] pair, not inside a [statement_semi] pair, whose chain is the
    identifier alone: one expression statement [Identifier x], not
    suppressed. *)
Theorem identifier_alone_parses (x : input) :
  ascii_identifier x = true ->
  parse x
  = Ok [Node Rule.toplevel x
          [Node Rule.expr x
             [Node Rule.binary x
                [Node Rule.single_value x [Node Rule.identifier x []]]];
           Node Rule.EOI [] []]] []
  /\ program_of (parse x)
     = Some [Ast.ExpressionStatement (Ast.EIdentifier x) false].
Proof.
  intros Hx. destruct x as [|c cs]; [discriminate|]. simpl in Hx.
  apply andb_prop in Hx as [Hc Hcs].
  apply ascii_identifier_head in Hc. apply ascii_identifier_tails in Hcs.
  match goal with |- ?P = ?R /\ _ => assert (H : P = R) end.
  { unfold parse. apply toplevel_one_statement.
    - simpl. now apply identifier_head_not_whitespace.
    - rewrite statement_expression.
      + cbn [expr]. apply expr_of_binary_at_end, binary_of_atom_at_end.
        now apply atom_identifier_alone.
      + now apply assignment_err_alone.
    - apply expr_nil. }
  split; [assumption|]. now rewrite H.
Qed.

Lemma parse_three_numbers n1 n2 n3 :
  spec_number n1 -> spec_number n2 -> spec_number n3 ->
  parse (three_numbers_text n1 n2 n3)
  = Ok [Node Rule.toplevel (three_numbers_text n1 n2 n3)
          [Node Rule.expr (three_numbers_text n1 n2 n3) [three_numbers_chain n1 n2 n3];
           Node Rule.EOI [] []]] [].
Proof.
  intros H1 H2 H3. unfold parse. apply toplevel_one_statement.
  - now apply spec_number_not_whitespace.
  - rewrite statement_expression.
    + cbn [expr]. now apply expr_of_binary_at_end, binary_three_numbers.
    + apply assignment_err_identifier, identifier_err.
      apply spec_number_first in H1 as (c & r & -> & Hc).
      simpl. now apply number_first_not_identifier.
  - apply expr_nil.
Qed.

Lemma parse_assigned_three_numbers n1 n2 n3 :
  spec_number n1 -> spec_number n2 -> spec_number n3 ->
  parse (codes "a = " ++ three_numbers_text n1 n2 n3)
  = Ok [Node Rule.toplevel (codes "a = " ++ three_numbers_text n1 n2 n3)
          [Node Rule.assignment (codes "a = " ++ three_numbers_text n1 n2 n3)
             [Node Rule.identifier (codes "a") [];
              Node Rule.expr (three_numbers_text n1 n2 n3)
                [three_numbers_chain n1 n2 n3]];
           Node Rule.EOI [] []]] [].
Proof.
  intros H1 H2 H3. unfold parse. apply toplevel_one_statement.
  - reflexivity.
  - pose proof (statement_assignment
                  (expr (S (length (codes "a = " ++ three_numbers_text n1 n2 n3))))
                  97 [] [32] [32] (three_numbers_text n1 n2 n3)
                  (Node Rule.expr (three_numbers_text n1 n2 n3)
                     [three_numbers_chain n1 n2 n3]) []) as H.
    rewrite consumed_all in H. apply H; try reflexivity.
    + now apply spec_number_not_whitespace.
    + cbn [expr]. now apply expr_of_binary_at_end, binary_three_numbers.
  - apply expr_nil.
Qed.

(** C1: the rule [binary] produces one pair whose inner pairs are an atom
    and then operator and atom pairs in alternation, never a pair that
    groups a part of the chain; for three numbers joined by [+] and then
    [*], alone or assigned as in [a = 1+2*3], the parse succeeds and the
    expression is the chain of the first number with the operator [+] and
    the second number, then the operator [*] and the third, in the order of
    the text, which is not the tree grouped by precedence. *)
Theorem binary_chain_is_flat :
  (forall self s o r,
      binary self NonAtomic s = Ok o r -> exists p, o = [p] /\ flat_chain p = true)
  /\ (forall n1 n2 n3,
        spec_number n1 -> spec_number n2 -> spec_number n3 ->
        parse (three_numbers_text n1 n2 n3)
        = Ok [Node Rule.toplevel (three_numbers_text n1 n2 n3)
                [Node Rule.expr (three_numbers_text n1 n2 n3)
                   [three_numbers_chain n1 n2 n3];
                 Node Rule.EOI [] []]] []
        /\ program_of (parse (three_numbers_text n1 n2 n3))
           = Some [Ast.ExpressionStatement (three_numbers_expression n1 n2 n3) false]
        /\ parse (codes "a = " ++ three_numbers_text n1 n2 n3)
           = Ok [Node Rule.toplevel (codes "a = " ++ three_numbers_text n1 n2 n3)
                   [Node Rule.assignment (codes "a = " ++ three_numbers_text n1 n2 n3)
                      [Node Rule.identifier (codes "a") [];
                       Node Rule.expr (three_numbers_text n1 n2 n3)
                         [three_numbers_chain n1 n2 n3]];
                    Node Rule.EOI [] []]] []
        /\ program_of (parse (codes "a = " ++ three_numbers_text n1 n2 n3))
           = Some [Ast.Assignment (codes "a") (three_numbers_expression n1 n2 n3)]
        /\ three_numbers_expression n1 n2 n3 <> three_numbers_by_precedence n1 n2 n3).
Proof.
  split; [exact binary_shape|].
  intros n1 n2 n3 H1 H2 H3.
  rewrite parse_three_numbers, parse_assigned_three_numbers by assumption.
  repeat split. discriminate.
Qed.

(** C6: an identifier followed by [=] and an expression is an assignment:
    the rule [statement] returns the [assignment] pair of the identifier
    and of the pair of the expression, and [a = 1+2] parses as the one
    assignment of the chain [1 (+, 2)] to [a]; an identifier with no [=]
    after it is what the rule [expr] makes of it. *)
Theorem assignment_is_tried_first :
  (forall e c cs ws1 ws2 rest v rest',
      identifier_head c = true -> forallb identifier_tail cs = true ->
      forallb is_whitespace ws1 = true -> forallb is_whitespace ws2 = true ->
      stops is_whitespace rest ->
      e NonAtomic rest = Ok [v] rest' ->
      statement e NonAtomic ((c :: cs) ++ ws1 ++ codes "=" ++ ws2 ++ rest)
      = Ok [Node Rule.assignment
              (consumed ((c :: cs) ++ ws1 ++ codes "=" ++ ws2 ++ rest) rest')
              [Node Rule.identifier (c :: cs) []; v]] rest')
  /\ parse (codes "a = 1+2")
     = Ok [Node Rule.toplevel (codes "a = 1+2")
             [Node Rule.assignment (codes "a = 1+2")
                [Node Rule.identifier (codes "a") [];
                 Node Rule.expr (codes "1+2")
                   [Node Rule.binary (codes "1+2")
                      [Node Rule.single_value (codes "1") [Node Rule.number (codes "1") []];
                       Node Rule.add (codes "+") [];
                       Node Rule.single_value (codes "2") [Node Rule.number (codes "2") []]]]];
              Node Rule.EOI [] []]] []
  /\ program_of (parse (codes "a = 1+2"))
     = Some [Ast.Assignment (codes "a")
               (Ast.BinaryChain (number_expression (codes "1"))
                  [(Ast.OpAdd, number_expression (codes "2"))])]
  /\ (forall e c cs ws rest,
        identifier_head c = true -> forallb identifier_tail cs = true ->
        forallb is_whitespace ws = true ->
        stops is_whitespace rest -> stops identifier_tail rest -> not_next [61] rest ->
        statement e NonAtomic ((c :: cs) ++ ws ++ rest)
        = e NonAtomic ((c :: cs) ++ ws ++ rest)).
Proof.
  split; [exact statement_assignment|].
  split; [vm_compute; reflexivity|].
  split; [vm_compute; reflexivity|].
  intros e c cs ws rest Hc Hcs Hws Hrest Htail Heq.
  apply statement_expression. now apply assignment_err_no_equals.
Qed.

(** C7: the texts that the rule [number] matches as a whole are exactly the
    numbers of the specification: an optional [-], an integer part [0] or a
    non-zero digit and digits, an optional [.] and digits (none is enough),
    an optional exponent of [e] or [E], an optional sign and at least one
    digit.  So [1.] is a number, and the rule stops inside a hexadecimal,
    binary or octal form and before a digit separator. *)
Theorem number_literal_forms :
  (forall t, spec_number t <-> number CompoundAtomic t = Ok [Node Rule.number t []] [])
  /\ number CompoundAtomic (codes "1.") = Ok [Node Rule.number (codes "1.") []] []
  /\ number CompoundAtomic (codes "-12.5e+3")
     = Ok [Node Rule.number (codes "-12.5e+3") []] []
  /\ number CompoundAtomic (codes "0x1F") = Ok [Node Rule.number (codes "0") []] (codes "x1F")
  /\ number CompoundAtomic (codes "0b101") = Ok [Node Rule.number (codes "0") []] (codes "b101")
  /\ number CompoundAtomic (codes "017") = Ok [Node Rule.number (codes "0") []] (codes "17")
  /\ number CompoundAtomic (codes "1_000") = Ok [Node Rule.number (codes "1") []] (codes "_000")
  /\ number CompoundAtomic (codes ".5") = Err
  /\ number CompoundAtomic (codes "+1") = Err.
Proof.
  split; [|repeat split; vm_compute; reflexivity].
  intros t. split.
  - intros Ht. pose proof (number_ok CompoundAtomic t []) as H.
    rewrite app_nil_r in H. apply H; [discriminate|assumption|exact I].
  - intros H. apply number_inv in H as (t' & E & Ht' & _).
    rewrite app_nil_r in E. now subst.
Qed.

(** C10: the grammar has no comment rule, so a text with a [%] or [#]
    outside its string literals does not parse: the parse fails, it does
    not skip to the end of the line. *)
Theorem comment_is_not_skipped (s : input) :
  comment_outside_string s = true -> parse s = Err.
Proof.
  intros Hs. destruct (parse s) as [o r| |] eqn:E.
  - apply (lexical_parse comment_preserving comment_plain comment_string) in E.
    simpl in E. rewrite Hs in E. discriminate.
  - reflexivity.
  - now apply parse_terminates in E.
Qed.

Lemma row_pairs_same first more1 more2 :
  map snd more1 = map snd more2 -> row_pairs first more1 = row_pairs first more2.
Proof.
  intros H. unfold row_pairs. f_equal.
  rewrite <- (map_map snd snd more1), <- (map_map snd snd more2).
  f_equal. exact H.
Qed.

(** C4: the literals of a matrix row are read to the same pairs whether a
    comma, with or without whitespace around it, or whitespace alone
    separates them: two rows of the same literals and any well-formed
    separators give [line] pairs with the same inner pairs.  Numbers and
    identifiers are such literals, and [[1,2;3,4]] and [[1 2;3 4]] both
    parse, to the same matrix of the rows 1 2 and 3 4. *)
Theorem row_separators_agree :
  (forall a first more1 more2 rest,
      row_ok first more1 -> row_ok first more2 ->
      map snd more1 = map snd more2 ->
      ends_row rest ->
      exists literals,
        literals = row_pairs first more1
        /\ line a (row_text first more1 ++ rest)
           = Ok [Node Rule.line (row_text first more1) literals] rest
        /\ line a (row_text first more2 ++ rest)
           = Ok [Node Rule.line (row_text first more2) literals] rest)
  /\ (forall t, spec_number t -> delimited (t, Node Rule.number t []))
  /\ (forall c cs,
        identifier_head c = true -> forallb identifier_tail cs = true ->
        delimited (c :: cs, Node Rule.identifier (c :: cs) []))
  /\ program_of (parse (codes "[1,2;3,4]"))
     = Some [Ast.ExpressionStatement
               (Ast.Matrix [[Ast.LNumber (codes "1"); Ast.LNumber (codes "2")];
                            [Ast.LNumber (codes "3"); Ast.LNumber (codes "4")]])
               false]
  /\ program_of (parse (codes "[1 2;3 4]")) = program_of (parse (codes "[1,2;3,4]"))
  /\ program_of (parse (codes "[1 , 2 ;3  4]")) = program_of (parse (codes "[1,2;3,4]")).
Proof.
  split; [|split; [exact number_delimited|split; [exact identifier_delimited|]]].
  - intros a first more1 more2 rest H1 H2 Hsame Hrest.
    exists (row_pairs first more1). split; [reflexivity|]. split.
    + now apply line_row.
    + rewrite (row_pairs_same first more1 more2 Hsame). now apply line_row.
  - repeat split; vm_compute; reflexivity.
Qed.

(** C3: the inner pairs of a [line] pair are strings, numbers and
    identifiers only, so [[f(1),2]] does not parse (the row ends before the
    parenthesis of the call), nor does a row with an operator or with a
    matrix inside; the arguments of a call are expressions, so [f([1,2])]
    parses, as the call of [f] on the matrix of the row 1 2. *)
Theorem matrix_row_holds_literals_only :
  (forall a s o r,
      line a s = Ok o r ->
      exists t literals,
        o = [Node Rule.line t literals] /\ forallb is_literal_pair literals = true)
  /\ parse (codes "[f(1),2]") = Err
  /\ line NonAtomic (codes "f(1),2]")
     = Ok [Node Rule.line (codes "f") [Node Rule.identifier (codes "f") []]]
          (codes "(1),2]")
  /\ parse (codes "[1+2]") = Err
  /\ parse (codes "[[1,2]]") = Err
  /\ parse (codes "f([1,2])")
     = Ok [Node Rule.toplevel (codes "f([1,2])")
             [Node Rule.expr (codes "f([1,2])")
                [Node Rule.binary (codes "f([1,2])")
                   [Node Rule.call (codes "f([1,2])")
                      [Node Rule.identifier (codes "f") [];
                       Node Rule.expr (codes "[1,2]")
                         [Node Rule.binary (codes "[1,2]")
                            [Node Rule.matrix (codes "[1,2]")
                               [Node Rule.line (codes "1,2")
                                  [Node Rule.number (codes "1") [];
                                   Node Rule.number (codes "2") []]]]]]]];
              Node Rule.EOI [] []]] []
  /\ program_of (parse (codes "f([1,2])"))
     = Some [Ast.ExpressionStatement
               (Ast.Call (codes "f")
                  [Ast.Matrix [[Ast.LNumber (codes "1"); Ast.LNumber (codes "2")]]])
               false].
Proof.
  split; [exact line_shape|]. repeat split; vm_compute; reflexivity.
Qed.

(** C5: a pair of the rule [expr] has one, two or three operands, never
    more, and the expression read from it is a range only with two or three
    parts: [1:10] parses as the range of 1 and 10, [1:2:10] as the range of
    1, 2 and 10, and [1:2:3:4] does not parse, the rule [expr] leaving the
    fourth part [:4] unread. *)
Theorem range_has_two_or_three_parts :
  (forall d s o r,
      expr d NonAtomic s = Ok o r ->
      exists t operands,
        o = [Node Rule.expr t operands] /\ (1 <= length operands <= 3)%nat)
  /\ (forall d s p r parts,
        expr d NonAtomic s = Ok [p] r ->
        lower_expr p = Some (Ast.Range parts) ->
        length parts = 2%nat \/ length parts = 3%nat)
  /\ program_of (parse (codes "1:10"))
     = Some [Ast.ExpressionStatement
               (Ast.Range [number_expression (codes "1"); number_expression (codes "10")])
               false]
  /\ program_of (parse (codes "1:2:10"))
     = Some [Ast.ExpressionStatement
               (Ast.Range [number_expression (codes "1"); number_expression (codes "2");
                           number_expression (codes "10")])
               false]
  /\ parse (codes "1:2:3:4") = Err
  /\ (exists operands,
        expr 1 NonAtomic (codes "1:2:3:4")
        = Ok [Node Rule.expr (codes "1:2:3") operands] (codes ":4")
        /\ length operands = 3%nat).
Proof.
  split; [|split; [exact expr_range_parts|]].
  - intros [|d] s o r H; [discriminate|].
    apply expr_body_shape in H as (t & operands & E & Hlen & _). eauto.
  - repeat split; try (vm_compute; reflexivity).
    eexists. split; [vm_compute; reflexivity|reflexivity].
Qed.

Lemma quote_plain c s : is_plain c = true -> quote_stuck (c :: s) s.
Proof.
  intros H. apply is_plain_cases in H as (_ & _ & _ & H39 & H92).
  simpl. intros [E|E]; contradiction.
Qed.

Lemma quote_string : Respects quote_stuck string.
Proof.
  intros a [|c s] o r H; simpl; [intros []|]. intros [-> | ->].
  - apply (single_quoted_rest a s) in H as (r' & ->). simpl. auto.
  - rewrite string_first in H by discriminate. discriminate.
Qed.

(** C2: the rule [char_simple] refuses a character only where a quote is
    followed by a backslash, so it takes the closing quote of a
    single-quoted literal as a character of the literal: the rule [string]
    closes such a literal only before a backslash, no text that starts with
    a single quote parses, and ['a\nb'] fails.  The double-quoted rule
    stops at the quote: the same text between double quotes parses and
    decodes to a, line feed, b, and the escape of U+00E9 decodes to that
    one character. *)
Theorem single_quoted_string_is_not_closed :
  parse (codes "'a\nb'") = Err
  /\ (forall a s o r, string a (SQUOTE ++ s) = Ok o r -> exists r', r = BACKSLASH ++ r')
  /\ (forall s, parse (SQUOTE ++ s) = Err)
  /\ program_of (parse (DQUOTE ++ codes "a\nb" ++ DQUOTE))
     = Some [Ast.ExpressionStatement
               (Ast.ELiteral (Ast.LString (codes "a" ++ LF ++ codes "b"))) false]
  /\ program_of (parse (DQUOTE ++ codes "\u00e9" ++ DQUOTE))
     = Some [Ast.ExpressionStatement (Ast.ELiteral (Ast.LString [233])) false].
Proof.
  split; [vm_compute; reflexivity|].
  split; [exact single_quoted_rest|].
  split; [|split; vm_compute; reflexivity].
  intros s. destruct (parse (SQUOTE ++ s)) as [o r| |] eqn:E.
  - apply (lexical_parse quote_stuck quote_plain quote_string) in E.
    simpl in E. destruct E. now left.
  - reflexivity.
  - now apply parse_terminates in E.
Qed.

(** * Further properties of the grammar *)

(** ** The depth of nested expressions *)

Lemma refines_refl (p : parser) : Refines p p.
Proof.
  intros a s _. reflexivity.
Qed.

Lemma refines_trans (p q r : parser) : Refines p q -> Refines q r -> Refines p r.
Proof.
  intros H1 H2 a s H. rewrite <- (H1 a s H). apply H2. now rewrite (H1 a s H).
Qed.

Lemma refines_diverge (q : parser) : Refines diverge q.
Proof.
  intros a s H. now destruct H.
Qed.

Lemma refines_and_then (p p' q q' : parser) :
  Refines p p' -> Refines q q' -> Refines (p ~> q) (p' ~> q').
Proof.
  intros Hp Hq a s. unfold and_then.
  destruct (p a s) as [o1 r1| |] eqn:E; intros H.
  - rewrite (Hp a s) by (rewrite E; discriminate). rewrite E.
    destruct (q a r1) as [o2 r2| |] eqn:E2.
    + rewrite (Hq a r1) by (rewrite E2; discriminate). now rewrite E2.
    + rewrite (Hq a r1) by (rewrite E2; discriminate). now rewrite E2.
    + now destruct H.
  - rewrite (Hp a s) by (rewrite E; discriminate). now rewrite E.
  - now destruct H.
Qed.

Lemma refines_or_else (p p' q q' : parser) :
  Refines p p' -> Refines q q' -> Refines (p <|> q) (p' <|> q').
Proof.
  intros Hp Hq a s. unfold or_else.
  destruct (p a s) as [o1 r1| |] eqn:E; intros H.
  - rewrite (Hp a s) by (rewrite E; discriminate). now rewrite E.
  - rewrite (Hp a s) by (rewrite E; discriminate). rewrite E. now apply Hq.
  - now destruct H.
Qed.

Lemma refines_optional (p p' : parser) :
  Refines p p' -> Refines (optional p) (optional p').
Proof.
  intros Hp a s. unfold optional.
  destruct (p a s) as [o1 r1| |] eqn:E; intros H;
    [| |now destruct H]; rewrite (Hp a s) by (rewrite E; discriminate); now rewrite E.
Qed.

Lemma refines_rule R (p p' : parser) : Refines p p' -> Refines (rule R p) (rule R p').
Proof.
  intros Hp a s. unfold rule.
  destruct (p a s) as [o1 r1| |] eqn:E; intros H;
    [| |now destruct H]; rewrite (Hp a s) by (rewrite E; discriminate); now rewrite E.
Qed.

Lemma refines_repeat (p p' : parser) :
  Refines p p' -> Refines (repeat p) (repeat p').
Proof.
  intros Hp a s. unfold repeat. generalize (length s) as n. intros n. revert s.
  induction n as [|n IH]; intros s; simpl.
  - destruct (p a s) as [o1 r1| |] eqn:E; intros H;
      [| |now destruct H]; rewrite (Hp a s) by (rewrite E; discriminate); now rewrite E.
  - destruct (p a s) as [o1 r1| |] eqn:E; intros H;
      [| |now destruct H]; rewrite (Hp a s) by (rewrite E; discriminate); rewrite E;
      [|reflexivity].
    destruct (repeat_loop p n a r1) as [o2 r2| |] eqn:E2;
      [| |now destruct H]; rewrite (IH r1) by (rewrite E2; discriminate); now rewrite E2.
Qed.

Lemma refines_seq_ws (p p' q q' : parser) :
  Refines p p' -> Refines q q' -> Refines (p ~~ q) (p' ~~ q').
Proof.
  intros Hp Hq. unfold seq_ws.
  apply refines_and_then; [assumption|].
  apply refines_and_then; [apply refines_refl|assumption].
Qed.

Lemma refines_rep (p p' : parser) : Refines p p' -> Refines (rep p) (rep p').
Proof.
  intros Hp. unfold rep. apply refines_optional, refines_and_then; [assumption|].
  apply refines_repeat, refines_and_then; [apply refines_refl|assumption].
Qed.

#[local] Hint Resolve refines_refl | 0 : peg.
#[local] Hint Resolve refines_and_then refines_or_else refines_optional refines_rule
  refines_repeat refines_seq_ws refines_rep | 1 : peg.

Lemma refines_call (self self' : parser) :
  Refines self self' -> Refines (call self) (call self').
Proof.
  intros H. unfold call. solve_peg.
Qed.

#[local] Hint Resolve refines_call : peg.

Lemma refines_binary (self self' : parser) :
  Refines self self' -> Refines (binary self) (binary self').
Proof.
  intros H. unfold binary, atom. solve_peg.
Qed.

#[local] Hint Resolve refines_binary : peg.

Lemma refines_expr_body (self self' : parser) :
  Refines self self' -> Refines (expr_body self) (expr_body self').
Proof.
  intros H. unfold expr_body, range_operand. solve_peg.
Qed.

Lemma refines_expr_step d : Refines (expr d) (expr (S d)).
Proof.
  induction d as [|d IH]; [apply refines_diverge|].
  change (Refines (expr_body (expr d)) (expr_body (expr (S d)))).
  now apply refines_expr_body.
Qed.

Lemma refines_expr d d' : (d <= d')%nat -> Refines (expr d) (expr d').
Proof.
  induction 1 as [|d' _ IH]; [apply refines_refl|].
  eapply refines_trans; [exact IH|apply refines_expr_step].
Qed.

Lemma refines_statement (e e' : parser) :
  Refines e e' -> Refines (statement e) (statement e').
Proof.
  intros H. unfold statement, assignment. solve_peg.
Qed.

#[local] Hint Resolve refines_statement : peg.

Lemma refines_statements (e e' : parser) :
  Refines e e' -> Refines (statements e) (statements e').
Proof.
  intros H. unfold statements, statement_semi. solve_peg.
Qed.

#[local] Hint Resolve refines_statements : peg.

Lemma refines_toplevel (e e' : parser) :
  Refines e e' -> Refines (toplevel e) (toplevel e').
Proof.
  intros H. unfold toplevel. solve_peg.
Qed.

(** X1: parsing terminates on every text, and a deeper bound on the nesting
    of [expr] changes nothing: with any depth above the length of the text,
    the rule [toplevel] returns what [parse] returns. *)
Theorem parse_depth_is_enough (s : input) (d : nat) :
  (length s < d)%nat ->
  toplevel (expr d) NonAtomic s = parse s /\ parse s <> Diverge.
Proof.
  intros Hd. split; [|apply parse_terminates].
  unfold parse. apply refines_toplevel with (e := expr (S (length s))).
  - apply refines_expr. lia.
  - apply parse_terminates.
Qed.

(** ** The shape of a document *)

Lemma expr_is_expr_pair d s o r :
  expr d NonAtomic s = Ok o r -> exists p, o = [p] /\ is_expr_pair p = true.
Proof.
  destruct d as [|d]; [discriminate|]. cbn [expr]. intros H.
  apply expr_body_shape in H as (t & operands & -> & _). eauto.
Qed.

Section DocumentShape.

Variable e : parser.
Hypothesis e_shape :
  forall s o r, e NonAtomic s = Ok o r -> exists p, o = [p] /\ is_expr_pair p = true.

Lemma statement_shape s o r :
  statement e NonAtomic s = Ok o r -> exists p, o = [p] /\ is_statement_pair p = true.
Proof.
  unfold statement. intros H. apply or_else_inv in H as [H|[_ H]].
  - unfold assignment, seq_ws in H. apply rule_inv in H as (inner & H & ->).
    apply and_then_inv in H as (o1 & r1 & o1' & H1 & H & ->).
    apply and_then_inv in H as (o2 & r2 & o2' & H2 & H & ->).
    apply and_then_inv in H as (o3 & r3 & o3' & H3 & H & ->).
    apply and_then_inv in H as (o4 & r4 & o4' & H4 & H5 & ->).
    apply identifier_inv in H1 as (c & cs & _ & _ & _ & _ & ->).
    apply skip_tokens in H2 as ->. apply lit_inv in H3 as [_ ->].
    apply skip_tokens in H4 as ->. apply e_shape in H5 as (q & -> & Hq).
    eexists. split; [reflexivity|]. exact Hq.
  - apply e_shape in H as (p & -> & Hp). exists p. split; [reflexivity|].
    destruct p as [[] t inner]; try discriminate. reflexivity.
Qed.

Lemma statement_pair_is_item p : is_statement_pair p = true -> is_item_pair p = true.
Proof.
  destruct p as [[] t inner]; try discriminate; auto.
Qed.

Lemma item_shape s o r :
  (statement_semi e <|> statement e) NonAtomic s = Ok o r ->
  exists p, o = [p] /\ is_item_pair p = true.
Proof.
  intros H. apply or_else_inv in H as [H|[_ H]].
  - unfold statement_semi, seq_ws in H. apply rule_inv in H as (inner & H & ->).
    apply and_then_inv in H as (o1 & r1 & o1' & H1 & H & ->).
    apply and_then_inv in H as (o2 & r2 & o2' & H2 & H3 & ->).
    apply statement_shape in H1 as (q & -> & Hq).
    apply skip_tokens in H2 as ->. apply lit_inv in H3 as [_ ->].
    eexists. split; [reflexivity|]. exact Hq.
  - apply statement_shape in H as (p & -> & Hp). exists p.
    split; [reflexivity|]. now apply statement_pair_is_item.
Qed.

Lemma statements_shape s o r :
  statements e NonAtomic s = Ok o r -> forallb is_item_pair o = true.
Proof.
  unfold statements, rep. intros H.
  apply optional_inv in H as [H|(_ & -> & _)]; [|reflexivity].
  apply and_then_inv in H as (o1 & r1 & o1' & H1 & H2 & ->).
  apply item_shape in H1 as (p & -> & Hp). simpl. rewrite Hp. simpl.
  revert H2. apply (repeat_inv _ NonAtomic (fun _ o _ => forallb is_item_pair o = true)).
  - reflexivity.
  - intros s' o2 r2 o3 r3 H2 IH.
    apply and_then_inv in H2 as (o4 & r4 & o4' & H4 & H5 & ->).
    apply skip_tokens in H4 as ->. apply item_shape in H5 as (q & -> & Hq).
    simpl. now rewrite Hq, IH.
Qed.

Lemma toplevel_shape s o r :
  toplevel e NonAtomic s = Ok o r ->
  r = []
  /\ exists items,
       o = [Node Rule.toplevel s (items ++ [Node Rule.EOI [] []])]
       /\ forallb is_item_pair items = true.
Proof.
  unfold toplevel, seq_ws. intros H. apply rule_inv in H as (inner & H & ->).
  apply and_then_inv in H as (o1 & r1 & o1' & H1 & H & ->).
  apply and_then_inv in H as (o2 & r2 & o2' & H2 & H & ->).
  apply and_then_inv in H as (o3 & r3 & o3' & H3 & H & ->).
  apply and_then_inv in H as (o4 & r4 & o4' & H4 & H5 & ->).
  injection H1 as <- <-. apply skip_tokens in H2 as ->. apply skip_tokens in H4 as ->.
  unfold EOI in H5. apply rule_inv in H5 as (o5 & H5 & ->).
  destruct r4 as [|c r4]; [|discriminate]. injection H5 as <- <-.
  split; [reflexivity|]. rewrite consumed_all. exists o3. split; [reflexivity|].
  apply optional_inv in H3 as [H3|(_ & -> & _)]; [|reflexivity].
  now apply statements_shape in H3.
Qed.

End DocumentShape.

(** X2: a parse is all or nothing and its tree is flat at the top: when it
    succeeds nothing of the text is left, the one pair is the [toplevel]
    pair of the whole text, and its inner pairs are statements and then the
    end-of-input pair, each statement an [expr] pair or an [assignment] pair
    of an identifier and an [expr] pair, alone or inside a [statement_semi]
    pair. *)
Theorem parse_tree_shape (s : input) o r :
  parse s = Ok o r ->
  r = []
  /\ exists items,
       o = [Node Rule.toplevel s (items ++ [Node Rule.EOI [] []])]
       /\ forallb is_item_pair items = true.
Proof.
  unfold parse. apply toplevel_shape. intros s' o' r'. apply expr_is_expr_pair.
Qed.

(** ** The texts of identifiers *)

(** X3: the rule [identifier] matches exactly a letter or [_] followed by
    letters, digits and [_], and always the longest such text: it returns
    the pair of the text [x] and leaves [r] exactly when the input is [x]
    then [r], [x] has that form, and [r] does not start with a letter, a
    digit or [_]. *)
Theorem identifier_longest_match (s x r : input) :
  identifier NonAtomic s = Ok [Node Rule.identifier x []] r
  <-> s = x ++ r /\ grammar_identifier x = true /\ stops identifier_tail r.
Proof.
  split.
  - intros H. apply identifier_inv in H as (c & cs & -> & Hc & Hcs & Hr & E).
    injection E as ->. split; [reflexivity|]. split; [|assumption].
    unfold grammar_identifier. now rewrite Hc, Hcs.
  - intros (-> & Hx & Hr). destruct x as [|c cs]; [discriminate|].
    simpl in Hx. apply andb_prop in Hx as [Hc Hcs].
    apply identifier_ok; auto. discriminate.
Qed.

(** ** The characters of a string literal *)

Lemma simple_escape_char a s :
  (match_string DQUOTE <|> match_string BACKSLASH <|> lit "/" <|> lit "b"
   <|> lit "f" <|> lit "n" <|> lit "r" <|> lit "t") a s
  = match_char_by is_simple_escape a s.
Proof.
  unfold or_else, lit, DQUOTE, BACKSLASH. compute_codes. rewrite !match_string_char.
  destruct s as [|c s]; [reflexivity|]. unfold match_char_by, is_simple_escape.
  destruct (34 =? c), (92 =? c), (47 =? c), (98 =? c), (102 =? c), (110 =? c),
    (114 =? c), (116 =? c); reflexivity.
Qed.

Lemma ASCII_HEX_DIGIT_char a s : ASCII_HEX_DIGIT a s = match_char_by is_hex_digit a s.
Proof.
  unfold ASCII_HEX_DIGIT, or_else, match_range, is_hex_digit.
  destruct s as [|c s]; [reflexivity|]. unfold match_char_by.
  destruct (in_range 48 57 c), (in_range 97 102 c), (in_range 65 70 c); reflexivity.
Qed.

Lemma escape_u_ok a h1 h2 h3 h4 r :
  is_hex_digit h1 = true -> is_hex_digit h2 = true ->
  is_hex_digit h3 = true -> is_hex_digit h4 = true ->
  escape_u a (117 :: h1 :: h2 :: h3 :: h4 :: r) = Ok [] r.
Proof.
  intros H1 H2 H3 H4.
  assert (Hex : forall h t, is_hex_digit h = true -> ASCII_HEX_DIGIT a (h :: t) = Ok [] t).
  { intros h t Hh. rewrite ASCII_HEX_DIGIT_char. simpl. now rewrite Hh. }
  unfold escape_u. change (@nil Pair) with ([] ++ [] ++ [] ++ [] ++ @nil Pair).
  apply and_then_ok with (r1 := h1 :: h2 :: h3 :: h4 :: r); [reflexivity|].
  apply and_then_ok with (r1 := h2 :: h3 :: h4 :: r); [now apply Hex|].
  apply and_then_ok with (r1 := h3 :: h4 :: r); [now apply Hex|].
  apply and_then_ok with (r1 := h4 :: r); [now apply Hex|]. now apply Hex.
Qed.

Lemma escape_u_inv a s o r :
  escape_u a s = Ok o r ->
  exists h1 h2 h3 h4,
    s = 117 :: h1 :: h2 :: h3 :: h4 :: r /\ o = []
    /\ is_hex_digit h1 = true /\ is_hex_digit h2 = true
    /\ is_hex_digit h3 = true /\ is_hex_digit h4 = true.
Proof.
  unfold escape_u. intros H.
  apply and_then_inv in H as (o0 & r0 & o0' & H0 & H & ->).
  apply and_then_inv in H as (o1 & r1 & o1' & H1 & H & ->).
  apply and_then_inv in H as (o2 & r2 & o2' & H2 & H & ->).
  apply and_then_inv in H as (o3 & r3 & o3' & H3 & H4 & ->).
  apply lit_inv in H0 as [-> ->].
  rewrite ASCII_HEX_DIGIT_char in H1, H2, H3, H4.
  apply match_char_by_inv in H1 as (h1 & -> & Hh1 & ->).
  apply match_char_by_inv in H2 as (h2 & -> & Hh2 & ->).
  apply match_char_by_inv in H3 as (h3 & -> & Hh3 & ->).
  apply match_char_by_inv in H4 as (h4 & -> & Hh4 & ->).
  exists h1, h2, h3, h4. auto 10.
Qed.

Lemma not_quote_or_backslash a c r :
  (match_string DQUOTE <|> match_string BACKSLASH) a (c :: r) = Err
  <-> c <> 34 /\ c <> 92.
Proof.
  unfold or_else, DQUOTE, BACKSLASH. rewrite !match_string_char.
  unfold match_char_by.
  destruct (N.eqb_spec 34 c), (N.eqb_spec 92 c); split; intros H;
    try discriminate; try reflexivity; try (split; congruence);
    destruct H; congruence.
Qed.

(** The rule [char_double] on each form of its text. *)
Lemma char_double_ok t r :
  char_double_text t = true ->
  char_double CompoundAtomic (t ++ r) = Ok [Node Rule.char_double t []] r.
Proof.
  intros Ht. unfold char_double. apply rule_ok; [discriminate|]. unfold atomic.
  destruct t as [|c1 [|c2 [|c3 [|c4 [|c5 [|c6 [|c7 t]]]]]]]; try discriminate.
  - simpl in Ht. apply andb_prop in Ht as [H34 H92].
    apply negb_true_iff in H34, H92. apply N.eqb_neq in H34, H92.
    cbn [app]. apply or_else_l. change (@nil Pair) with (@nil Pair ++ []).
    apply and_then_ok with (r1 := c1 :: r); [|reflexivity].
    unfold lookahead_not.
    now rewrite (proj2 (not_quote_or_backslash Atomic c1 r) (conj H34 H92)).
  - simpl in Ht. apply andb_prop in Ht as [Hb He]. apply N.eqb_eq in Hb. subst c1.
    rewrite or_else_r by reflexivity. apply or_else_l.
    change (@nil Pair) with (@nil Pair ++ []).
    apply and_then_ok with (r1 := c2 :: r); [reflexivity|].
    rewrite simple_escape_char. simpl. now rewrite He.
  - simpl in Ht. repeat (apply andb_prop in Ht as [Ht ?]).
    apply N.eqb_eq in Ht. subst c1.
    match goal with H : (c2 =? 117) = true |- _ => apply N.eqb_eq in H; subst c2 end.
    rewrite or_else_r by reflexivity. rewrite or_else_r.
    + change (@nil Pair) with (@nil Pair ++ []).
      apply and_then_ok with (r1 := 117 :: c3 :: c4 :: c5 :: c6 :: r); [reflexivity|].
      now apply escape_u_ok.
    + apply and_then_err_r with (o1 := []) (r1 := 117 :: c3 :: c4 :: c5 :: c6 :: r);
        [reflexivity|]. rewrite simple_escape_char. reflexivity.
Qed.

Lemma char_double_inv s o r :
  char_double CompoundAtomic s = Ok o r ->
  exists t, s = t ++ r /\ char_double_text t = true /\ o = [Node Rule.char_double t []].
Proof.
  unfold char_double. intros H. apply rule_inv in H as (inner & H & ->).
  unfold atomic in H.
  assert (Hgoal : exists t, s = t ++ r /\ char_double_text t = true /\ inner = []).
  { apply or_else_inv in H as [H|[_ H]]; [|apply or_else_inv in H as [H|[_ H]]].
    - apply and_then_inv in H as (o1 & r1 & o2 & H1 & H2 & ->).
      apply lookahead_not_inv in H1 as (H1 & -> & ->).
      apply match_char_by_inv in H2 as (c & -> & _ & ->).
      apply not_quote_or_backslash in H1 as [H34 H92].
      exists [c]. repeat split. simpl.
      apply N.eqb_neq in H34, H92. now rewrite H34, H92.
    - apply and_then_inv in H as (o1 & r1 & o2 & H1 & H2 & ->).
      apply match_string_inv in H1 as [-> ->].
      rewrite simple_escape_char in H2.
      apply match_char_by_inv in H2 as (c & -> & Hc & ->).
      exists [92; c]. repeat split. simpl. exact Hc.
    - apply and_then_inv in H as (o1 & r1 & o2 & H1 & H2 & ->).
      apply match_string_inv in H1 as [-> ->].
      apply escape_u_inv in H2 as (h1 & h2 & h3 & h4 & -> & -> & H1 & H2 & H3 & H4).
      exists [92; 117; h1; h2; h3; h4]. repeat split. simpl.
      now rewrite H1, H2, H3, H4. }
  destruct Hgoal as (t & -> & Ht & ->). exists t. now rewrite consumed_app.
Qed.

(** X4: the rule [char_double] matches exactly three forms of text, whatever
    follows: one character that is neither the double quote nor the
    backslash; a backslash and one of the double quote, the backslash and
    [/ b f n r t]; a backslash, [u] and four hexadecimal digits.  A
    backslash before anything else is not matched. *)
Theorem char_double_forms (s t r : input) :
  char_double CompoundAtomic s = Ok [Node Rule.char_double t []] r
  <-> s = t ++ r /\ char_double_text t = true.
Proof.
  split.
  - intros H. apply char_double_inv in H as (t' & -> & Ht & E).
    injection E as ->. auto.
  - intros [-> Ht]. now apply char_double_ok.
Qed.

Lemma char_simple_not_quote c r :
  c <> 39 ->
  char_simple CompoundAtomic (c :: r) = Ok [Node Rule.char_simple [c] []] r.
Proof.
  intros Hc. unfold char_simple. apply (rule_ok Rule.char_simple _ CompoundAtomic [c] r);
    [discriminate|].
  unfold atomic. apply or_else_l. change (@nil Pair) with (@nil Pair ++ []).
  apply and_then_ok with (r1 := [c] ++ r); [|reflexivity].
  unfold lookahead_not. rewrite and_then_err_l; [reflexivity|].
  apply match_string_not_next. simpl. intros [E|[]]. congruence.
Qed.

Lemma char_simple_quote_ok r :
  not_next [92] r ->
  char_simple CompoundAtomic (39 :: r) = Ok [Node Rule.char_simple [39] []] r.
Proof.
  intros Hr. unfold char_simple.
  apply (rule_ok Rule.char_simple _ CompoundAtomic [39] r); [discriminate|].
  unfold atomic. apply or_else_l. change (@nil Pair) with (@nil Pair ++ []).
  apply and_then_ok with (r1 := [39] ++ r); [|reflexivity].
  unfold lookahead_not. rewrite and_then_err_r with (o1 := []) (r1 := r);
    [reflexivity|reflexivity|]. now apply match_string_not_next.
Qed.

Lemma char_simple_quote_backslash r : char_simple CompoundAtomic (39 :: 92 :: r) = Err.
Proof.
  reflexivity.
Qed.

(** X6: the rule [char_simple] takes exactly one character, whatever it is,
    unless that character is a single quote that a backslash follows, where
    it fails: its two alternatives for escapes never match, and a backslash
    is taken alone as a character. *)
Theorem char_simple_takes_one_character (s : input) o r :
  char_simple CompoundAtomic s = Ok o r
  <-> exists c,
        s = c :: r /\ o = [Node Rule.char_simple [c] []]
        /\ ~ (c = 39 /\ exists r', r = 92 :: r').
Proof.
  split.
  - intros H. destruct s as [|c s]; [discriminate|].
    destruct (N.eq_dec c 39) as [->|Hc].
    + destruct s as [|c' s].
      * rewrite char_simple_quote_ok in H by exact I. injection H as <- <-.
        exists 39. repeat split. intros [_ [r' E]]. discriminate.
      * destruct (N.eq_dec c' 92) as [->|Hc'].
        { rewrite char_simple_quote_backslash in H. discriminate. }
        rewrite char_simple_quote_ok in H by (simpl; intros [E|[]]; congruence).
        injection H as <- <-. exists 39. repeat split.
        intros [_ [r' E]]. congruence.
    + rewrite char_simple_not_quote in H by assumption. injection H as <- <-.
      exists c. repeat split. intros [E _]. contradiction.
  - intros (c & -> & -> & Hn). destruct (N.eq_dec c 39) as [->|Hc].
    + apply char_simple_quote_ok. destruct r as [|c' r']; [exact I|].
      simpl. intros [E|[]]. apply Hn. split; [reflexivity|]. exists r'. congruence.
    + now apply char_simple_not_quote.
Qed.

(** ** Double-quoted literals *)

Lemma escape_char_text c : char_double_text (escape_char c) = true.
Proof.
  unfold escape_char.
  destruct (N.eqb_spec c 34) as [->|H34]; [reflexivity|].
  destruct (N.eqb_spec c 92) as [->|H92]; [reflexivity|].
  simpl. apply N.eqb_neq in H34, H92. now rewrite H34, H92.
Qed.

Lemma char_double_closing a r : char_double a (DQUOTE ++ r) = Err.
Proof.
  reflexivity.
Qed.

Lemma escape_char_length c : (0 < length (escape_char c))%nat.
Proof.
  unfold escape_char. destruct ((c =? 34) || (c =? 92)); simpl; lia.
Qed.

Lemma char_doubles_ok body rest :
  repeat char_double CompoundAtomic (escaped body ++ DQUOTE ++ rest)
  = Ok (char_double_pairs body) (DQUOTE ++ rest).
Proof.
  induction body as [|c body IH].
  - apply repeat_stop. apply char_double_closing.
  - unfold escaped, char_double_pairs in *. cbn [flat_map map].
    rewrite <- app_assoc.
    change (Node Rule.char_double (escape_char c) [] :: ?l)
      with ([Node Rule.char_double (escape_char c) []] ++ l).
    eapply repeat_step; [apply char_double_ok, escape_char_text| |exact IH].
    rewrite (length_app (escape_char c)). pose proof (escape_char_length c). lia.
Qed.

(** X5: every text can be written between double quotes: with each double
    quote and backslash of the text written after a backslash, the rule
    [string] reads the literal up to its closing quote, whatever follows,
    and returns one [char_double] pair for each character of the text, in
    order. *)
Theorem double_quoted_literal (a : Atomicity) (body rest : input) :
  string a (DQUOTE ++ escaped body ++ DQUOTE ++ rest)
  = Ok [Node Rule.string (DQUOTE ++ escaped body ++ DQUOTE) (char_double_pairs body)]
       rest.
Proof.
  unfold string, atomic.
  replace (DQUOTE ++ escaped body ++ DQUOTE ++ rest)
    with ((DQUOTE ++ escaped body ++ DQUOTE) ++ rest)
    by (now rewrite <- !app_assoc).
  apply rule_ok; [discriminate|]. rewrite <- !app_assoc. apply or_else_l.
  replace (char_double_pairs body) with ([] ++ char_double_pairs body ++ [])
    by (simpl; apply app_nil_r).
  apply and_then_ok with (r1 := escaped body ++ DQUOTE ++ rest).
  { apply match_string_app. }
  apply and_then_ok with (r1 := DQUOTE ++ rest).
  { apply char_doubles_ok. }
  apply match_string_app.
Qed.

(** ** Chains of any length *)

Lemma is_operator_cases k :
  is_operator k = true -> k = 43 \/ k = 45 \/ k = 42 \/ k = 47 \/ k = 94 \/ k = 46.
Proof.
  unfold is_operator, operator_rule.
  destruct (N.eqb_spec k 43); [auto|]. destruct (N.eqb_spec k 45); [auto|].
  destruct (N.eqb_spec k 42); [auto|]. destruct (N.eqb_spec k 47); [auto|].
  destruct (N.eqb_spec k 94); [auto 6|]. destruct (N.eqb_spec k 46); [auto 6|].
  discriminate.
Qed.

Lemma op_operator k R r :
  operator_rule k = Some R -> op NonAtomic ([k] ++ r) = Ok [Node R [k] []] r.
Proof.
  intros H. assert (Hk : is_operator k = true) by (unfold is_operator; now rewrite H).
  apply is_operator_cases in Hk as [->|[->|[->|[->|[->| ->]]]]];
    injection H as <-; unfold op;
    repeat (rewrite or_else_r by reflexivity); try apply or_else_l;
    unfold add, sub, mul, div, pow, access;
    (apply rule_ok; [discriminate|apply match_string_app]).
Qed.

Lemma op_err a rest : stops is_operator rest -> op a rest = Err.
Proof.
  destruct rest as [|c rest]; [reflexivity|]. simpl.
  unfold is_operator, operator_rule.
  destruct (N.eqb_spec c 43) as [|H43]; [discriminate|].
  destruct (N.eqb_spec c 45) as [|H45]; [discriminate|].
  destruct (N.eqb_spec c 42) as [|H42]; [discriminate|].
  destruct (N.eqb_spec c 47) as [|H47]; [discriminate|].
  destruct (N.eqb_spec c 94) as [|H94]; [discriminate|].
  destruct (N.eqb_spec c 46) as [|H46]; [discriminate|]. intros _.
  assert (E : forall R k, c <> k -> rule R (match_string [k]) a (c :: rest) = Err).
  { intros R k Hk. apply rule_err, match_string_not_next. simpl. intros [E|[]].
    congruence. }
  unfold op, add, sub, mul, div, pow, access, lit. compute_codes.
  unfold or_else. now rewrite !E.
Qed.

Lemma operator_not_whitespace k : is_operator k = true -> is_whitespace k = false.
Proof.
  intros H. apply is_operator_cases in H as [->|[->|[->|[->|[->| ->]]]]]; reflexivity.
Qed.

Lemma whitespace_ends_number c rest : is_whitespace c = true -> ends_number (c :: rest).
Proof.
  intros H. apply is_whitespace_cases in H as [->|[->|[->| ->]]];
    simpl; repeat split; discriminate.
Qed.

(** A number ends where a link starts. *)
Lemma link_ends_number l next : link_ok l -> ends_number (link_text l ++ next).
Proof.
  intros (Hb & _ & Hk & Hdot & _). unfold link_text.
  destruct (link_before l) as [|c before].
  - cbn [app]. apply is_operator_cases in Hk as [->|[->|[->|[->|[->|E]]]]];
      try (simpl; repeat split; discriminate).
    now destruct (Hdot E).
  - simpl in Hb. apply andb_prop in Hb as [Hc _]. cbn [app].
    now apply whitespace_ends_number.
Qed.

Lemma links_end_number links rest :
  Forall link_ok links -> ends_chain rest ->
  ends_number (flat_map link_text links ++ rest).
Proof.
  intros Hl (_ & _ & Hr). destruct links as [|l links]; [assumption|].
  cbn [flat_map]. rewrite <- app_assoc. apply link_ends_number.
  now apply Forall_inv in Hl.
Qed.

(** One operator and one number, after the whitespace before the
    operator. *)
Lemma chain_link self l next :
  link_ok l -> ends_number next ->
  (op ~~ atom self) NonAtomic
    ([link_operator l] ++ link_after l ++ link_number l ++ next)
  = Ok (link_pairs l) next.
Proof.
  intros (_ & Ha & Hk & _ & Ht) Hnext. unfold link_pairs.
  unfold is_operator in Hk.
  destruct (operator_rule (link_operator l)) as [R|] eqn:ER; [|discriminate].
  unfold seq_ws.
  change [Node R [link_operator l] []; number_value (link_number l)]
    with ([Node R [link_operator l] []] ++ [] ++ [number_value (link_number l)]).
  apply and_then_ok with (r1 := link_after l ++ link_number l ++ next).
  { now apply op_operator. }
  apply and_then_ok with (r1 := link_number l ++ next).
  { apply skip_whitespace; [assumption|]. now apply spec_number_not_whitespace. }
  now apply atom_number.
Qed.

Lemma link_pairs_length l : link_ok l -> (0 < length (link_text l))%nat.
Proof.
  intros _. unfold link_text. rewrite !length_app. simpl. lia.
Qed.

Lemma chain_links self links rest :
  Forall link_ok links -> ends_chain rest ->
  repeat (skip ~> (op ~~ atom self)) NonAtomic (flat_map link_text links ++ rest)
  = Ok (flat_map link_pairs links) rest.
Proof.
  intros Hl Hrest. induction links as [|l links IH].
  - cbn [flat_map app]. apply repeat_stop. destruct Hrest as (Hw & Ho & _).
    apply and_then_err_r with (o1 := []) (r1 := rest); [now apply skip_none|].
    unfold seq_ws. now apply and_then_err_l, op_err.
  - apply Forall_cons_iff in Hl as [Hok Hl]. specialize (IH Hl).
    cbn [flat_map]. rewrite <- app_assoc.
    apply repeat_step with (r1 := flat_map link_text links ++ rest); [| |exact IH].
    + unfold link_text. rewrite <- !app_assoc.
      change (link_pairs l) with ([] ++ link_pairs l).
      apply and_then_ok
        with (r1 := [link_operator l] ++ link_after l ++ link_number l
                    ++ flat_map link_text links ++ rest).
      * destruct Hok as (Hb & _ & Hk & _). apply skip_whitespace; [assumption|].
        simpl. now apply operator_not_whitespace.
      * apply chain_link; [assumption|]. now apply links_end_number.
    + rewrite (length_app (link_text l)). pose proof (link_pairs_length l Hok). lia.
Qed.

(** The rule [binary] on a chain of numbers, whatever [expr] is. *)
Lemma binary_chain self first links rest :
  spec_number first -> Forall link_ok links -> ends_chain rest ->
  binary self NonAtomic (chain_text first links ++ rest)
  = Ok [chain_pair first links] rest.
Proof.
  intros Hf Hl Hrest. unfold chain_pair, binary.
  apply rule_ok; [discriminate|]. unfold chain_text, seq_ws. rewrite <- app_assoc.
  match goal with |- _ = Ok (?p :: ?l) _ => change (p :: l) with ([p] ++ [] ++ l) end.
  apply and_then_ok with (r1 := flat_map link_text links ++ rest).
  { apply atom_number; [assumption|]. now apply links_end_number. }
  destruct links as [|l links].
  - cbn [flat_map app]. destruct Hrest as (Hw & Ho & _).
    change (@nil Pair) with (@nil Pair ++ []).
    apply and_then_ok with (r1 := rest); [now apply skip_none|].
    unfold rep. apply optional_err. now apply and_then_err_l, and_then_err_l, op_err.
  - apply Forall_cons_iff in Hl as [Hok Hl]. cbn [flat_map]. rewrite <- app_assoc.
    unfold link_text at 1. rewrite <- !app_assoc.
    apply and_then_ok
      with (r1 := [link_operator l] ++ link_after l ++ link_number l
                  ++ flat_map link_text links ++ rest).
    { destruct Hok as (Hb & _ & Hk & _). apply skip_whitespace; [assumption|].
      simpl. now apply operator_not_whitespace. }
    unfold rep. apply optional_ok.
    apply and_then_ok with (r1 := flat_map link_text links ++ rest).
    + apply chain_link; [assumption|]. now apply links_end_number.
    + now apply chain_links.
Qed.

(** X7: a chain of numbers of any length parses as one flat [binary] pair:
    for a number followed by any number of operators and numbers, with any
    whitespace around the operators (and some before a [.]), the parse
    succeeds and the one statement is an [expr] pair of one [binary] pair
    whose inner pairs are the numbers and operators in the order of the
    text, whatever the operators are. *)
Theorem chain_of_numbers_parses (first : input) (links : list Link) :
  spec_number first -> Forall link_ok links ->
  parse (chain_text first links)
  = Ok [Node Rule.toplevel (chain_text first links)
          [Node Rule.expr (chain_text first links) [chain_pair first links];
           Node Rule.EOI [] []]] [].
Proof.
  intros Hf Hl. unfold parse. apply toplevel_one_statement.
  - unfold chain_text. now apply spec_number_not_whitespace.
  - rewrite statement_expression.
    + cbn [expr]. apply expr_of_binary_at_end.
      pose proof (binary_chain (expr (length (chain_text first links))) first links []
                    Hf Hl (conj I (conj I I))) as H.
      now rewrite app_nil_r in H.
    + apply assignment_err_identifier, identifier_err. unfold chain_text.
      apply spec_number_first in Hf as (c & r & -> & Hc).
      simpl. now apply number_first_not_identifier.
  - apply expr_nil.
Qed.

(** ** Expressions of one atom *)

Lemma ends_argument_chain rest : ends_argument rest -> ends_chain rest.
Proof.
  destruct rest as [|c rest]; simpl; [repeat split|].
  intros [-> | ->]; repeat split; discriminate.
Qed.

Lemma binary_of_atom self x rest p :
  atom self NonAtomic (x ++ rest) = Ok [p] rest ->
  stops is_whitespace rest -> stops is_operator rest ->
  binary self NonAtomic (x ++ rest) = Ok [Node Rule.binary x [p]] rest.
Proof.
  intros H Hw Ho. unfold binary. apply rule_ok; [discriminate|]. unfold seq_ws.
  change [p] with ([p] ++ [] ++ []).
  apply and_then_ok with (r1 := rest); [assumption|].
  apply and_then_ok with (r1 := rest); [now apply skip_none|].
  unfold rep. apply optional_err. now apply and_then_err_l, and_then_err_l, op_err.
Qed.

Lemma expr_of_binary self x rest p :
  binary self NonAtomic (x ++ rest) = Ok [p] rest ->
  stops is_whitespace rest -> not_next [58] rest ->
  expr_body self NonAtomic (x ++ rest) = Ok [Node Rule.expr x [p]] rest.
Proof.
  intros H Hw Hc. unfold expr_body. apply rule_ok; [discriminate|]. unfold seq_ws.
  change [p] with ([p] ++ [] ++ []).
  apply and_then_ok with (r1 := rest); [now apply or_else_l|].
  apply and_then_ok with (r1 := rest); [now apply skip_none|].
  apply optional_err, and_then_err_l. unfold lit. compute_codes.
  now apply match_string_not_next.
Qed.

Lemma ends_argument_not_colon rest : ends_argument rest -> not_next [58] rest.
Proof.
  destruct rest as [|c rest]; simpl; [auto|].
  intros [-> | ->] [E|[]]; discriminate.
Qed.

(** An expression that is one atom, before the end of an argument. *)
Lemma expr_of_atom self x rest p :
  atom self NonAtomic (x ++ rest) = Ok [p] rest -> ends_argument rest ->
  expr_body self NonAtomic (x ++ rest) = Ok [expr_of x p] rest.
Proof.
  intros H Hrest. destruct (ends_argument_chain rest Hrest) as (Hw & Ho & _).
  apply expr_of_binary; [|assumption|now apply ends_argument_not_colon].
  now apply binary_of_atom.
Qed.

Lemma expr_number self t rest :
  spec_number t -> ends_argument rest ->
  expr_body self NonAtomic (t ++ rest) = Ok [expr_of t (number_value t)] rest.
Proof.
  intros Ht Hrest. apply expr_of_atom; [|assumption].
  apply atom_number; [assumption|]. now apply ends_argument_chain.
Qed.

(** ** Calls *)

(** A call with one argument that [self] reads up to the closing
    parenthesis. *)
Lemma call_one_argument self f x p rest :
  grammar_identifier f = true -> stops is_whitespace x -> x <> [] ->
  self NonAtomic (x ++ [41] ++ rest) = Ok [p] ([41] ++ rest) ->
  call self NonAtomic ((f ++ [40] ++ x ++ [41]) ++ rest)
  = Ok [Node Rule.call (f ++ [40] ++ x ++ [41]) [Node Rule.identifier f []; p]] rest.
Proof.
  intros Hf Hx Hne Hp. destruct f as [|c cs]; [discriminate|]. simpl in Hf.
  apply andb_prop in Hf as [Hc Hcs].
  assert (Hxw : stops is_whitespace (x ++ [41] ++ rest)).
  { destruct x as [|k x]; [contradiction|exact Hx]. }
  unfold call. apply rule_ok; [discriminate|]. unfold seq_ws.
  rewrite <- !app_assoc.
  change [Node Rule.identifier (c :: cs) []; p]
    with ([Node Rule.identifier (c :: cs) []] ++ [] ++ [] ++ []
          ++ ([p] ++ [] ++ []) ++ [] ++ []).
  apply and_then_ok with (r1 := [40] ++ x ++ [41] ++ rest).
  { apply identifier_ok; auto; first [discriminate|reflexivity]. }
  apply and_then_ok with (r1 := [40] ++ x ++ [41] ++ rest); [now apply skip_none|].
  apply and_then_ok with (r1 := x ++ [41] ++ rest).
  { unfold lit. compute_codes. apply match_string_app. }
  apply and_then_ok with (r1 := x ++ [41] ++ rest); [now apply skip_none|].
  apply and_then_ok with (r1 := [41] ++ rest).
  { apply optional_ok. apply and_then_ok with (r1 := [41] ++ rest); [assumption|].
    apply and_then_ok with (r1 := [41] ++ rest); [now apply skip_none|].
    unfold rep. apply optional_err. apply and_then_err_l, and_then_err_l.
    reflexivity. }
  apply and_then_ok with (r1 := [41] ++ rest); [now apply skip_none|].
  unfold lit. compute_codes. apply match_string_app.
Qed.

Lemma nested_text_first f t n rest :
  grammar_identifier f = true -> spec_number t ->
  nested_text f t n <> [] /\ stops is_whitespace (nested_text f t n ++ rest).
Proof.
  intros Hf Ht. destruct n as [|n]; cbn [nested_text].
  - apply spec_number_first in Ht as (c & r & -> & Hc). split; [discriminate|].
    simpl. now apply number_first_not_whitespace.
  - destruct f as [|c cs]; [discriminate|]. simpl in Hf.
    apply andb_prop in Hf as [Hc _]. split; [discriminate|].
    simpl. now apply identifier_head_not_whitespace.
Qed.

Lemma nested_text_whole f t n :
  grammar_identifier f = true -> spec_number t ->
  stops is_whitespace (nested_text f t n).
Proof.
  intros Hf Ht. pose proof (nested_text_first f t n [] Hf Ht) as [_ H].
  now rewrite app_nil_r in H.
Qed.

(** Calls nest to any depth below the bound of [expr]. *)
Lemma nested_expr f t :
  grammar_identifier f = true -> spec_number t ->
  forall n d rest,
    (n < d)%nat -> ends_argument rest ->
    expr d NonAtomic (nested_text f t n ++ rest) = Ok [nested_pair f t n] rest.
Proof.
  intros Hf Ht. induction n as [|n IH]; intros d rest Hd Hrest;
    (destruct d as [|d]; [lia|]); cbn [expr nested_text nested_pair].
  - now apply expr_number.
  - compute_codes. apply expr_of_atom; [|assumption]. unfold atom. apply or_else_l.
    apply call_one_argument; try assumption.
    + now apply (nested_text_whole f t n).
    + now apply (nested_text_first f t n []).
    + apply IH; [lia|]. simpl. auto.
Qed.

Lemma nested_text_length f t n : (n <= length (nested_text f t n))%nat.
Proof.
  induction n as [|n IH]; cbn [nested_text]; [lia|].
  compute_codes. rewrite !length_app. simpl. lia.
Qed.

(** X9: calls nest to any depth: for every [n], the text of a number inside
    [n] calls, each of an identifier with one argument, parses, and the
    tree nests as the text does: each call pair holds the identifier and
    the [expr] pair of its argument.  The bound on the depth of [expr] that
    [parse] takes from the length of the text is never reached. *)
Theorem nested_calls_parse (f t : input) (n : nat) :
  grammar_identifier f = true -> spec_number t ->
  parse (nested_text f t n)
  = Ok [Node Rule.toplevel (nested_text f t n)
          [nested_pair f t n; Node Rule.EOI [] []]] [].
Proof.
  intros Hf Ht. unfold parse. apply toplevel_one_statement.
  - now apply (nested_text_whole f t n).
  - rewrite statement_expression.
    + pose proof (nested_expr f t Hf Ht n (S (length (nested_text f t n))) []) as H.
      rewrite app_nil_r in H. apply H; [|exact I].
      pose proof (nested_text_length f t n). lia.
    + destruct n as [|n]; cbn [nested_text].
      * apply assignment_err_identifier, identifier_err.
        apply spec_number_first in Ht as (c & r & -> & Hc).
        simpl. now apply number_first_not_identifier.
      * destruct f as [|c cs]; [discriminate|]. simpl in Hf.
        apply andb_prop in Hf as [Hc Hcs]. compute_codes.
        apply assignment_err_equals with (o := [Node Rule.identifier (c :: cs) []])
          (r := [40] ++ nested_text (c :: cs) t n ++ [41])
          (r' := [40] ++ nested_text (c :: cs) t n ++ [41]).
        -- apply identifier_ok; auto; first [discriminate|reflexivity].
        -- now apply skip_none.
        -- simpl. intros [E|[]]. discriminate.
  - apply expr_nil.
Qed.

End Grammar.

(** * The claims on concrete texts *)

Lemma empty_document_parses_witness :
  forallb is_whitespace [32; 9; 13; 10] = true
  /\ parse ascii_only [32; 9; 13; 10]
     = Ok [Node Rule.toplevel [32; 9; 13; 10] [Node Rule.EOI [] []]] []
  /\ program_of (parse ascii_only [32; 9; 13; 10]) = Some [].
Proof.
  split; [reflexivity|].
  apply (empty_document_parses ascii_only [32; 9; 13; 10]). reflexivity.
Defined.

Lemma identifier_alone_parses_witness :
  ascii_identifier (codes "x_1") = true
  /\ program_of (parse ascii_only (codes "x_1"))
     = Some [Ast.ExpressionStatement (Ast.EIdentifier (codes "x_1")) false].
Proof.
  split; [reflexivity|].
  apply (identifier_alone_parses ascii_only (codes "x_1")). reflexivity.
Defined.

Lemma binary_chain_is_flat_witness :
  spec_number (codes "1") /\ spec_number (codes "2") /\ spec_number (codes "3")
  /\ program_of (parse ascii_only (codes "a = 1+2*3"))
     = Some [Ast.Assignment (codes "a")
               (Ast.BinaryChain (number_expression (codes "1"))
                  [(Ast.OpAdd, number_expression (codes "2"));
                   (Ast.OpMul, number_expression (codes "3"))])]
  /\ program_of (parse ascii_only (codes "1+2*3"))
     = Some [Ast.ExpressionStatement
               (Ast.BinaryChain (number_expression (codes "1"))
                  [(Ast.OpAdd, number_expression (codes "2"));
                   (Ast.OpMul, number_expression (codes "3"))])
               false]
  /\ (exists p,
        binary ascii_only (expr ascii_only 1) NonAtomic (codes "1+2*3") = Ok [p] []
        /\ flat_chain p = true).
Proof.
  assert (H1 : spec_number (codes "1")) by (now apply spec_number_digits).
  assert (H2 : spec_number (codes "2")) by (now apply spec_number_digits).
  assert (H3 : spec_number (codes "3")) by (now apply spec_number_digits).
  destruct (proj2 (binary_chain_is_flat ascii_only) _ _ _ H1 H2 H3)
    as (_ & Hb & _ & Hd & _).
  repeat split; try assumption.
  assert (E0 : binary ascii_only (expr ascii_only 1) NonAtomic (codes "1+2*3")
               = Ok [three_numbers_chain (codes "1") (codes "2") (codes "3")] [])
    by reflexivity.
  destruct (proj1 (binary_chain_is_flat ascii_only) _ _ _ _ E0) as (p & E & Hp).
  exists p. split; [now rewrite <- E|assumption].
Defined.

Lemma assignment_is_tried_first_witness :
  expr ascii_only 1 NonAtomic (codes "1+2")
  = Ok [Node Rule.expr (codes "1+2")
          [Node Rule.binary (codes "1+2")
             [Node Rule.single_value (codes "1") [Node Rule.number (codes "1") []];
              Node Rule.add (codes "+") [];
              Node Rule.single_value (codes "2") [Node Rule.number (codes "2") []]]]] []
  /\ statement ascii_only (expr ascii_only 1) NonAtomic (codes "a = 1+2")
     = Ok [Node Rule.assignment (codes "a = 1+2")
             [Node Rule.identifier (codes "a") [];
              Node Rule.expr (codes "1+2")
                [Node Rule.binary (codes "1+2")
                   [Node Rule.single_value (codes "1") [Node Rule.number (codes "1") []];
                    Node Rule.add (codes "+") [];
                    Node Rule.single_value (codes "2") [Node Rule.number (codes "2") []]]]]] []
  /\ statement ascii_only (expr ascii_only 1) NonAtomic (codes "a + 1")
     = expr ascii_only 1 NonAtomic (codes "a + 1").
Proof.
  split; [reflexivity|]. split.
  - exact (proj1 (assignment_is_tried_first ascii_only) (expr ascii_only 1)
             97 [] [32] [32] (codes "1+2") _ [] eq_refl eq_refl eq_refl eq_refl
             eq_refl eq_refl).
  - refine (proj2 (proj2 (proj2 (assignment_is_tried_first ascii_only)))
              (expr ascii_only 1) 97 [] [32] (codes "+ 1")
              eq_refl eq_refl eq_refl eq_refl eq_refl _).
    simpl. intros [E|[]]. discriminate.
Defined.

Lemma matrix_row_holds_literals_only_witness :
  line ascii_only NonAtomic (codes "1,x;3]")
  = Ok [Node Rule.line (codes "1,x")
          [Node Rule.number (codes "1") []; Node Rule.identifier (codes "x") []]]
       (codes ";3]")
  /\ exists t literals,
       [Node Rule.line (codes "1,x")
          [Node Rule.number (codes "1") []; Node Rule.identifier (codes "x") []]]
       = [Node Rule.line t literals]
       /\ forallb is_literal_pair literals = true.
Proof.
  split; [reflexivity|].
  exact (proj1 (matrix_row_holds_literals_only ascii_only) NonAtomic
           (codes "1,x;3]") _ (codes ";3]") eq_refl).
Defined.

Lemma row_separators_agree_witness :
  exists literals,
    literals = [Node Rule.number (codes "1") []; Node Rule.number (codes "2") []]
    /\ line ascii_only NonAtomic (codes "1,2;3,4]")
       = Ok [Node Rule.line (codes "1,2") literals] (codes ";3,4]")
    /\ line ascii_only NonAtomic (codes "1 2;3,4]")
       = Ok [Node Rule.line (codes "1 2") literals] (codes ";3,4]").
Proof.
  assert (H1 : delimited ascii_only (codes "1", Node Rule.number (codes "1") [])).
  { apply number_delimited. now apply spec_number_digits. }
  assert (H2 : delimited ascii_only (codes "2", Node Rule.number (codes "2") [])).
  { apply number_delimited. now apply spec_number_digits. }
  apply (proj1 (row_separators_agree ascii_only) NonAtomic
           (codes "1", Node Rule.number (codes "1") [])
           [(Comma [] [], (codes "2", Node Rule.number (codes "2") []))]
           [(Blank [32], (codes "2", Node Rule.number (codes "2") []))]
           (codes ";3,4]")).
  - split; [assumption|]. constructor; [|constructor]. split; [reflexivity|assumption].
  - split; [assumption|]. constructor; [|constructor]. split; [reflexivity|assumption].
  - reflexivity.
  - simpl. now left.
Defined.

Lemma range_has_two_or_three_parts_witness :
  exists t operands,
    expr ascii_only 1 NonAtomic (codes "1:2:10") = Ok [Node Rule.expr t operands] []
    /\ (1 <= length operands <= 3)%nat.
Proof.
  assert (E0 : exists o, expr ascii_only 1 NonAtomic (codes "1:2:10") = Ok o [])
    by (eexists; vm_compute; reflexivity).
  destruct E0 as (o & E0).
  destruct (proj1 (range_has_two_or_three_parts ascii_only) _ _ _ _ E0)
    as (t & operands & E & H).
  exists t, operands. split; [now rewrite <- E|assumption].
Defined.

Lemma comment_is_not_skipped_witness :
  comment_outside_string (codes "% comment" ++ LF ++ codes "x = 1") = true
  /\ parse ascii_only (codes "% comment" ++ LF ++ codes "x = 1") = Err.
Proof.
  split; [reflexivity|].
  apply (comment_is_not_skipped ascii_only). reflexivity.
Defined.

Lemma single_quoted_string_is_not_closed_witness :
  string NonAtomic (SQUOTE ++ codes "a'\b'")
  = Ok [Node Rule.string (codes "'a'")
          [Node Rule.char_simple (codes "a") []]] (codes "\b'")
  /\ exists r', codes "\b'" = BACKSLASH ++ r'.
Proof.
  split; [reflexivity|].
  exact (proj1 (proj2 (single_quoted_string_is_not_closed ascii_only)) NonAtomic
           (codes "a'\b'") _ (codes "\b'") eq_refl).
Defined.

Lemma parse_depth_is_enough_witness :
  (length (codes "f(g(1), [2 3])") < 100)%nat
  /\ toplevel ascii_only (expr ascii_only 100) NonAtomic (codes "f(g(1), [2 3])")
     = parse ascii_only (codes "f(g(1), [2 3])")
  /\ parse ascii_only (codes "f(g(1), [2 3])") <> Diverge.
Proof.
  assert (H : (length (codes "f(g(1), [2 3])") < 100)%nat) by (simpl; lia).
  split; [exact H|].
  exact (parse_depth_is_enough ascii_only (codes "f(g(1), [2 3])") 100 H).
Defined.

Lemma parse_tree_shape_witness :
  parse ascii_only (codes "a = 1; f(2)")
  = Ok [Node Rule.toplevel (codes "a = 1; f(2)")
          ([Node Rule.statement_semi (codes "a = 1;")
              [Node Rule.assignment (codes "a = 1")
                 [Node Rule.identifier (codes "a") [];
                  Node Rule.expr (codes "1")
                    [Node Rule.binary (codes "1") [number_value (codes "1")]]]];
            Node Rule.expr (codes "f(2)")
              [Node Rule.binary (codes "f(2)")
                 [Node Rule.call (codes "f(2)")
                    [Node Rule.identifier (codes "f") [];
                     Node Rule.expr (codes "2")
                       [Node Rule.binary (codes "2") [number_value (codes "2")]]]]]]
           ++ [Node Rule.EOI [] []])] []
  /\ (@nil N = []
      /\ exists items,
           [Node Rule.toplevel (codes "a = 1; f(2)")
              ([Node Rule.statement_semi (codes "a = 1;")
                  [Node Rule.assignment (codes "a = 1")
                     [Node Rule.identifier (codes "a") [];
                      Node Rule.expr (codes "1")
                        [Node Rule.binary (codes "1") [number_value (codes "1")]]]];
                Node Rule.expr (codes "f(2)")
                  [Node Rule.binary (codes "f(2)")
                     [Node Rule.call (codes "f(2)")
                        [Node Rule.identifier (codes "f") [];
                         Node Rule.expr (codes "2")
                           [Node Rule.binary (codes "2") [number_value (codes "2")]]]]]]
               ++ [Node Rule.EOI [] []])]
           = [Node Rule.toplevel (codes "a = 1; f(2)") (items ++ [Node Rule.EOI [] []])]
           /\ forallb is_item_pair items = true).
Proof.
  assert (H : parse ascii_only (codes "a = 1; f(2)")
              = Ok [Node Rule.toplevel (codes "a = 1; f(2)")
          ([Node Rule.statement_semi (codes "a = 1;")
              [Node Rule.assignment (codes "a = 1")
                 [Node Rule.identifier (codes "a") [];
                  Node Rule.expr (codes "1")
                    [Node Rule.binary (codes "1") [number_value (codes "1")]]]];
            Node Rule.expr (codes "f(2)")
              [Node Rule.binary (codes "f(2)")
                 [Node Rule.call (codes "f(2)")
                    [Node Rule.identifier (codes "f") [];
                     Node Rule.expr (codes "2")
                       [Node Rule.binary (codes "2") [number_value (codes "2")]]]]]]
           ++ [Node Rule.EOI [] []])] [])
    by (vm_compute; reflexivity).
  split; [exact H|].
  exact (parse_tree_shape ascii_only (codes "a = 1; f(2)") _ _ H).
Defined.

Lemma chain_of_numbers_parses_witness :
  spec_number (codes "1")
  /\ Forall link_ok
       [Build_Link (codes " ") 45 (codes " ") (codes "2");
        Build_Link [] 94 [] (codes "3");
        Build_Link (codes " ") 46 [] (codes "4")]
  /\ parse ascii_only (codes "1 - 2^3 .4")
     = Ok [Node Rule.toplevel (codes "1 - 2^3 .4")
             [Node Rule.expr (codes "1 - 2^3 .4")
                [Node Rule.binary (codes "1 - 2^3 .4")
                   [number_value (codes "1");
                    Node Rule.sub (codes "-") []; number_value (codes "2");
                    Node Rule.pow (codes "^") []; number_value (codes "3");
                    Node Rule.access (codes ".") []; number_value (codes "4")]];
              Node Rule.EOI [] []]] [].
Proof.
  assert (H1 : spec_number (codes "1")) by (now apply spec_number_digits).
  assert (Hl : Forall link_ok
                 [Build_Link (codes " ") 45 (codes " ") (codes "2");
                  Build_Link [] 94 [] (codes "3");
                  Build_Link (codes " ") 46 [] (codes "4")]).
  { repeat constructor; simpl; try discriminate; now apply spec_number_digits. }
  split; [exact H1|]. split; [exact Hl|].
  exact (chain_of_numbers_parses ascii_only (codes "1")
           [Build_Link (codes " ") 45 (codes " ") (codes "2");
            Build_Link [] 94 [] (codes "3");
            Build_Link (codes " ") 46 [] (codes "4")] H1 Hl).
Defined.

Lemma nested_calls_parse_witness :
  grammar_identifier ascii_only (codes "f") = true
  /\ spec_number (codes "7")
  /\ parse ascii_only (codes "f(f(f(7)))")
     = Ok [Node Rule.toplevel (codes "f(f(f(7)))")
             [nested_pair (codes "f") (codes "7") 3; Node Rule.EOI [] []]] [].
Proof.
  assert (Hf : grammar_identifier ascii_only (codes "f") = true) by reflexivity.
  assert (Ht : spec_number (codes "7")) by (now apply spec_number_digits).
  split; [exact Hf|]. split; [exact Ht|].
  exact (nested_calls_parse ascii_only (codes "f") (codes "7") 3 Hf Ht).
Defined.
